(** * holo-apply: the config file reconciliation engine

    A shallow embedding of the per-entry pipeline [walkRepo] of the early
    self-contained tool and of the metadata copier and integrity checker of
    package [common] (fileio.go), over an explicit model of the operating
    system calls the Go code issues.

    Layout:
    - [GoStrings]    the functions of Go's [strings] and [path/filepath]
                     packages that the code calls;
    - [OS]           file nodes, the file system, the environment (clock,
                     identity, injected I/O failures) and the system calls;
    - [Fileio]       src/common/fileio.go;
    - [HoloApply]    the early tool: [main], [walkRepo], [copyFile],
                     [isNewerThan];
    - the vocabulary of the statements and the sample worlds;
    - lemmas on paths, on the calls and on the steps of [walkRepo], first
      in an environment where nothing fails, then whatever fails;
    - the properties of the engine, one block each;
    - further properties of fileio.go and of the early tool: what the
      functions leave alone, how they fail, how they compose. *)

From Stdlib Require Import ZArith String Ascii List Bool Lia.
From stdpp Require Import base option gmap strings.

Local Open Scope string_scope.
Local Open Scope Z_scope.

#[local] Arguments String.append !_ _ / : simpl nomatch.

(* ===================================================================== *)
(** * Go's [strings] and [path/filepath] *)
(* ===================================================================== *)

Module GoStrings.

(** [strings.HasSuffix]:
    [len(s) >= len(suffix) && s[len(s)-len(suffix):] == suffix]. *)
Definition HasSuffix (s suffix : string) : bool :=
  (String.length suffix <=? String.length s)%nat &&
  String.eqb
    (substring (String.length s - String.length suffix)
               (String.length suffix) s)
    suffix.

(** [strings.TrimSuffix]: [s] without the trailing [suffix], or [s] itself
    when it does not end in [suffix]. *)
Definition TrimSuffix (s suffix : string) : string :=
  if HasSuffix s suffix
  then substring 0 (String.length s - String.length suffix) s
  else s.

(** The elements of a path between separators: ["a//b"] has the elements
    ["a"], [""] and ["b"]. *)
Definition consHead (c : ascii) (l : list string) : list string :=
  match l with
  | [] => [String c EmptyString]
  | e :: es => String c e :: es
  end.

Fixpoint splitSlash (s : string) : list string :=
  match s with
  | EmptyString => [EmptyString]
  | String c rest =>
      if Ascii.eqb c "/" then EmptyString :: splitSlash rest
      else consHead c (splitSlash rest)
  end.

Fixpoint joinSlash (es : list string) : string :=
  match es with
  | [] => ""
  | e :: es' =>
      match es' with
      | [] => e
      | _ :: _ => e +:+ "/" +:+ joinSlash es'
      end
  end.

Definition isRooted (p : string) : bool :=
  match p with
  | String c _ => Ascii.eqb c "/"
  | EmptyString => false
  end.

(** The element loop of [filepath.Clean]: empty and ["."] elements are
    dropped, [".."] removes the element before it when there is one to
    remove, is dropped at the root, and is kept at the head of a relative
    path. [out] is the output written so far, last element first. *)
Fixpoint cleanElems (rooted : bool) (out : list string) (es : list string)
  : list string :=
  match es with
  | [] => rev out
  | e :: es' =>
      if String.eqb e "" || String.eqb e "." then cleanElems rooted out es'
      else if String.eqb e ".." then
        match out with
        | o :: out' =>
            if String.eqb o ".." then cleanElems rooted (e :: out) es'
            else cleanElems rooted out' es'
        | [] =>
            if rooted then cleanElems rooted [] es'
            else cleanElems rooted [e] es'
        end
      else cleanElems rooted (e :: out) es'
  end.

Definition cleanPath (p : string) : bool * list string :=
  (isRooted p, cleanElems (isRooted p) [] (splitSlash p)).

Definition renderPath (cp : bool * list string) : string :=
  let '(rooted, es) := cp in
  if rooted then "/" +:+ joinSlash es
  else match es with
       | [] => "."
       | _ :: _ => joinSlash es
       end.

(** [filepath.Clean]. *)
Definition Clean (p : string) : string := renderPath (cleanPath p).

(** [filepath.Join] of two elements: empty elements are ignored, the rest
    is joined with a separator and cleaned; the result of joining only
    empty elements is the empty string. *)
Definition Join (a b : string) : string :=
  if String.eqb a "" then
    if String.eqb b "" then "" else Clean b
  else Clean (a +:+ "/" +:+ b).

Fixpoint stripCommon (bs ts : list string) : list string * list string :=
  match bs, ts with
  | b :: bs', t :: ts' =>
      if String.eqb b t then stripCommon bs' ts' else (bs, ts)
  | _, _ => (bs, ts)
  end.

Definition relError (basepath targpath : string) : string :=
  "Rel: can't make " +:+ targpath +:+ " relative to " +:+ basepath.

(** [filepath.Rel]: both paths are cleaned; equal paths give ["."]; a
    rooted and an unrooted path cannot be related; otherwise the common
    leading elements are dropped, every element left of the base becomes
    [".."], and the elements left of the target follow. *)
Definition Rel (basepath targpath : string) : string * option string :=
  let '(br, bs) := cleanPath basepath in
  let '(tr, ts) := cleanPath targpath in
  if String.eqb (renderPath (tr, ts)) (renderPath (br, bs)) then (".", None)
  else if negb (Bool.eqb br tr) then ("", Some (relError basepath targpath))
  else
    let '(bs', ts') := stripCommon bs ts in
    match bs' with
    | b :: _ =>
        if String.eqb b ".." then ("", Some (relError basepath targpath))
        else (joinSlash (map (fun _ => "..") bs' ++ ts'), None)
    | [] => (joinSlash ts', None)
    end.

(** [s[:i+1]] for the index [i] of the last separator of [s]. *)
Fixpoint uptoLastSlash (s : string) : string :=
  match s with
  | EmptyString => EmptyString
  | String c rest =>
      match uptoLastSlash rest with
      | EmptyString =>
          if Ascii.eqb c "/" then String c EmptyString else EmptyString
      | r => String c r
      end
  end.

(** [filepath.Dir]. *)
Definition Dir (p : string) : string := Clean (uptoLastSlash p).

End GoStrings.

Import GoStrings.

(* ===================================================================== *)
(** * The operating system *)
(* ===================================================================== *)

(** The model keeps one node per path and no links between a directory and
    its entries: a path names its node directly, directories on the way
    are not symlinks, and there are no hard links. Only a symlink in the
    last position of a path is followed, by the calls that follow symlinks
    in the kernel. Every call first asks the environment whether it fails
    (permissions, missing ancestors, a full or read-only disk, ...): the
    injected failures have no effect besides the error. *)

Module OS.

(** [time.Time] of a file: seconds and nanoseconds, no monotonic reading. *)
Record Time := mkTime { sec : Z; nsec : Z }.

(** [Time.After]. *)
Definition After (t u : Time) : bool :=
  (sec u <? sec t) || ((sec t =? sec u) && (nsec u <? nsec t)).

(** [os.FileMode] bits. *)
Definition ModeDir        : Z := 2 ^ 31.
Definition ModeSymlink    : Z := 2 ^ 27.
Definition ModeDevice     : Z := 2 ^ 26.
Definition ModeNamedPipe  : Z := 2 ^ 25.
Definition ModeSocket     : Z := 2 ^ 24.
Definition ModeSetuid     : Z := 2 ^ 23.
Definition ModeSetgid     : Z := 2 ^ 22.
Definition ModeCharDevice : Z := 2 ^ 21.
Definition ModeSticky     : Z := 2 ^ 20.
Definition ModeIrregular  : Z := 2 ^ 19.
Definition ModePerm       : Z := 511.
Definition ModeType : Z :=
  Eval cbv in
    fold_right Z.lor 0
      [ModeDir; ModeSymlink; ModeNamedPipe; ModeSocket; ModeDevice;
       ModeCharDevice; ModeIrregular].

(** The bits [os.Chmod] hands to the kernel ([syscallMode]). *)
Definition chmodBits : Z :=
  Eval cbv in fold_right Z.lor 0 [ModePerm; ModeSetuid; ModeSetgid; ModeSticky].

Inductive Kind :=
  Regular | Directory | Symlink | NamedPipe | Socket | Device | CharDevice.

Definition kindBits (k : Kind) : Z :=
  match k with
  | Regular => 0
  | Directory => ModeDir
  | Symlink => ModeSymlink
  | NamedPipe => ModeNamedPipe
  | Socket => ModeSocket
  | Device => ModeDevice
  | CharDevice => Z.lor ModeDevice ModeCharDevice
  end.

(** A node: [data] is the content of a regular file and the destination of
    a symlink. *)
Record Node := mkNode {
  kind : Kind;
  data : string;
  perm : Z;
  uid : Z;
  gid : Z;
  mtime : Time
}.

(** What [os.Lstat] and [os.Stat] return: [Mode()], the owner and group of
    the [syscall.Stat_t] behind [Sys()], and [ModTime()]. *)
Record FileInfo := mkFileInfo {
  Mode : Z;
  Uid : Z;
  Gid : Z;
  ModTime : Time
}.

Definition infoOf (n : Node) : FileInfo :=
  {| Mode := Z.lor (kindBits (kind n)) (Z.land (perm n) chmodBits);
     Uid := uid n; Gid := gid n; ModTime := mtime n |}.

(** [FileMode.IsRegular]: [m&ModeType == 0]. *)
Definition IsRegular (m : Z) : bool := Z.land m ModeType =? 0.

(** [FileMode.IsDir]: [m&ModeDir != 0]. *)
Definition IsDir (m : Z) : bool := negb (Z.land m ModeDir =? 0).

Inductive Errno :=
  ENOENT | EEXIST | ENOTDIR | EISDIR | EINVAL | ELOOP | ENOTEMPTY
| EPERM | EACCES | EIO | ENOSPC | EROFS.

Definition errnoText (e : Errno) : string :=
  match e with
  | ENOENT => "no such file or directory"
  | EEXIST => "file exists"
  | ENOTDIR => "not a directory"
  | EISDIR => "is a directory"
  | EINVAL => "invalid argument"
  | ELOOP => "too many levels of symbolic links"
  | ENOTEMPTY => "directory not empty"
  | EPERM => "operation not permitted"
  | EACCES => "permission denied"
  | EIO => "input/output error"
  | ENOSPC => "no space left on device"
  | EROFS => "read-only file system"
  end.

(** A Go [error] is represented by its [Error()] text; [None] is [nil].
    An [os.PathError] prints as [op path: text]. *)
Definition PathError (op path : string) (e : Errno) : string :=
  op +:+ " " +:+ path +:+ ": " +:+ errnoText e.

(** The calls the code issues, with their arguments. *)
Inductive Syscall :=
| SysLstat (path : string)
| SysStat (path : string)
| SysReadFile (path : string)
| SysWriteFile (path data : string) (mode : Z)
| SysChmod (path : string) (mode : Z)
| SysChown (path : string) (u g : Z)
| SysChtimes (path : string) (atime mtime : Time)
| SysRemove (path : string)
| SysSymlink (oldname newname : string)
| SysReadlink (path : string)
| SysMkdirAll (path : string) (mode : Z).

(** The environment of a run: which call fails (by the number of calls
    issued before it), the time at each call, the identity and the umask
    of the process. *)
Record Env := mkEnv {
  fault : nat -> Syscall -> option Errno;
  now : nat -> Time;
  euid : Z;
  egid : Z;
  umask : Z
}.

(** The world: the file system, the calls issued so far (latest last), the
    lines printed on standard output (latest last) and the environment. *)
Record World := mkWorld {
  fs : gmap string Node;
  calls : list Syscall;
  out : list string;
  env : Env
}.

Definition clock (w : World) : nat := length (calls w).

Definition setFs (f : gmap string Node) (w : World) : World :=
  {| fs := f; calls := calls w; out := out w; env := env w |}.

Definition tick (c : Syscall) (w : World) : World :=
  {| fs := fs w; calls := calls w ++ [c]; out := out w; env := env w |}.

Definition print (line : string) (w : World) : World :=
  {| fs := fs w; calls := calls w; out := out w ++ [line]; env := env w |}.

(** Computations that read and change the world. *)
Definition IO (A : Type) : Type := World -> A * World.

Definition ret {A} (a : A) : IO A := fun w => (a, w).

Definition bind {A B} (m : IO A) (k : A -> IO B) : IO B :=
  fun w => let '(a, w') := m w in k a w'.

Notation "x <- m ;; k" := (bind m (fun x => k))
  (at level 100, m at next level, right associativity).
Notation "m ;;; k" := (bind m (fun _ => k))
  (at level 100, right associativity).

(** The kernel gives up after this many symlinks in one path lookup. *)
Definition maxSymlinks : nat := 40.

(** Where a symlink at [p] with destination [dest] leads. *)
Definition linkDest (p dest : string) : string :=
  if isRooted dest then Clean dest else Join (Dir p) dest.

Fixpoint resolve (fuel : nat) (f : gmap string Node) (p : string)
  : Errno + string :=
  match f !! p with
  | Some n =>
      match kind n with
      | Symlink =>
          match fuel with
          | O => inl ELOOP
          | S fuel' => resolve fuel' f (linkDest p (data n))
          end
      | _ => inr p
      end
  | None => inr p
  end.

Definition follow (f : gmap string Node) (p : string) : Errno + string :=
  resolve maxSymlinks f p.

(** A call: count it, fail if the environment says so, else run [body] on
    the file system at the current time. An error leaves the file system
    as it was. *)
Definition syscall {A} (c : Syscall) (op path : string)
    (body : Env -> Time -> gmap string Node -> Errno + (A * gmap string Node))
  : IO (string + A) :=
  fun w =>
    match fault (env w) (clock w) c with
    | Some e => (inl (PathError op path e), tick c w)
    | None =>
        match body (env w) (now (env w) (clock w)) (fs w) with
        | inl e => (inl (PathError op path e), tick c w)
        | inr (a, f') => (inr a, tick c (setFs f' w))
        end
    end.

(** [os.Lstat]: the node at the path itself. *)
Definition Lstat (path : string) : IO (string + FileInfo) :=
  syscall (SysLstat path) "lstat" path (fun _ _ f =>
    match f !! path with
    | Some n => inr (infoOf n, f)
    | None => inl ENOENT
    end).

(** [os.Stat]: the node the path leads to. *)
Definition Stat (path : string) : IO (string + FileInfo) :=
  syscall (SysStat path) "stat" path (fun _ _ f =>
    match follow f path with
    | inl e => inl e
    | inr p =>
        match f !! p with
        | Some n => inr (infoOf n, f)
        | None => inl ENOENT
        end
    end).

(** [ioutil.ReadFile]. *)
Definition ReadFile (path : string) : IO (string + string) :=
  syscall (SysReadFile path) "open" path (fun _ _ f =>
    match follow f path with
    | inl e => inl e
    | inr p =>
        match f !! p with
        | Some n =>
            match kind n with
            | Directory => inl EISDIR
            | _ => inr (data n, f)
            end
        | None => inl ENOENT
        end
    end).

(** Nodes as the kernel makes and changes them. *)
Definition newFile (e : Env) (t : Time) (content : string) (mode : Z) : Node :=
  {| kind := Regular; data := content;
     perm := Z.land (Z.ldiff mode (umask e)) chmodBits;
     uid := euid e; gid := egid e; mtime := t |}.

Definition newDir (e : Env) (t : Time) (mode : Z) : Node :=
  {| kind := Directory; data := "";
     perm := Z.land (Z.ldiff mode (umask e)) chmodBits;
     uid := euid e; gid := egid e; mtime := t |}.

Definition newLink (e : Env) (t : Time) (dest : string) : Node :=
  {| kind := Symlink; data := dest; perm := ModePerm;
     uid := euid e; gid := egid e; mtime := t |}.

Definition setData (t : Time) (content : string) (n : Node) : Node :=
  {| kind := kind n; data := content; perm := perm n;
     uid := uid n; gid := gid n; mtime := t |}.

Definition setPerm (mode : Z) (n : Node) : Node :=
  {| kind := kind n; data := data n; perm := Z.land mode chmodBits;
     uid := uid n; gid := gid n; mtime := mtime n |}.

Definition setOwner (u g : Z) (n : Node) : Node :=
  {| kind := kind n; data := data n; perm := perm n;
     uid := u; gid := g; mtime := mtime n |}.

Definition setMtime (t : Time) (n : Node) : Node :=
  {| kind := kind n; data := data n; perm := perm n;
     uid := uid n; gid := gid n; mtime := t |}.

(** [ioutil.WriteFile]: opens with [O_WRONLY|O_CREATE|O_TRUNC]. A new file
    gets [mode] less the umask and the identity of the process; an existing
    regular file keeps its mode and owner; what is written to a pipe,
    socket or device is not kept. *)
Definition WriteFile (path content : string) (mode : Z) : IO (string + unit) :=
  syscall (SysWriteFile path content mode) "open" path (fun e t f =>
    match follow f path with
    | inl err => inl err
    | inr p =>
        match f !! p with
        | None => inr (tt, <[p := newFile e t content mode]> f)
        | Some n =>
            match kind n with
            | Directory => inl EISDIR
            | Regular => inr (tt, <[p := setData t content n]> f)
            | _ => inr (tt, f)
            end
        end
    end).

Definition updateNode (op : Node -> Node) (path : string)
    (f : gmap string Node) : Errno + (unit * gmap string Node) :=
  match follow f path with
  | inl e => inl e
  | inr p =>
      match f !! p with
      | Some n => inr (tt, <[p := op n]> f)
      | None => inl ENOENT
      end
  end.

(** [os.Chmod]. *)
Definition Chmod (path : string) (mode : Z) : IO (string + unit) :=
  syscall (SysChmod path mode) "chmod" path (fun _ _ =>
    updateNode (setPerm mode) path).

(** [os.Chown]. *)
Definition Chown (path : string) (u g : Z) : IO (string + unit) :=
  syscall (SysChown path u g) "chown" path (fun _ _ =>
    updateNode (setOwner u g) path).

(** [os.Chtimes]; access times are not modelled. *)
Definition Chtimes (path : string) (atime mt : Time) : IO (string + unit) :=
  syscall (SysChtimes path atime mt) "chtimes" path (fun _ _ =>
    updateNode (setMtime mt) path).

Definition hasEntries (f : gmap string Node) (path : string) : bool :=
  existsb (fun kv => String.eqb (Dir (fst kv)) path
                     && negb (String.eqb (fst kv) path))
          (map_to_list f).

(** [os.Remove]: unlink, or rmdir for a directory. *)
Definition Remove (path : string) : IO (string + unit) :=
  syscall (SysRemove path) "remove" path (fun _ _ f =>
    match f !! path with
    | None => inl ENOENT
    | Some n =>
        match kind n with
        | Directory =>
            if hasEntries f path then inl ENOTEMPTY
            else inr (tt, delete path f)
        | _ => inr (tt, delete path f)
        end
    end).

(** [os.Symlink]; its error is an [os.LinkError], which names both
    paths. *)
Definition MkSymlink (oldname newname : string) : IO (string + unit) :=
  syscall (SysSymlink oldname newname) "symlink"
    (oldname +:+ " " +:+ newname) (fun e t f =>
    match f !! newname with
    | Some _ => inl EEXIST
    | None =>
        inr (tt, <[newname := newLink e t oldname]> f)
    end).

(** [os.Readlink]. *)
Definition Readlink (path : string) : IO (string + string) :=
  syscall (SysReadlink path) "readlink" path (fun _ _ f =>
    match f !! path with
    | None => inl ENOENT
    | Some n =>
        match kind n with
        | Symlink => inr (data n, f)
        | _ => inl EINVAL
        end
    end).

(** [os.MkdirAll]: nothing to do for a directory, an error for anything
    else in the way, a new directory otherwise. *)
Definition MkdirAll (path : string) (mode : Z) : IO (string + unit) :=
  syscall (SysMkdirAll path mode) "mkdir" path (fun e t f =>
    match follow f path with
    | inl err => inl err
    | inr p =>
        match f !! p with
        | Some n =>
            match kind n with
            | Directory => inr (tt, f)
            | _ => inl ENOTDIR
            end
        | None =>
            inr (tt, <[p := newDir e t mode]> f)
        end
    end).

End OS.

Import OS.


(* ===================================================================== *)
(** * src/common/fileio.go *)
(* ===================================================================== *)

Module Fileio.

(** [IsFileInfoASymbolicLink] returns whether the given FileInfo describes
    a symlink. *)
Definition IsFileInfoASymbolicLink (fileInfo : FileInfo) : bool :=
  Z.land (Mode fileInfo) ModeType =? ModeSymlink.

(** [IsManageableFile] returns whether the file can be managed by Holo
    (i.e. is a regular file or a symlink). *)
Definition IsManageableFile (path : string) : IO bool :=
  r <- Lstat path ;;
  match r with
  | inl _ => ret false
  | inr info => ret (IsRegular (Mode info) || IsFileInfoASymbolicLink info)
  end.

(** [IsNewerThan] returns true if the first file is newer than the second
    file. The mtime of a symlink is ignored. *)
Definition IsNewerThan (path1 path2 : string) : IO (bool * option string) :=
  r1 <- Lstat path1 ;;
  match r1 with
  | inl err => ret (false, Some err)
  | inr info1 =>
      r2 <- Lstat path2 ;;
      match r2 with
      | inl err => ret (false, Some err)
      | inr info2 =>
          if IsFileInfoASymbolicLink info1 then ret (false, None)
          else ret (After (ModTime info1) (ModTime info2), None)
      end
  end.

(** [ApplyFilePermissions] applies permissions, ownership and timestamps
    from the first file to the second file, unless the second is a
    symlink. *)
Definition ApplyFilePermissions (fromPath toPath : string)
  : IO (option string) :=
  r <- Lstat fromPath ;;
  match r with
  | inl err => ret (Some err)
  | inr info =>
      r' <- Lstat toPath ;;
      match r' with
      | inl err => ret (Some err)
      | inr targetInfo =>
          if negb (IsFileInfoASymbolicLink targetInfo) then
            c1 <- Chmod toPath (Mode info) ;;
            match c1 with
            | inl err => ret (Some err)
            | inr _ =>
                c2 <- Chown toPath (Uid info) (Gid info) ;;
                match c2 with
                | inl err => ret (Some err)
                | inr _ =>
                    c3 <- Chtimes toPath (ModTime info) (ModTime info) ;;
                    match c3 with
                    | inl err => ret (Some err)
                    | inr _ => ret None
                    end
                end
            end
          else ret None
      end
  end.

Definition copyFileImpl (fromPath toPath : string) : IO (option string) :=
  r <- ReadFile fromPath ;;
  match r with
  | inl err => ret (Some err)
  | inr content =>
      r' <- WriteFile toPath content 384 ;;
      match r' with
      | inl err => ret (Some err)
      | inr _ => ApplyFilePermissions fromPath toPath
      end
  end.

Definition copySymlinkImpl (fromPath toPath : string) : IO (option string) :=
  r <- Readlink fromPath ;;
  match r with
  | inl err => ret (Some err)
  | inr target =>
      manageable <- IsManageableFile toPath ;;
      rm <- (if manageable : bool then
               r' <- Remove toPath ;;
               match r' with
               | inl err => ret (Some err)
               | inr _ => ret None
               end
             else ret None) ;;
      match rm with
      | Some err => ret (Some err)
      | None =>
          r'' <- MkSymlink target toPath ;;
          match r'' with
          | inl err => ret (Some err)
          | inr _ => ret None
          end
      end
  end.

(** [CopyFile] copies a regular file or symlink, including the file
    metadata. *)
Definition CopyFile (fromPath toPath : string) : IO (option string) :=
  r <- Lstat fromPath ;;
  match r with
  | inl err => ret (Some err)
  | inr info =>
      if IsRegular (Mode info) then copyFileImpl fromPath toPath
      else copySymlinkImpl fromPath toPath
  end.

End Fileio.

(* ===================================================================== *)
(** * The early tool: holo-apply *)
(* ===================================================================== *)

Module HoloApply.

Definition msgError : string := "31".
Definition msgInfo : string := "38".

Definition esc : string := String (ascii_of_nat 27) "".
Definition newline : string := String (ascii_of_nat 10) "".

(** [msg]: one line on standard output. *)
Definition msgLine (color message : string) : string :=
  esc +:+ "[" +:+ color +:+ "m" +:+ esc +:+ "[1m[holo-apply]" +:+ esc
      +:+ "[0m " +:+ message +:+ newline.

Definition msg (color message : string) : IO unit :=
  fun w => (tt, print (msgLine color message) w).

(** A computation that may panic: [inl message] is a panic in flight, with
    the string it was raised with. *)
Definition panic {A} (message : string) : IO (string + A) :=
  ret (inl message).

Definition pbind {A B} (m : IO (string + A)) (k : A -> IO (string + B))
  : IO (string + B) :=
  r <- m ;;
  match r with
  | inl message => ret (inl message)
  | inr a => k a
  end.

Notation "x <-! m ;; k" := (pbind m (fun x => k))
  (at level 100, m at next level, right associativity).

Definition isRegularFile (path : string) : IO bool :=
  r <- Lstat path ;;
  match r with
  | inl _ => ret false
  | inr info => ret (IsRegular (Mode info))
  end.

(** Returns true if the file at the first path is newer than the file at
    the second path. Panics on error. *)
Definition isNewerThan (path1 path2 : string) : IO (string + bool) :=
  r1 <- Stat path1 ;;
  match r1 with
  | inl err => panic err
  | inr info1 =>
      r2 <- Stat path2 ;;
      match r2 with
      | inl err => panic err
      | inr info2 => ret (inr (After (ModTime info1) (ModTime info2)))
      end
  end.

Definition copyFileImpl (fromPath toPath : string) : IO (option string) :=
  r <- ReadFile fromPath ;;
  match r with
  | inl err => ret (Some err)
  | inr content =>
      r' <- WriteFile toPath content 384 ;;
      match r' with
      | inl err => ret (Some err)
      | inr _ =>
          ri <- Stat fromPath ;;
          match ri with
          | inl err => ret (Some err)
          | inr info =>
              c1 <- Chmod toPath (Mode info) ;;
              match c1 with
              | inl err => ret (Some err)
              | inr _ =>
                  c2 <- Chown toPath (Uid info) (Gid info) ;;
                  match c2 with
                  | inl err => ret (Some err)
                  | inr _ =>
                      c3 <- Chtimes toPath (ModTime info) (ModTime info) ;;
                      match c3 with
                      | inl err => ret (Some err)
                      | inr _ => ret None
                      end
                  end
              end
          end
      end
  end.

(** Panics on error. *)
Definition copyFile (fromPath toPath : string) : IO (string + unit) :=
  r <- copyFileImpl fromPath toPath ;;
  match r with
  | Some err =>
      panic ("Cannot copy " +:+ fromPath +:+ " to " +:+ toPath +:+ ": " +:+ err)
  | None => ret (inr tt)
  end.

Definition applyCopy (repoPath backupPath targetPath : string)
  : IO (string + unit) :=
  copyFile repoPath targetPath.

(** The program strategy is not written yet: it does nothing. *)
Definition applyProgram (repoPath backupPath targetPath : string)
  : IO (string + unit) :=
  ret (inr tt).

(** The strategy and the paths that belong to a repository file. *)
Record Related := mkRelated {
  applicationStrategy : string -> string -> string -> IO (string + unit);
  targetPath : string;
  backupPath : string;
  pacnewPath : string
}.

Definition related (repoPath : string) : Related :=
  let '(repoBasePath, strategy) :=
    if HasSuffix repoPath ".holoscript"
    then (TrimSuffix repoPath ".holoscript", applyProgram)
    else (repoPath, applyCopy) in
  let relPath := fst (Rel "/holo/repo" repoBasePath) in
  let target := Join "/" relPath in
  {| applicationStrategy := strategy;
     targetPath := target;
     backupPath := Join "/holo/backup" relPath;
     pacnewPath := target +:+ ".pacnew" |}.

(** Step 1: files from the repository are only installed if there is a
    regular file at the target location. *)
Definition step1 (r : Related) : IO (string + unit) :=
  isTarget <- isRegularFile (targetPath r) ;;
  if negb isTarget
  then panic (targetPath r +:+ " is not a regular file")
  else ret (inr tt).

(** Step 2: without a backup of the original file, the file at the target
    location is the original file and is backed up now. The result is
    [skipIntegrityCheck]. *)
Definition step2 (r : Related) : IO (string + bool) :=
  isBackup <- isRegularFile (backupPath r) ;;
  if negb isBackup then
    msg msgInfo ("Saving " +:+ targetPath r +:+ " in /holo/backup") ;;;
    let backupDir := Dir (backupPath r) in
    m <- MkdirAll backupDir 493 ;;
    match m with
    | inl err =>
        panic ("Cannot create directory " +:+ backupDir +:+ ": " +:+ err)
    | inr _ =>
        _ <-! copyFile (targetPath r) (backupPath r) ;;
        ret (inr true)
    end
  else ret (inr false).

(** Step 2.5: a .pacnew file next to the target is the newer version of
    the original file: it moves to the backup location. The removal can
    fail silently. *)
Definition step2_5 (r : Related) : IO (string + unit) :=
  isPacnew <- isRegularFile (pacnewPath r) ;;
  if isPacnew : bool then
    msg msgInfo ("Saving " +:+ pacnewPath r +:+ " in /holo/backup") ;;;
    _ <-! copyFile (pacnewPath r) (backupPath r) ;;
    _ <- Remove (pacnewPath r) ;;
    ret (inr tt)
  else ret (inr tt).

(** Step 3: the target is overwritten unless the user has changed it:
    [!skipIntegrityCheck && isNewerThan(targetPath, repoPath)] decides. *)
Definition step3 (repoPath : string) (r : Related)
    (skipIntegrityCheck : bool) : IO (string + unit) :=
  modified <-!
    (if negb skipIntegrityCheck
     then isNewerThan (targetPath r) repoPath
     else ret (inr false)) ;;
  if modified : bool
  then panic ("Skipping " +:+ targetPath r +:+ ": has been modified by user")
  else
    msg msgInfo ("Installing " +:+ targetPath r) ;;;
    applicationStrategy r repoPath (backupPath r) (targetPath r).

Definition walkRepoSteps (repoPath : string) (r : Related)
  : IO (string + unit) :=
  _ <-! step1 r ;;
  skipIntegrityCheck <-! step2 r ;;
  _ <-! step2_5 r ;;
  step3 repoPath r skipIntegrityCheck.

(** The part of [walkRepo] under the deferred [recover]. *)
Definition walkRepoBody (repoPath : string) : IO (string + unit) :=
  walkRepoSteps repoPath (related repoPath).

(** [walkRepo], the function [filepath.Walk] calls for every entry below
    the repository: a panic of the body is displayed and the walk goes on
    with the next file. *)
Definition walkRepo (repoPath : string) (repoInfo : FileInfo)
    (err : option string) : IO (option string) :=
  match err with
  | Some e => ret (Some e)
  | None =>
      if negb (IsRegular (Mode repoInfo)) then ret None
      else
        r <- walkRepoBody repoPath ;;
        match r with
        | inl message => msg msgError message ;;; ret None
        | inr _ => ret None
        end
  end.

(** [filepath.Walk] over the entries it finds, in its order: the walk ends
    at the first entry for which the function returns an error. *)
Fixpoint Walk (visits : list (string * FileInfo * option string))
    (walkFn : string -> FileInfo -> option string -> IO (option string))
  : IO (option string) :=
  match visits with
  | [] => ret None
  | (path, info, err) :: rest =>
      r <- walkFn path info err ;;
      match r with
      | Some e => ret (Some e)
      | None => Walk rest walkFn
      end
  end.

(** [main]: /holo/repo must be a directory; [filepath.Walk] then calls
    [walkRepo] for what it finds below it, and its result is dropped.
    [visits] is what the walk finds. *)
Definition main (visits : list (string * FileInfo * option string))
  : IO unit :=
  r <- Lstat "/holo/repo" ;;
  match r with
  | inl err => msg msgError ("Cannot open /holo/repo: " +:+ err)
  | inr repoInfo =>
      if negb (IsDir (Mode repoInfo))
      then msg msgError "Cannot open /holo/repo: not a directory!"
      else _ <- Walk visits walkRepo ;; ret tt
  end.

End HoloApply.

(* ===================================================================== *)
(** * Path shapes *)
(* ===================================================================== *)

Import HoloApply.

Fixpoint noSlash (s : string) : bool :=
  match s with
  | EmptyString => true
  | String c rest => negb (Ascii.eqb c "/") && noSlash rest
  end.

(** An element that [filepath.Clean] keeps as it is. *)
Definition isProperElem (e : string) : bool :=
  negb (String.eqb e "") && negb (String.eqb e ".")
  && negb (String.eqb e "..").

(** A clean relative path, as [filepath.Walk] builds them below its root:
    elements that are not empty, ["."] or [".."], with single separators
    between them. *)
Definition cleanRel (rel : string) : bool :=
  forallb isProperElem (splitSlash rel).

(* ===================================================================== *)
(** * Vocabulary of the statements *)
(* ===================================================================== *)

Definition isRegularNode (o : option Node) : bool :=
  match o with
  | Some n => match kind n with Regular => true | _ => false end
  | None => false
  end.

Definition isSymlinkNode (o : option Node) : bool :=
  match o with
  | Some n => match kind n with Symlink => true | _ => false end
  | None => false
  end.

(** Nothing, or something that is not a symlink, is at [p]. *)
Definition notLink (f : gmap string Node) (p : string) : Prop :=
  isSymlinkNode (f !! p) = false.

(** Nothing, or a regular file, is at [p]. *)
Definition plain (f : gmap string Node) (p : string) : Prop :=
  f !! p = None \/ isRegularNode (f !! p) = true.

(** What a copy of the regular file [n] with its metadata looks like. *)
Definition copyOf (n : Node) : Node :=
  {| kind := Regular; data := data n;
     perm := Z.land (Mode (infoOf n)) chmodBits;
     uid := uid n; gid := gid n; mtime := mtime n |}.

(** No call but a removal fails for a reason outside the file system. *)
Definition calm (e : Env) : Prop :=
  forall k c, (forall p, c <> SysRemove p) -> fault e k c = None.

(** Calls that change metadata. *)
Definition isMetadataCall (c : Syscall) : bool :=
  match c with
  | SysChmod _ _ | SysChown _ _ _ | SysChtimes _ _ _ => true
  | _ => false
  end.

(** [Time.After] as an order: [u] is strictly before [t]. *)
Definition before (u t : Time) : Prop :=
  sec u < sec t \/ (sec u = sec t /\ nsec u < nsec t).

(** Hoare triples over [IO]. *)
Definition hoare {A} (P : World -> Prop) (m : IO A)
    (Q : A -> World -> Prop) : Prop :=
  forall w, P w -> Q (fst (m w)) (snd (m w)).

(** The calls of one [copyFile] of the regular file [n] at [fromPath]. *)
Definition copyCalls (fromPath toPath : string) (n : Node) : list Syscall :=
  [SysReadFile fromPath; SysWriteFile toPath (data n) 384; SysStat fromPath;
   SysChmod toPath (Mode (infoOf n)); SysChown toPath (uid n) (gid n);
   SysChtimes toPath (mtime n) (mtime n)].

(** The panic of a failed [copyFile]. *)
Definition cannotCopy (fromPath toPath err : string) : string :=
  "Cannot copy " +:+ fromPath +:+ " to " +:+ toPath +:+ ": " +:+ err.

(** The paths of one entry do not collide. *)
Record Layout (repoPath : string) (r : Related) : Prop := mkLayout {
  lay_tb : targetPath r <> backupPath r;
  lay_tp : targetPath r <> pacnewPath r;
  lay_pb : pacnewPath r <> backupPath r;
  lay_rt : repoPath <> targetPath r;
  lay_rb : repoPath <> backupPath r;
  lay_rp : repoPath <> pacnewPath r;
  lay_db : Dir (backupPath r) <> backupPath r
}.

(** The file system once the directory [d] has been made by the call
    number [k]. *)
Definition dirMade (d : string) (k : nat) (w : World) : gmap string Node :=
  match fs w !! d with
  | Some _ => fs w
  | None => <[d := newDir (env w) (now (env w) k) 493]> (fs w)
  end.

(** A directory can be made at [d]: nothing or a directory is there. *)
Definition dirOk (f : gmap string Node) (d : string) : Prop :=
  match f !! d with
  | Some n => kind n = Directory
  | None => True
  end.

Definition savingLine (path : string) : string :=
  msgLine msgInfo ("Saving " +:+ path +:+ " in /holo/backup").

Definition installingLine (path : string) : string :=
  msgLine msgInfo ("Installing " +:+ path).

Definition skippingText (path : string) : string :=
  "Skipping " +:+ path +:+ ": has been modified by user".

Definition notRegularText (path : string) : string :=
  path +:+ " is not a regular file".

(** The target, backup and side-car paths of the relative path [rel]. *)
Definition targetOf (rel : string) : string := "/" +:+ rel.
Definition backupOf (rel : string) : string := "/holo/backup/" +:+ rel.
Definition pacnewOf (rel : string) : string := ("/" +:+ rel) +:+ ".pacnew".

(** [Entry repoPath rel]: the repository file [repoPath], as the walk below
    /holo/repo finds it, stands for the target [rel] below the root. *)
Inductive Entry : string -> string -> Prop :=
| EntryCopy (rel : string) :
    cleanRel rel = true ->
    HasSuffix ("/holo/repo/" +:+ rel) ".holoscript" = false ->
    Entry ("/holo/repo/" +:+ rel) rel
| EntryProgram (base : string) :
    cleanRel base = true ->
    Entry ("/holo/repo/" +:+ base +:+ ".holoscript") base.

Definition strategyOf (repoPath : string)
  : string -> string -> string -> IO (string + unit) :=
  if HasSuffix repoPath ".holoscript" then applyProgram else applyCopy.

Definition relatedOf (repoPath rel : string) : Related :=
  {| applicationStrategy := strategyOf repoPath;
     targetPath := targetOf rel;
     backupPath := backupOf rel;
     pacnewPath := pacnewOf rel |}.

(** The calls of the last step: the copy strategy copies the repository
    file [rn] onto the target, the program strategy does nothing. *)
Definition installCalls (repoPath rel : string) (rn : Node) : list Syscall :=
  if HasSuffix repoPath ".holoscript" then []
  else copyCalls repoPath (targetOf rel) rn.

(** The file system after the last step. *)
Definition installed (repoPath rel : string) (rn : Node)
    (f : gmap string Node) : gmap string Node :=
  if HasSuffix repoPath ".holoscript" then f
  else <[targetOf rel := copyOf rn]> f.


(** What the steps before the last one keep: the node at the target path
    [t], and nothing but a plain file or directory at the backup path
    [b]. *)
Definition kept (t b : string) (o : option Node) (W : World) : Prop :=
  fs W !! t = o /\ notLink (fs W) b.

(** What a run of the steps guarantees for the target: unless the panic
    is the one of the last copy, onto the target, the target is as it
    was. *)
Definition targetKept (repoPath t : string) (o : option Node)
    (res : string + unit) (W : World) : Prop :=
  match res with
  | inl message =>
      (forall err, message <> cannotCopy repoPath t err) -> fs W !! t = o
  | inr _ => True
  end.


(** What [ApplyFilePermissions] makes of the node [m] when it copies the
    metadata of [s]. *)
Definition withMetadataOf (s m : Node) : Node :=
  setMtime (mtime s) (setOwner (uid s) (gid s) (setPerm (Mode (infoOf s)) m)).

(** Both invariants of an entry: the node at [q] and the node at the
    target [t] stay, and the backup path holds no symlink. *)
Definition keptBoth (q t b : string) (n : Node) (o : option Node)
    (W : World) : Prop :=
  kept q b (Some n) W /\ kept t b o W.

(** The text of the panic of step 2 when the directory for the backup
    cannot be made. *)
Definition cannotCreate (dir err : string) : string :=
  "Cannot create directory " +:+ dir +:+ ": " +:+ err.

(** The calls of a run over a tracked target up to the last step. *)
Definition checkCalls (repoPath rel : string) : list Syscall :=
  [SysLstat (targetOf rel); SysLstat (backupOf rel); SysLstat (pacnewOf rel);
   SysStat (targetOf rel); SysStat repoPath].

(** The node at [x] is there and of the kind [k]. *)
Definition stays (x : string) (k : Kind) (W : World) : Prop :=
  kind <$> fs W !! x = Some k.

(** The output has grown from [o]. *)
Definition extends (o : list string) (W : World) : Prop :=
  exists ls, out W = (o ++ ls)%list.

(** The last line of the output is [line]. *)
Definition lastLine (line : string) (W : World) : Prop :=
  List.last (out W) "" = line.


(** What [ioutil.WriteFile] leaves where the path leads: a new file of
    the process, or the old file with the new content. *)
Definition written (e : Env) (t : Time) (content : string) (mode : Z)
    (o : option Node) : Node :=
  match o with
  | None => newFile e t content mode
  | Some xn => setData t content xn
  end.

(** The path a call asks the system to change, if any. *)
Definition changedPath (c : Syscall) : option string :=
  match c with
  | SysWriteFile p _ _ | SysChmod p _ | SysChown p _ _
  | SysChtimes p _ _ | SysRemove p | SysMkdirAll p _ => Some p
  | SysSymlink _ p => Some p
  | SysLstat _ | SysStat _ | SysReadFile _ | SysReadlink _ => None
  end.

(** The calls [walkRepo] may issue for the entry [r] of [repoPath]: reads
    of its four paths, writes and metadata changes at the target and the
    backup, the directory of the backup, the removal of the side-car
    artifact. *)
Definition entryCall (repoPath : string) (r : Related) (c : Syscall) : Prop :=
  match c with
  | SysLstat p => p = targetPath r \/ p = backupPath r \/ p = pacnewPath r
  | SysStat p | SysReadFile p =>
      p = repoPath \/ p = targetPath r \/ p = pacnewPath r
  | SysWriteFile p _ mode =>
      (p = targetPath r \/ p = backupPath r) /\ mode = 384
  | SysChmod p _ | SysChown p _ _ | SysChtimes p _ _ =>
      p = targetPath r \/ p = backupPath r
  | SysMkdirAll p mode => p = Dir (backupPath r) /\ mode = 493
  | SysRemove p => p = pacnewPath r
  | SysSymlink _ _ | SysReadlink _ => False
  end.

(** The calls issued since [w] are all in [ok]. *)
Definition since (w : World) (ok : Syscall -> Prop) (W : World) : Prop :=
  exists cs, calls W = (calls w ++ cs)%list /\ Forall ok cs.


(* ===================================================================== *)
(** * Sample worlds *)
(* ===================================================================== *)

(** An environment in which nothing fails: the process is root with umask
    022, and the clock advances one nanosecond per call from the second
    1000. *)
Definition quietEnv : Env :=
  {| fault := fun _ _ => None;
     now := fun k => mkTime 1000 (Z.of_nat k);
     euid := 0; egid := 0; umask := 18 |}.

(** A regular file with mode 0644 of root, modified at the second [s]. *)
Definition file (content : string) (s : Z) : Node :=
  {| kind := Regular; data := content; perm := 420; uid := 0; gid := 0;
     mtime := mkTime s 0 |}.

Definition link (dest : string) (s : Z) : Node :=
  {| kind := Symlink; data := dest; perm := 511; uid := 0; gid := 0;
     mtime := mkTime s 0 |}.

Definition world (e : Env) (files : list (string * Node)) : World :=
  {| fs := list_to_map files; calls := []; out := []; env := e |}.

Definition fooRepo : string := "/holo/repo/etc/foo.conf".
Definition fooRel : string := "etc/foo.conf".
Definition fooInfo : FileInfo := infoOf (file "B" 20).

(** The target was installed as "B" (stamped with second 20, the mtime of
    the repository file), the backup holds the original "A", and the user
    has since written "C" at second 30. *)
Definition driftWorld : World :=
  world quietEnv
    [("/etc/foo.conf", file "C" 30);
     ("/holo/repo/etc/foo.conf", file "B" 20);
     ("/holo/backup/etc/foo.conf", file "A" 10)].

(** The same, with a new default "D" left by the package manager. *)
Definition driftSidecarWorld : World :=
  world quietEnv
    [("/etc/foo.conf", file "C" 30);
     ("/etc/foo.conf.pacnew", file "D" 25);
     ("/holo/repo/etc/foo.conf", file "B" 20);
     ("/holo/backup/etc/foo.conf", file "A" 10)].

(** A target met for the first time: "A" from the package, "B" in the
    repository, no backup yet. The target is even newer than the
    repository file. *)
Definition freshWorld : World :=
  world quietEnv
    [("/etc/foo.conf", file "A" 30);
     ("/holo/repo/etc/foo.conf", file "B" 20)].


(** Somebody outside the engine rewrites the regular file at [p] at the
    second [s]. *)
Definition edited (p content : string) (s : Z) (w : World) : World :=
  {| fs := alter (setData (mkTime s 0) content) p (fs w);
     calls := calls w; out := out w; env := env w |}.

(** The user has written "C" at second 30, after the backup "A" was taken,
    and the repository file was rewritten at second 40. *)
Definition touchedRepoWorld : World :=
  world quietEnv
    [("/etc/foo.conf", file "C" 30);
     ("/holo/repo/etc/foo.conf", file "B2" 40);
     ("/holo/backup/etc/foo.conf", file "A" 10)].

(** An environment in which every removal fails with EPERM and nothing
    else fails. *)
Definition stickyEnv : Env :=
  {| fault := fun _ c => match c with
                         | SysRemove _ => Some EPERM
                         | _ => None
                         end;
     now := fun k => mkTime 1000 (Z.of_nat k);
     euid := 0; egid := 0; umask := 18 |}.


(** A symlink at the target, written long after its backup. *)
Definition linkWorld : World :=
  world quietEnv
    [("/etc/localtime", link "/usr/share/zoneinfo/UTC" 50);
     ("/holo/backup/etc/localtime", file "A" 10)].

(** A tracked target that nobody has touched since the last run: its
    mtime is the mtime of the repository file. *)
Definition cleanWorld : World :=
  world quietEnv
    [("/etc/foo.conf", file "B" 20);
     ("/holo/repo/etc/foo.conf", file "B'" 20);
     ("/holo/backup/etc/foo.conf", file "A" 10)].

(** The destination of a copy is a symlink to a file of its own. *)
Definition linkedDestWorld : World :=
  world quietEnv
    [("/holo/repo/etc/foo.conf", file "B" 20);
     ("/etc/foo.conf", link "/etc/foo.real" 5);
     ("/etc/foo.real", file "A" 10)].

(** A symlink in the repository and a regular file at its target path. *)
Definition linkSourceWorld : World :=
  world quietEnv
    [("/holo/repo/etc/localtime", link "/usr/share/zoneinfo/UTC" 20);
     ("/etc/localtime", file "old" 10)].

(** The owner of the target cannot be changed (the process is not root
    and the repository file belongs to somebody else). *)
Definition chownFailsEnv : Env :=
  {| fault := fun _ c => match c with
                         | SysChown _ _ _ => Some EPERM
                         | _ => None
                         end;
     now := fun k => mkTime 1000 (Z.of_nat k);
     euid := 1000; egid := 1000; umask := 18 |}.

(** A directory with mode 0755 of root. *)
Definition folder (s : Z) : Node :=
  {| kind := Directory; data := ""; perm := 493; uid := 0; gid := 0;
     mtime := mkTime s 0 |}.

(** A symlink in the repository, and a directory where it would go. *)
Definition linkOntoDirWorld : World :=
  world quietEnv
    [("/holo/repo/etc/localtime", link "/usr/share/zoneinfo/UTC" 20);
     ("/etc/localtime", folder 10)].

(** A target met for the first time, and a regular file where the
    directory of its backup belongs. *)
Definition blockedWorld : World :=
  world quietEnv
    [("/etc/foo.conf", file "A" 10);
     ("/holo/repo/etc/foo.conf", file "B" 20);
     ("/holo/backup/etc", file "x" 5)].

Definition scriptRepo : string := "/holo/repo/etc/foo.conf.holoscript".

(** A tracked target whose repository file is a script. *)
Definition scriptWorld : World :=
  world quietEnv
    [("/etc/foo.conf", file "A" 10);
     ("/holo/repo/etc/foo.conf.holoscript", file "#!/bin/sh" 20);
     ("/holo/backup/etc/foo.conf", file "A" 10)].

(** The repository is a symlink to a directory. *)
Definition linkedRepoWorld : World :=
  world quietEnv
    [("/holo/repo", link "/srv/holo" 5);
     ("/srv/holo", folder 5)].

(** A repository with one file, whose target the user has changed. *)
Definition repoWorld : World :=
  world quietEnv
    [("/holo/repo", folder 5);
     ("/etc/foo.conf", file "C" 30);
     ("/holo/repo/etc/foo.conf", file "B" 20);
     ("/holo/backup/etc/foo.conf", file "A" 10)].

(** What the walk finds in it. *)
Definition repoVisits : list (string * FileInfo * option string) :=
  [("/holo/repo", infoOf (folder 5), None);
   ("/holo/repo/etc", infoOf (folder 5), None);
   ("/holo/repo/etc/foo.conf", infoOf (file "B" 20), None)].


(* ===================================================================== *)
(** * Lemmas on strings and paths *)
(* ===================================================================== *)

Lemma strlen_app (a b : string) :
  String.length (a +:+ b) = (String.length a + String.length b)%nat.
Proof. induction a as [|c a IH]; simpl; congruence. Qed.

Lemma app_assoc_s (a b c : string) : (a +:+ b) +:+ c = a +:+ (b +:+ c).
Proof. induction a as [|x a IH]; simpl; congruence. Qed.

Lemma substring_all (b : string) : substring 0 (String.length b) b = b.
Proof. induction b as [|c b IH]; simpl; congruence. Qed.

Lemma substring_prefix (a b : string) :
  substring 0 (String.length a) (a +:+ b) = a.
Proof.
  induction a as [|c a IH]; simpl.
  - destruct b; reflexivity.
  - now rewrite IH.
Qed.

Lemma substring_suffix (a b : string) :
  substring (String.length a) (String.length b) (a +:+ b) = b.
Proof.
  induction a as [|c a IH]; simpl.
  - apply substring_all.
  - exact IH.
Qed.


Lemma HasSuffix_app (a suffix : string) : HasSuffix (a +:+ suffix) suffix = true.
Proof.
  unfold HasSuffix. rewrite strlen_app.
  replace (String.length a + String.length suffix - String.length suffix)%nat
    with (String.length a) by lia.
  rewrite substring_suffix, String.eqb_refl, andb_true_r.
  apply Nat.leb_le. lia.
Qed.

Lemma TrimSuffix_app (a suffix : string) : TrimSuffix (a +:+ suffix) suffix = a.
Proof.
  unfold TrimSuffix. rewrite HasSuffix_app, strlen_app.
  replace (String.length a + String.length suffix - String.length suffix)%nat
    with (String.length a) by lia.
  apply substring_prefix.
Qed.


Lemma splitSlash_cons (s : string) : exists e es, splitSlash s = e :: es.
Proof.
  induction s as [|c s [e [es IH]]]; simpl; eauto.
  destruct (Ascii.eqb c "/"); eauto. rewrite IH. simpl. eauto.
Qed.

Lemma splitSlash_app_slash (a b : string) :
  splitSlash (a +:+ String "/" b) = (splitSlash a ++ splitSlash b)%list.
Proof.
  induction a as [|c a IH]; simpl.
  - reflexivity.
  - rewrite IH. destruct (Ascii.eqb c "/"); [reflexivity|].
    destruct (splitSlash_cons a) as [e [es ->]]. reflexivity.
Qed.

Lemma joinSlash_cons (e c : string) (cs : list string) :
  joinSlash (e :: c :: cs) = e +:+ "/" +:+ joinSlash (c :: cs).
Proof. reflexivity. Qed.

Lemma joinSlash_splitSlash (s : string) : joinSlash (splitSlash s) = s.
Proof.
  induction s as [|c s IH]; simpl; [reflexivity|].
  destruct (splitSlash_cons s) as [e [es He]]. rewrite He in *.
  destruct (Ascii.eqb_spec c "/") as [->|_].
  - now rewrite joinSlash_cons, IH.
  - cbn [consHead]. destruct es as [|e' es].
    + simpl in *. congruence.
    + rewrite joinSlash_cons in *. now rewrite <- IH.
Qed.

Lemma splitSlash_noSlash (e : string) : noSlash e = true -> splitSlash e = [e].
Proof.
  induction e as [|c e IH]; simpl; [reflexivity|].
  intros [Hc He]%andb_true_iff. apply negb_true_iff in Hc.
  now rewrite Hc, IH.
Qed.

Lemma noSlash_app (a b : string) :
  noSlash (a +:+ b) = noSlash a && noSlash b.
Proof.
  induction a as [|c a IH]; simpl; [reflexivity|].
  now rewrite IH, andb_assoc.
Qed.

Lemma splitSlash_elems (s : string) : forallb noSlash (splitSlash s) = true.
Proof.
  induction s as [|c s IH]; simpl; [reflexivity|].
  destruct (Ascii.eqb c "/") eqn:Hc; simpl; [exact IH|].
  destruct (splitSlash_cons s) as [e [es He]]. rewrite He in *.
  simpl in *. now rewrite Hc.
Qed.


Lemma cleanElems_proper (rooted : bool) (es out : list string) :
  forallb isProperElem es = true ->
  cleanElems rooted out es = (rev out ++ es)%list.
Proof.
  revert out. induction es as [|e es IH]; intros out H; simpl in *.
  - now rewrite app_nil_r.
  - apply andb_true_iff in H as [He Hes].
    unfold isProperElem in He.
    apply andb_true_iff in He as [[He1 He2]%andb_true_iff He3].
    apply negb_true_iff in He1, He2, He3.
    rewrite He1, He2, He3. simpl.
    rewrite IH by assumption. simpl. now rewrite <- app_assoc.
Qed.

Lemma cleanRel_elems (rel : string) :
  cleanRel rel = true ->
  exists c cs, splitSlash rel = c :: cs
               /\ forallb isProperElem (c :: cs) = true.
Proof.
  unfold cleanRel. intros H.
  destruct (splitSlash_cons rel) as [c [cs He]]. rewrite He in H. eauto.
Qed.

Lemma cleanPath_repo (rel : string) :
  cleanRel rel = true ->
  cleanPath ("/holo/repo/" +:+ rel) = (true, "holo" :: "repo" :: splitSlash rel).
Proof.
  intros H. unfold cleanPath.
  change ("/holo/repo/" +:+ rel) with ("/holo/repo" +:+ String "/" rel).
  rewrite splitSlash_app_slash.
  change (isRooted ("/holo/repo" +:+ String "/" rel)) with true.
  change (splitSlash "/holo/repo") with [""; "holo"; "repo"].
  cbn [app]. cbn -[splitSlash isProperElem].
  now rewrite cleanElems_proper.
Qed.

Lemma Rel_repo (rel : string) :
  cleanRel rel = true ->
  Rel "/holo/repo" ("/holo/repo/" +:+ rel) = (rel, None).
Proof.
  intros H. unfold Rel. rewrite (cleanPath_repo _ H).
  change (cleanPath "/holo/repo") with (true, ["holo"; "repo"]).
  destruct (cleanRel_elems _ H) as [c [cs [He _]]].
  rewrite He. cbn -[joinSlash String.eqb]. rewrite !joinSlash_cons.
  simpl. rewrite <- (joinSlash_splitSlash rel), He. reflexivity.
Qed.

Lemma Join_root (rel : string) :
  cleanRel rel = true -> Join "/" rel = "/" +:+ rel.
Proof.
  intros H. unfold Join. cbn [String.eqb Ascii.eqb Bool.eqb].
  unfold Clean, cleanPath.
  change ("/" +:+ "/" +:+ rel) with ("/" +:+ String "/" rel).
  rewrite splitSlash_app_slash.
  change (splitSlash "/") with [""; ""].
  cbn -[splitSlash isProperElem joinSlash].
  rewrite cleanElems_proper by exact H.
  cbn [rev app]. now rewrite joinSlash_splitSlash.
Qed.

Lemma Join_backup (rel : string) :
  cleanRel rel = true -> Join "/holo/backup" rel = "/holo/backup/" +:+ rel.
Proof.
  intros H. unfold Join. cbn [String.eqb Ascii.eqb Bool.eqb].
  unfold Clean, cleanPath.
  change ("/holo/backup" +:+ "/" +:+ rel) with ("/holo/backup" +:+ String "/" rel).
  rewrite splitSlash_app_slash.
  change (splitSlash "/holo/backup") with [""; "holo"; "backup"].
  cbn -[splitSlash isProperElem joinSlash].
  rewrite cleanElems_proper by exact H.
  destruct (cleanRel_elems _ H) as [c [cs [He _]]].
  cbn [rev app]. rewrite <- (joinSlash_splitSlash rel) at 2. rewrite He.
  rewrite !joinSlash_cons. reflexivity.
Qed.

Example Clean_samples :
  map Clean ["/holo/repo/etc/foo.conf"; "/holo/repo/etc/"; "a//b/./c/..";
             "/.."; ""; "../../x"; "a/../.."]
  = ["/holo/repo/etc/foo.conf"; "/holo/repo/etc"; "a/b"; "/"; ".";
     "../../x"; ".."].
Proof. reflexivity. Qed.

Example Rel_samples :
  map (Rel "/holo/repo")
      ["/holo/repo/etc/foo.conf"; "/holo/repo/"; "/holo"; "/";
       "/holo/backup/x"; "etc"]
  = [("etc/foo.conf", None); (".", None); ("..", None); ("../..", None);
     ("../backup/x", None); ("", Some (relError "/holo/repo" "etc"))].
Proof. reflexivity. Qed.

Example Dir_samples :
  map Dir ["/holo/backup/etc/foo.conf"; "/x"; "x"; "a/b/"; ""]
  = ["/holo/backup/etc"; "/"; "."; "a/b"; "."].
Proof. reflexivity. Qed.

Example HasSuffix_samples :
  map (fun s => (HasSuffix s ".holoscript", TrimSuffix s ".holoscript"))
      ["/holo/repo/etc/foo.conf.holoscript"; "/holo/repo/etc/foo.conf";
       ".holoscript"; "holoscript"]
  = [(true, "/holo/repo/etc/foo.conf"); (false, "/holo/repo/etc/foo.conf");
     (true, ""); (false, "holoscript")].
Proof. reflexivity. Qed.

(* ===================================================================== *)
(** * Lemmas on the operating system model *)
(* ===================================================================== *)

Lemma After_before (t u : Time) : After t u = true <-> before u t.
Proof.
  unfold After, before.
  rewrite orb_true_iff, andb_true_iff, !Z.ltb_lt, Z.eqb_eq. intuition lia.
Qed.

Lemma After_irrefl (t : Time) : After t t = false.
Proof.
  apply not_true_is_false. rewrite After_before. unfold before. lia.
Qed.

Lemma After_asym (t u : Time) : After t u = true -> After u t = false.
Proof.
  intros H. apply not_true_is_false. rewrite After_before in *.
  unfold before in *. lia.
Qed.

Lemma kindBits_type (k : Kind) : Z.land (kindBits k) ModeType = kindBits k.
Proof. destruct k; reflexivity. Qed.

Lemma Mode_type (n : Node) :
  Z.land (Mode (infoOf n)) ModeType = kindBits (kind n).
Proof.
  unfold infoOf. cbn [Mode].
  rewrite Z.land_lor_distr_l, kindBits_type, <- Z.land_assoc.
  change (Z.land chmodBits ModeType) with 0.
  now rewrite Z.land_0_r, Z.lor_0_r.
Qed.

Lemma IsRegular_infoOf (n : Node) :
  IsRegular (Mode (infoOf n)) = isRegularNode (Some n).
Proof.
  unfold IsRegular, isRegularNode. rewrite Mode_type. now destruct (kind n).
Qed.

Lemma IsSymlink_infoOf (n : Node) :
  Fileio.IsFileInfoASymbolicLink (infoOf n) = isSymlinkNode (Some n).
Proof.
  unfold Fileio.IsFileInfoASymbolicLink, isSymlinkNode. rewrite Mode_type.
  now destruct (kind n).
Qed.

Lemma Mode_regular (n : Node) :
  kind n = Regular -> Mode (infoOf n) = Z.land (perm n) chmodBits.
Proof. intros H. unfold infoOf. cbn [Mode]. now rewrite H. Qed.


Lemma resolve_eq (fuel : nat) (f : gmap string Node) (p : string) :
  resolve fuel f p =
  match f !! p with
  | Some n =>
      match kind n with
      | Symlink =>
          match fuel with
          | O => inl ELOOP
          | S fuel' => resolve fuel' f (linkDest p (data n))
          end
      | _ => inr p
      end
  | None => inr p
  end.
Proof. destruct fuel; reflexivity. Qed.

Lemma follow_notLink (f : gmap string Node) (p : string) :
  notLink f p -> follow f p = inr p.
Proof.
  unfold notLink, follow, isSymlinkNode. rewrite resolve_eq.
  destruct (f !! p) as [n|]; [|reflexivity].
  destruct (kind n); congruence.
Qed.

Lemma plain_notLink (f : gmap string Node) (p : string) :
  plain f p -> notLink f p.
Proof.
  unfold plain, notLink, isRegularNode, isSymlinkNode.
  intros [->| H]; [reflexivity|].
  destruct (f !! p) as [n|]; [|reflexivity]. now destruct (kind n).
Qed.

Lemma regular_notLink (f : gmap string Node) (p : string) :
  isRegularNode (f !! p) = true -> notLink f p.
Proof. intros H. apply plain_notLink. now right. Qed.

(** ** The monad *)

Lemma bind_run {A B} (m : IO A) (k : A -> IO B) (w w' : World) (a : A) :
  m w = (a, w') -> bind m k w = k a w'.
Proof. intros H. unfold bind. now rewrite H. Qed.

Lemma hoare_ret {A} (P : World -> Prop) (Q : A -> World -> Prop) (a : A) :
  (forall w, P w -> Q a w) -> hoare P (ret a) Q.
Proof. intros H w Hw. now apply H. Qed.

Lemma hoare_bind {A B} (P : World -> Prop) (R : A -> World -> Prop)
    (Q : B -> World -> Prop) (m : IO A) (k : A -> IO B) :
  hoare P m R -> (forall a, hoare (R a) (k a) Q) -> hoare P (bind m k) Q.
Proof.
  intros Hm Hk w Hw. unfold bind. specialize (Hm w Hw).
  destruct (m w) as [a w1]. now apply Hk.
Qed.

Lemma hoare_weaken {A} (P P' : World -> Prop) (Q Q' : A -> World -> Prop)
    (m : IO A) :
  hoare P' m Q' -> (forall w, P w -> P' w) ->
  (forall a w, Q' a w -> Q a w) -> hoare P m Q.
Proof. intros H HP HQ w Hw. apply HQ, H, HP, Hw. Qed.

(** ** The calls, whatever fails *)

Lemma syscall_cases {A} (c : Syscall) (op path : string)
    (body : Env -> Time -> gmap string Node -> Errno + (A * gmap string Node))
    (w : World) :
  (exists e, syscall c op path body w = (inl (PathError op path e), tick c w)
             /\ (fault (env w) (clock w) c = Some e
                 \/ body (env w) (now (env w) (clock w)) (fs w) = inl e))
  \/ (exists a f',
         fault (env w) (clock w) c = None
         /\ body (env w) (now (env w) (clock w)) (fs w) = inr (a, f')
         /\ syscall c op path body w = (inr a, tick c (setFs f' w))).
Proof.
  unfold syscall. destruct (fault (env w) (clock w) c) as [e|] eqn:Hf.
  - left. eauto.
  - destruct (body (env w) (now (env w) (clock w)) (fs w)) as [e|[a f']] eqn:Hb.
    + left. eauto.
    + right. eauto 6.
Qed.

Lemma Lstat_cases (p : string) (w : World) :
  (exists e, Lstat p w = (inl e, tick (SysLstat p) w))
  \/ (exists n, fs w !! p = Some n
                /\ Lstat p w = (inr (infoOf n), tick (SysLstat p) w)).
Proof.
  destruct (syscall_cases (SysLstat p) "lstat" p (fun _ _ f =>
    match f !! p with
    | Some n => inr (infoOf n, f)
    | None => inl ENOENT
    end) w) as [[e [H _]]|[a [f' [_ [Hb H]]]]].
  - left. eauto.
  - right. destruct (fs w !! p) as [n|] eqn:Hn; [|discriminate].
    injection Hb as <- <-. exists n. split; [reflexivity|].
    unfold Lstat. rewrite H. now destruct w.
Qed.

Lemma Stat_cases (p : string) (w : World) :
  (exists e, Stat p w = (inl e, tick (SysStat p) w))
  \/ (exists q n, follow (fs w) p = inr q /\ fs w !! q = Some n
                  /\ Stat p w = (inr (infoOf n), tick (SysStat p) w)).
Proof.
  destruct (syscall_cases (SysStat p) "stat" p (fun _ _ f =>
    match follow f p with
    | inl e => inl e
    | inr q =>
        match f !! q with
        | Some n => inr (infoOf n, f)
        | None => inl ENOENT
        end
    end) w) as [[e [H _]]|[a [f' [_ [Hb H]]]]].
  - left. eauto.
  - right. destruct (follow (fs w) p) as [e|q] eqn:Hq; [discriminate|].
    destruct (fs w !! q) as [n|] eqn:Hn; [|discriminate].
    injection Hb as <- <-. exists q, n.
    split; [first [assumption|reflexivity]|].
    split; [first [assumption|reflexivity]|].
    unfold Stat. rewrite H. now destruct w.
Qed.

Lemma ReadFile_cases (p : string) (w : World) :
  (exists e, ReadFile p w = (inl e, tick (SysReadFile p) w))
  \/ (exists q n, follow (fs w) p = inr q /\ fs w !! q = Some n
                  /\ ReadFile p w = (inr (data n), tick (SysReadFile p) w)).
Proof.
  destruct (syscall_cases (SysReadFile p) "open" p (fun _ _ f =>
    match follow f p with
    | inl e => inl e
    | inr q =>
        match f !! q with
        | Some n =>
            match kind n with
            | Directory => inl EISDIR
            | _ => inr (data n, f)
            end
        | None => inl ENOENT
        end
    end) w) as [[e [H _]]|[a [f' [_ [Hb H]]]]].
  - left. eauto.
  - right. destruct (follow (fs w) p) as [e|q] eqn:Hq; [discriminate|].
    destruct (fs w !! q) as [n|] eqn:Hn; [|discriminate].
    exists q, n.
    split; [first [assumption|reflexivity]|].
    split; [first [assumption|reflexivity]|].
    unfold ReadFile. rewrite H.
    destruct (kind n); try discriminate; injection Hb as <- <-;
      now destruct w.
Qed.

Lemma setFs_id (c : Syscall) (w : World) : tick c (setFs (fs w) w) = tick c w.
Proof. now destruct w. Qed.

Lemma WriteFile_cases (p content : string) (m : Z) (w : World) :
  (exists e, WriteFile p content m w
             = (inl e, tick (SysWriteFile p content m) w))
  \/ (exists q f',
         follow (fs w) p = inr q
         /\ WriteFile p content m w
            = (inr tt, tick (SysWriteFile p content m) (setFs f' w))
         /\ ((fs w !! q = None
              /\ f' = <[q := newFile (env w) (now (env w) (clock w)) content m]>
                        (fs w))
             \/ (exists n, fs w !! q = Some n /\ kind n = Regular
                   /\ f' = <[q := setData (now (env w) (clock w)) content n]>
                             (fs w))
             \/ (exists n, fs w !! q = Some n /\ kind n <> Regular
                   /\ f' = fs w))).
Proof.
  unfold WriteFile.
  match goal with |- context [syscall ?c ?op ?pa ?b w] =>
    destruct (syscall_cases c op pa b w) as [[e [H _]]|[a [f' [_ [Hb H]]]]]
  end.
  - left. eauto.
  - right. cbv beta in Hb.
    destruct (follow (fs w) p) as [e|q] eqn:Hq; [discriminate|].
    exists q, f'. split; [reflexivity|]. destruct a. split; [exact H|].
    destruct (fs w !! q) as [n|] eqn:Hn.
    + destruct (kind n) eqn:Hk; try discriminate; injection Hb as <-;
        first [ right; left; now eauto
              | right; right; exists n; repeat split; congruence ].
    + injection Hb as <-. now left.
Qed.

Lemma update_cases (c : Syscall) (op p : string) (g : Node -> Node)
    (w : World) :
  (exists e, syscall c op p (fun _ _ => updateNode g p) w
             = (inl e, tick c w))
  \/ (exists q n,
         follow (fs w) p = inr q /\ fs w !! q = Some n
         /\ syscall c op p (fun _ _ => updateNode g p) w
            = (inr tt, tick c (setFs (<[q := g n]> (fs w)) w))).
Proof.
  destruct (syscall_cases c op p (fun _ _ => updateNode g p) w)
    as [[e [H _]]|[a [f' [_ [Hb H]]]]].
  - left. eauto.
  - right. unfold updateNode in Hb.
    destruct (follow (fs w) p) as [e|q] eqn:Hq; [discriminate|].
    destruct (fs w !! q) as [n|] eqn:Hn; [|discriminate].
    injection Hb as <- <-. exists q, n. now rewrite H.
Qed.

Lemma Remove_cases (p : string) (w : World) :
  (exists e, Remove p w = (inl e, tick (SysRemove p) w))
  \/ (exists n, fs w !! p = Some n
                /\ Remove p w
                   = (inr tt, tick (SysRemove p) (setFs (delete p (fs w)) w))).
Proof.
  unfold Remove.
  match goal with |- context [syscall ?c ?op ?pa ?b w] =>
    destruct (syscall_cases c op pa b w) as [[e [H _]]|[a [f' [_ [Hb H]]]]]
  end.
  - left. eauto.
  - right. cbv beta in Hb. destruct (fs w !! p) as [n|] eqn:Hn; [|discriminate].
    exists n. split; [reflexivity|]. destruct a. rewrite H.
    destruct (kind n); try (injection Hb as <-; reflexivity).
    destruct (hasEntries (fs w) p); [discriminate|].
    injection Hb as <-; reflexivity.
Qed.

Lemma MkSymlink_cases (old new : string) (w : World) :
  (exists e, MkSymlink old new w = (inl e, tick (SysSymlink old new) w))
  \/ (fs w !! new = None
      /\ MkSymlink old new w
         = (inr tt,
            tick (SysSymlink old new)
              (setFs (<[new := newLink (env w) (now (env w) (clock w)) old]>
                        (fs w)) w))).
Proof.
  unfold MkSymlink.
  match goal with |- context [syscall ?c ?op ?pa ?b w] =>
    destruct (syscall_cases c op pa b w) as [[e [H _]]|[a [f' [_ [Hb H]]]]]
  end.
  - left. eauto.
  - right. cbv beta in Hb. destruct (fs w !! new) as [n|] eqn:Hn; [discriminate|].
    injection Hb as <- <-. split; [reflexivity|]. exact H.
Qed.

Lemma Readlink_cases (p : string) (w : World) :
  (exists e, Readlink p w = (inl e, tick (SysReadlink p) w))
  \/ (exists n, fs w !! p = Some n /\ kind n = Symlink
                /\ Readlink p w = (inr (data n), tick (SysReadlink p) w)).
Proof.
  unfold Readlink.
  match goal with |- context [syscall ?c ?op ?pa ?b w] =>
    destruct (syscall_cases c op pa b w) as [[e [H _]]|[a [f' [_ [Hb H]]]]]
  end.
  - left. eauto.
  - right. cbv beta in Hb. destruct (fs w !! p) as [n|] eqn:Hn; [|discriminate].
    exists n. destruct (kind n) eqn:Hk; try discriminate.
    injection Hb as <- <-. rewrite H, setFs_id. auto.
Qed.

Lemma MkdirAll_cases (p : string) (m : Z) (w : World) :
  (exists r, MkdirAll p m w = (r, tick (SysMkdirAll p m) w))
  \/ (exists q, fs w !! q = None
                /\ MkdirAll p m w
                   = (inr tt,
                      tick (SysMkdirAll p m)
                        (setFs (<[q := newDir (env w) (now (env w) (clock w)) m]>
                                  (fs w)) w))).
Proof.
  unfold MkdirAll.
  match goal with |- context [syscall ?c ?op ?pa ?b w] =>
    destruct (syscall_cases c op pa b w) as [[e [H _]]|[a [f' [_ [Hb H]]]]]
  end.
  - left. eauto.
  - cbv beta in Hb. destruct (follow (fs w) p) as [e|q] eqn:Hq; [discriminate|].
    destruct (fs w !! q) as [n|] eqn:Hn.
    + left. destruct (kind n); try discriminate.
      injection Hb as <- <-. rewrite H, setFs_id. eauto.
    + right. injection Hb as <- <-. eauto.
Qed.

(** ** The calls in a calm environment *)

Lemma syscall_run {A} (c : Syscall) (op path : string)
    (body : Env -> Time -> gmap string Node -> Errno + (A * gmap string Node))
    (w : World) (a : A) (f' : gmap string Node) :
  fault (env w) (clock w) c = None ->
  body (env w) (now (env w) (clock w)) (fs w) = inr (a, f') ->
  syscall c op path body w = (inr a, tick c (setFs f' w)).
Proof. intros Hf Hb. unfold syscall. now rewrite Hf, Hb. Qed.

Lemma Lstat_run (p : string) (w : World) :
  calm (env w) ->
  Lstat p w
  = (match fs w !! p with
     | Some n => inr (infoOf n)
     | None => inl (PathError "lstat" p ENOENT)
     end, tick (SysLstat p) w).
Proof.
  intros Hc. unfold Lstat, syscall. rewrite Hc by discriminate.
  destruct (fs w !! p); [now rewrite setFs_id | reflexivity].
Qed.

Lemma isRegularFile_run (p : string) (w : World) :
  calm (env w) ->
  isRegularFile p w = (isRegularNode (fs w !! p), tick (SysLstat p) w).
Proof.
  intros Hc. unfold isRegularFile.
  erewrite bind_run by (now apply Lstat_run).
  destruct (fs w !! p) as [n|]; [|reflexivity].
  unfold ret. now rewrite IsRegular_infoOf.
Qed.

Lemma Stat_run (p : string) (w : World) (n : Node) :
  calm (env w) -> fs w !! p = Some n -> notLink (fs w) p ->
  Stat p w = (inr (infoOf n), tick (SysStat p) w).
Proof.
  intros Hc Hn Hl. unfold Stat.
  erewrite syscall_run; [now rewrite setFs_id | now apply Hc |].
  cbv beta. now rewrite (follow_notLink _ _ Hl), Hn.
Qed.

Lemma ReadFile_run (p : string) (w : World) (n : Node) :
  calm (env w) -> fs w !! p = Some n -> kind n = Regular ->
  ReadFile p w = (inr (data n), tick (SysReadFile p) w).
Proof.
  intros Hc Hn Hk. unfold ReadFile.
  erewrite syscall_run; [now rewrite setFs_id | now apply Hc |].
  cbv beta. rewrite follow_notLink, Hn, Hk; [reflexivity|].
  apply regular_notLink. unfold isRegularNode. now rewrite Hn, Hk.
Qed.

(** Writing where nothing or a regular file is leaves a regular file with
    the content written. *)
Lemma WriteFile_run (p content : string) (m : Z) (w : World) :
  calm (env w) -> plain (fs w) p ->
  exists n', kind n' = Regular /\ data n' = content
    /\ WriteFile p content m w
       = (inr tt, tick (SysWriteFile p content m)
                    (setFs (<[p := n']> (fs w)) w)).
Proof.
  intros Hc Hp. pose proof (follow_notLink _ _ (plain_notLink _ _ Hp)) as Hq.
  destruct (fs w !! p) as [n|] eqn:Hn.
  - destruct Hp as [Hp|Hp]; [congruence|].
    unfold isRegularNode in Hp. rewrite Hn in Hp.
    destruct (kind n) eqn:Hk; try discriminate.
    exists (setData (now (env w) (clock w)) content n).
    repeat split; [exact Hk|]. unfold WriteFile.
    erewrite syscall_run; [reflexivity | now apply Hc |].
    cbv beta. now rewrite Hq, Hn, Hk.
  - exists (newFile (env w) (now (env w) (clock w)) content m).
    repeat split. unfold WriteFile.
    erewrite syscall_run; [reflexivity | now apply Hc |].
    cbv beta. now rewrite Hq, Hn.
Qed.

Lemma update_run (c : Syscall) (op p : string) (g : Node -> Node)
    (w : World) (n : Node) :
  fault (env w) (clock w) c = None ->
  fs w !! p = Some n -> notLink (fs w) p ->
  syscall c op p (fun _ _ => updateNode g p) w
  = (inr tt, tick c (setFs (<[p := g n]> (fs w)) w)).
Proof.
  intros Hf Hn Hl. erewrite syscall_run; [reflexivity | exact Hf |].
  unfold updateNode. now rewrite (follow_notLink _ _ Hl), Hn.
Qed.

Lemma Remove_run (p : string) (w : World) (n : Node) :
  fault (env w) (clock w) (SysRemove p) = None ->
  fs w !! p = Some n -> kind n = Regular ->
  Remove p w = (inr tt, tick (SysRemove p) (setFs (delete p (fs w)) w)).
Proof.
  intros Hf Hn Hk. unfold Remove.
  erewrite syscall_run; [reflexivity | exact Hf |].
  cbv beta. now rewrite Hn, Hk.
Qed.

Lemma Remove_fault (p : string) (w : World) (e : Errno) :
  fault (env w) (clock w) (SysRemove p) = Some e ->
  Remove p w = (inl (PathError "remove" p e), tick (SysRemove p) w).
Proof. intros Hf. unfold Remove, syscall. now rewrite Hf. Qed.

Lemma MkdirAll_run_new (p : string) (m : Z) (w : World) :
  calm (env w) -> fs w !! p = None ->
  MkdirAll p m w
  = (inr tt, tick (SysMkdirAll p m)
               (setFs (<[p := newDir (env w) (now (env w) (clock w)) m]> (fs w)) w)).
Proof.
  intros Hc Hn. unfold MkdirAll.
  erewrite syscall_run; [reflexivity | now apply Hc |].
  cbv beta. rewrite follow_notLink, Hn; [reflexivity|].
  unfold notLink. now rewrite Hn.
Qed.

Lemma MkdirAll_run_old (p : string) (m : Z) (w : World) (n : Node) :
  calm (env w) -> fs w !! p = Some n -> kind n = Directory ->
  MkdirAll p m w = (inr tt, tick (SysMkdirAll p m) w).
Proof.
  intros Hc Hn Hk. unfold MkdirAll.
  erewrite syscall_run; [now rewrite setFs_id | now apply Hc |].
  cbv beta. rewrite follow_notLink, Hn, Hk; [reflexivity|].
  unfold notLink, isSymlinkNode. now rewrite Hn, Hk.
Qed.

(* ===================================================================== *)
(** * [copyFile] of the early tool *)
(* ===================================================================== *)

Ltac wsimpl := cbn [fs tick setFs print env calls out clock fst snd].

(** One step of a run: reduce what the last step left, then rewrite the
    next call with its equation. *)
Ltac norm := cbv beta iota; unfold tick, setFs, print; wsimpl.

Lemma copyOf_build (n m : Node) :
  kind m = Regular -> data m = data n ->
  setMtime (mtime n)
    (setOwner (uid n) (gid n) (setPerm (Mode (infoOf n)) m))
  = copyOf n.
Proof.
  intros Hk Hd. unfold setMtime, setOwner, setPerm, copyOf.
  cbn [kind data perm uid gid mtime]. now rewrite Hk, Hd.
Qed.

Lemma notLink_insert (f : gmap string Node) (p q : string) (n : Node) :
  kind n <> Symlink -> notLink f q -> notLink (<[p := n]> f) q.
Proof.
  intros Hk Hq. unfold notLink in *.
  destruct (decide (p = q)) as [->|Hne].
  - rewrite lookup_insert_eq. unfold isSymlinkNode. now destruct (kind n).
  - now rewrite lookup_insert_ne.
Qed.

Lemma notLink_at_insert (f : gmap string Node) (p : string) (n : Node) :
  kind n <> Symlink -> notLink (<[p := n]> f) p.
Proof.
  intros Hk. unfold notLink. rewrite lookup_insert_eq.
  unfold isSymlinkNode. now destruct (kind n).
Qed.

Lemma copyFileImpl_run (fromPath toPath : string) (w : World) (n : Node) :
  calm (env w) -> fs w !! fromPath = Some n -> kind n = Regular ->
  plain (fs w) toPath -> fromPath <> toPath ->
  HoloApply.copyFileImpl fromPath toPath w
  = (None, {| fs := <[toPath := copyOf n]> (fs w);
              calls := calls w ++ copyCalls fromPath toPath n;
              out := out w; env := env w |}).
Proof.
  intros Hc Hn Hk Hp Hne. unfold HoloApply.copyFileImpl.
  erewrite bind_run by (apply ReadFile_run; eassumption).
  destruct (WriteFile_run toPath (data n) 384 (tick (SysReadFile fromPath) w)
              Hc Hp) as [m [Hmk [Hmd Hw]]].
  norm. erewrite bind_run by exact Hw.
  norm. erewrite bind_run.
  2:{ apply Stat_run with (n := n); wsimpl.
      - exact Hc.
      - now rewrite lookup_insert_ne.
      - unfold notLink. rewrite lookup_insert_ne by congruence.
        unfold isSymlinkNode. now rewrite Hn, Hk. }
  unfold Chmod, Chown, Chtimes.
  norm. erewrite bind_run.
  2:{ apply update_run; wsimpl.
      - now apply Hc.
      - apply lookup_insert_eq.
      - apply notLink_at_insert. congruence. }
  norm. erewrite bind_run.
  2:{ apply update_run; wsimpl.
      - now apply Hc.
      - apply lookup_insert_eq.
      - apply notLink_at_insert. cbn. congruence. }
  norm. erewrite bind_run.
  2:{ apply update_run; wsimpl.
      - now apply Hc.
      - apply lookup_insert_eq.
      - apply notLink_at_insert. cbn. congruence. }
  norm. unfold ret. apply f_equal. f_equal.
  - change (Uid (infoOf n)) with (uid n). change (Gid (infoOf n)) with (gid n).
    change (ModTime (infoOf n)) with (mtime n).
    now rewrite !insert_insert_eq, (copyOf_build n m Hmk Hmd).
  - unfold copyCalls. rewrite <- !app_assoc. reflexivity.
Qed.

Lemma copyFile_run (fromPath toPath : string) (w : World) (n : Node) :
  calm (env w) -> fs w !! fromPath = Some n -> kind n = Regular ->
  plain (fs w) toPath -> fromPath <> toPath ->
  HoloApply.copyFile fromPath toPath w
  = (inr tt, {| fs := <[toPath := copyOf n]> (fs w);
                calls := calls w ++ copyCalls fromPath toPath n;
                out := out w; env := env w |}).
Proof.
  intros. unfold HoloApply.copyFile.
  erewrite bind_run by (eapply copyFileImpl_run; eassumption).
  reflexivity.
Qed.

(** A failed [copyFile] panics with the message that names both paths. *)
Lemma copyFile_panic (fromPath toPath message : string) (w : World) :
  fst (HoloApply.copyFile fromPath toPath w) = inl message ->
  exists err, message = cannotCopy fromPath toPath err.
Proof.
  unfold HoloApply.copyFile, bind.
  destruct (HoloApply.copyFileImpl fromPath toPath w) as [[err|] w'];
    cbn; intros H; [|discriminate].
  injection H as <-. now exists err.
Qed.

(* ===================================================================== *)
(** * The paths of a repository file *)
(* ===================================================================== *)

Lemma splitSlash_joinSlash (e : string) (es : list string) :
  forallb noSlash (e :: es) = true ->
  splitSlash (joinSlash (e :: es)) = e :: es.
Proof.
  revert e. induction es as [|e' es IH]; intros e H.
  - simpl in *. apply splitSlash_noSlash. now rewrite andb_true_r in H.
  - rewrite joinSlash_cons.
    change (e +:+ "/" +:+ joinSlash (e' :: es))
      with (e +:+ String "/" (joinSlash (e' :: es))).
    rewrite splitSlash_app_slash.
    cbn [forallb] in H. apply andb_true_iff in H as [He H].
    rewrite (splitSlash_noSlash _ He), IH by exact H. reflexivity.
Qed.

Lemma cleanElems_app (rooted : bool) (es rest out : list string) :
  forallb isProperElem es = true ->
  cleanElems rooted out (es ++ rest) = cleanElems rooted (rev es ++ out) rest.
Proof.
  revert out. induction es as [|e es IH]; intros out H; [reflexivity|].
  cbn [forallb] in H. apply andb_true_iff in H as [He Hes].
  unfold isProperElem in He.
  apply andb_true_iff in He as [[He1 He2]%andb_true_iff He3].
  apply negb_true_iff in He1, He2, He3.
  cbn [app cleanElems]. rewrite He1, He2, He3. cbn [orb].
  rewrite IH by exact Hes. cbn [rev]. now rewrite <- app_assoc.
Qed.

Lemma joinSlash_snoc (e : string) (es : list string) (l : string) :
  joinSlash ((e :: es) ++ [l]) = joinSlash (e :: es) +:+ "/" +:+ l.
Proof.
  revert e. induction es as [|e' es IH]; intros e; [reflexivity|].
  change ((e :: e' :: es) ++ [l])%list with (e :: ((e' :: es) ++ [l]))%list.
  cbn [app]. rewrite !joinSlash_cons.
  change (e' :: (es ++ [l]))%list with ((e' :: es) ++ [l])%list.
  rewrite IH. now rewrite !app_assoc_s.
Qed.

Lemma uptoLastSlash_noSlash (l : string) :
  noSlash l = true -> uptoLastSlash l = "".
Proof.
  induction l as [|c l IH]; [reflexivity|]. simpl.
  intros [Hc Hl]%andb_true_iff. apply negb_true_iff in Hc.
  now rewrite IH, Hc.
Qed.

Lemma uptoLastSlash_app (a l : string) :
  noSlash l = true -> uptoLastSlash (a +:+ String "/" l) = a +:+ "/".
Proof.
  intros Hl. induction a as [|c a IH].
  - simpl. now rewrite uptoLastSlash_noSlash.
  - cbn [String.append uptoLastSlash]. rewrite IH. now destruct a.
Qed.

(** The directory of a rooted path of proper elements. *)
Lemma Dir_rooted (e : string) (es : list string) (l : string) :
  forallb isProperElem (e :: es) = true ->
  forallb noSlash (e :: es) = true -> noSlash l = true ->
  Dir ("/" +:+ joinSlash ((e :: es) ++ [l])) = "/" +:+ joinSlash (e :: es).
Proof.
  intros Hp Hs Hl. unfold Dir. rewrite joinSlash_snoc.
  change ("/" +:+ joinSlash (e :: es) +:+ "/" +:+ l)
    with (("/" +:+ joinSlash (e :: es)) +:+ String "/" l).
  rewrite uptoLastSlash_app by exact Hl.
  unfold Clean, cleanPath.
  change (("/" +:+ joinSlash (e :: es)) +:+ "/")
    with ("" +:+ String "/" (joinSlash (e :: es) +:+ String "/" "")).
  rewrite splitSlash_app_slash, splitSlash_app_slash.
  rewrite splitSlash_joinSlash by exact Hs.
  change (isRooted ("" +:+ String "/" (joinSlash (e :: es) +:+ String "/" "")))
    with true.
  change (splitSlash "") with [""].
  change ([""] ++ (e :: es) ++ [""])%list with ("" :: ((e :: es) ++ [""]))%list.
  cbn [cleanElems String.eqb orb].
  rewrite cleanElems_app by exact Hp.
  cbn [cleanElems String.eqb orb].
  now rewrite app_nil_r, rev_involutive.
Qed.

Lemma neq_length (a b : string) : String.length a <> String.length b -> a <> b.
Proof. congruence. Qed.

Lemma forallb_removelast {A} (P : A -> bool) (l : list A) :
  forallb P l = true -> forallb P (List.removelast l) = true.
Proof.
  induction l as [|x l IH]; [reflexivity|]. cbn [forallb].
  intros [Hx Hl]%andb_true_iff. destruct l as [|y l]; [reflexivity|].
  cbn [List.removelast forallb] in *. rewrite Hx. now apply IH.
Qed.

Lemma forallb_last {A} (P : A -> bool) (l : list A) (d : A) :
  l <> [] -> forallb P l = true -> P (List.last l d) = true.
Proof.
  induction l as [|x l IH]; [congruence|]. cbn [forallb].
  intros _ [Hx Hl]%andb_true_iff. destruct l as [|y l]; [exact Hx|].
  apply IH; [discriminate | exact Hl].
Qed.

(** The backup directory of a clean relative path is a proper prefix of
    the backup path. *)
Lemma Dir_backup_shorter (rel : string) :
  cleanRel rel = true ->
  (String.length (Dir ("/holo/backup/" +:+ rel))
   < String.length ("/holo/backup/" +:+ rel))%nat.
Proof.
  intros H. pose proof (splitSlash_elems rel) as Hs.
  unfold cleanRel in H.
  destruct (splitSlash_cons rel) as [c [cs He]].
  assert (Hne : splitSlash rel <> []) by (rewrite He; discriminate).
  pose proof (app_removelast_last "" Hne) as Hsplit.
  set (init := List.removelast (splitSlash rel)) in *.
  set (l := List.last (splitSlash rel) "") in *.
  assert (Hinit : forallb isProperElem init = true)
    by now apply forallb_removelast.
  assert (Hinit' : forallb noSlash init = true)
    by now apply forallb_removelast.
  assert (Hl : noSlash l = true) by now apply forallb_last.
  rewrite <- (joinSlash_splitSlash rel), Hsplit.
  change ("/holo/backup/" +:+ joinSlash (init ++ [l]))
    with ("/" +:+ "holo" +:+ "/" +:+ "backup" +:+ "/" +:+ joinSlash (init ++ [l])).
  assert (Hj : "holo" +:+ "/" +:+ "backup" +:+ "/" +:+ joinSlash (init ++ [l])
               = joinSlash (("holo" :: "backup" :: init) ++ [l])).
  { cbn [app]. destruct init; reflexivity. }
  rewrite Hj, Dir_rooted.
  - rewrite joinSlash_snoc. cbn [String.append String.length].
    rewrite !strlen_app. cbn [String.length]. lia.
  - cbn [forallb]. now rewrite Hinit.
  - cbn [forallb]. now rewrite Hinit'.
  - exact Hl.
Qed.

Lemma Dir_backup_neq (rel : string) :
  cleanRel rel = true ->
  Dir ("/holo/backup/" +:+ rel) <> "/holo/backup/" +:+ rel.
Proof. intros H. apply neq_length. pose proof (Dir_backup_shorter rel H). lia. Qed.

(** ** What [related] computes for the files of the repository *)

Lemma related_copy (rel : string) :
  cleanRel rel = true ->
  HasSuffix ("/holo/repo/" +:+ rel) ".holoscript" = false ->
  related ("/holo/repo/" +:+ rel)
  = {| applicationStrategy := applyCopy;
       targetPath := "/" +:+ rel;
       backupPath := "/holo/backup/" +:+ rel;
       pacnewPath := ("/" +:+ rel) +:+ ".pacnew" |}.
Proof.
  intros H Hs. unfold related. rewrite Hs, (Rel_repo _ H).
  cbn [fst]. now rewrite (Join_root _ H), (Join_backup _ H).
Qed.

Lemma related_program (base : string) :
  cleanRel base = true ->
  related ("/holo/repo/" +:+ base +:+ ".holoscript")
  = {| applicationStrategy := applyProgram;
       targetPath := "/" +:+ base;
       backupPath := "/holo/backup/" +:+ base;
       pacnewPath := ("/" +:+ base) +:+ ".pacnew" |}.
Proof.
  intros H. unfold related.
  rewrite <- (app_assoc_s "/holo/repo/" base ".holoscript").
  rewrite HasSuffix_app, TrimSuffix_app, (Rel_repo _ H).
  cbn [fst]. now rewrite (Join_root _ H), (Join_backup _ H).
Qed.

(** ** A repository file named after the suffix alone *)









(* ===================================================================== *)
(** * The steps of [walkRepo] in a calm environment *)
(* ===================================================================== *)

Lemma pbind_run {A B} (m : IO (string + A)) (k : A -> IO (string + B))
    (w w' : World) (a : A) :
  m w = (inr a, w') -> pbind m k w = k a w'.
Proof. intros H. unfold pbind. now erewrite bind_run by exact H. Qed.

Lemma pbind_panic {A B} (m : IO (string + A)) (k : A -> IO (string + B))
    (w w' : World) (message : string) :
  m w = (inl message, w') -> pbind m k w = (inl message, w').
Proof. intros H. unfold pbind. now erewrite bind_run by exact H. Qed.

Lemma layout_copy (rel : string) :
  cleanRel rel = true ->
  Layout ("/holo/repo/" +:+ rel)
    {| applicationStrategy := applyCopy;
       targetPath := "/" +:+ rel;
       backupPath := "/holo/backup/" +:+ rel;
       pacnewPath := ("/" +:+ rel) +:+ ".pacnew" |}.
Proof.
  intros H. split; cbn [targetPath backupPath pacnewPath];
    try (apply neq_length; cbn [String.append String.length];
         rewrite ?strlen_app; cbn [String.length]; lia).
  now apply Dir_backup_neq.
Qed.

Lemma layout_program (base : string) :
  cleanRel base = true ->
  Layout ("/holo/repo/" +:+ base +:+ ".holoscript")
    {| applicationStrategy := applyProgram;
       targetPath := "/" +:+ base;
       backupPath := "/holo/backup/" +:+ base;
       pacnewPath := ("/" +:+ base) +:+ ".pacnew" |}.
Proof.
  intros H. split; cbn [targetPath backupPath pacnewPath];
    try (apply neq_length; cbn [String.append String.length];
         rewrite ?strlen_app; cbn [String.length]; lia).
  now apply Dir_backup_neq.
Qed.

Section Steps.

Context (repoPath : string) (r : Related).
Context (L : Layout repoPath r).

Lemma step1_run (w : World) :
  calm (env w) -> isRegularNode (fs w !! targetPath r) = true ->
  step1 r w = (inr tt, tick (SysLstat (targetPath r)) w).
Proof.
  intros Hc Ht. unfold step1.
  erewrite bind_run by (now apply isRegularFile_run). now rewrite Ht.
Qed.

Lemma step1_fail (w : World) :
  calm (env w) -> isRegularNode (fs w !! targetPath r) = false ->
  step1 r w = (inl (notRegularText (targetPath r)),
               tick (SysLstat (targetPath r)) w).
Proof.
  intros Hc Ht. unfold step1.
  erewrite bind_run by (now apply isRegularFile_run). now rewrite Ht.
Qed.

Lemma step2_tracked (w : World) :
  calm (env w) -> isRegularNode (fs w !! backupPath r) = true ->
  step2 r w = (inr false, tick (SysLstat (backupPath r)) w).
Proof.
  intros Hc Hb. unfold step2.
  erewrite bind_run by (now apply isRegularFile_run). now rewrite Hb.
Qed.

Lemma MkdirAll_dirMade (d : string) (w : World) :
  calm (env w) -> dirOk (fs w) d ->
  MkdirAll d 493 w
  = (inr tt, tick (SysMkdirAll d 493) (setFs (dirMade d (clock w) w) w)).
Proof.
  intros Hc Hd. unfold dirOk, dirMade in *.
  destruct (fs w !! d) as [n|] eqn:Hn.
  - rewrite setFs_id. now apply MkdirAll_run_old with (n := n).
  - now apply MkdirAll_run_new.
Qed.

Lemma dirMade_lookup (d q : string) (k : nat) (w : World) (n : Node) :
  fs w !! q = Some n -> dirMade d k w !! q = Some n.
Proof.
  intros Hq. unfold dirMade. destruct (fs w !! d) eqn:Hd; [exact Hq|].
  rewrite lookup_insert_ne; [exact Hq | congruence].
Qed.

Lemma dirMade_absent (d q : string) (k : nat) (w : World) :
  fs w !! q = None -> d <> q -> dirMade d k w !! q = None.
Proof.
  intros Hq Hne. unfold dirMade. destruct (fs w !! d) eqn:Hd; [exact Hq|].
  now rewrite lookup_insert_ne.
Qed.

Lemma dirMade_regular (d q : string) (k : nat) (w : World) :
  isRegularNode (dirMade d k w !! q) = isRegularNode (fs w !! q).
Proof.
  unfold dirMade. destruct (fs w !! d) eqn:Hd; [reflexivity|].
  destruct (decide (d = q)) as [<-|Hne].
  - now rewrite lookup_insert_eq, Hd.
  - now rewrite lookup_insert_ne.
Qed.

Lemma step2_first (w : World) (tn : Node) :
  calm (env w) ->
  fs w !! backupPath r = None ->
  fs w !! targetPath r = Some tn -> kind tn = Regular ->
  dirOk (fs w) (Dir (backupPath r)) ->
  step2 r w
  = (inr true,
     {| fs := <[backupPath r := copyOf tn]>
                (dirMade (Dir (backupPath r))
                   (length (calls w ++ [SysLstat (backupPath r)])) w);
        calls := calls w
                 ++ [SysLstat (backupPath r);
                     SysMkdirAll (Dir (backupPath r)) 493]
                 ++ copyCalls (targetPath r) (backupPath r) tn;
        out := out w ++ [savingLine (targetPath r)];
        env := env w |}).
Proof.
  intros Hc Hb Ht Hk Hd. unfold step2.
  erewrite bind_run by (now apply isRegularFile_run).
  rewrite Hb. cbn [isRegularNode negb]. unfold msg at 1.
  unfold bind at 1. norm.
  erewrite bind_run.
  2:{ apply MkdirAll_dirMade; wsimpl; assumption. }
  norm. erewrite pbind_run.
  2:{ apply copyFile_run with (n := tn); wsimpl.
      - exact Hc.
      - now apply dirMade_lookup.
      - exact Hk.
      - left. apply dirMade_absent; [exact Hb | apply (lay_db _ _ L)].
      - apply (lay_tb _ _ L). }
  unfold ret. f_equal. f_equal.
  unfold dirMade. wsimpl. cbn [app]. now rewrite <- !app_assoc.
Qed.

Lemma step2_5_none (w : World) :
  calm (env w) -> isRegularNode (fs w !! pacnewPath r) = false ->
  step2_5 r w = (inr tt, tick (SysLstat (pacnewPath r)) w).
Proof.
  intros Hc Hp. unfold step2_5.
  erewrite bind_run by (now apply isRegularFile_run). now rewrite Hp.
Qed.

Lemma step2_5_absorb (w : World) (pn : Node) :
  calm (env w) ->
  fs w !! pacnewPath r = Some pn -> kind pn = Regular ->
  plain (fs w) (backupPath r) ->
  step2_5 r w
  = (inr tt,
     {| fs := match fault (env w) (length (calls w) + 7) (SysRemove (pacnewPath r)) with
              | None => delete (pacnewPath r)
                          (<[backupPath r := copyOf pn]> (fs w))
              | Some _ => <[backupPath r := copyOf pn]> (fs w)
              end;
        calls := calls w
                 ++ [SysLstat (pacnewPath r)]
                 ++ copyCalls (pacnewPath r) (backupPath r) pn
                 ++ [SysRemove (pacnewPath r)];
        out := out w ++ [savingLine (pacnewPath r)];
        env := env w |}).
Proof.
  intros Hc Hp Hk Hb. unfold step2_5.
  erewrite bind_run by (now apply isRegularFile_run).
  rewrite Hp. cbn [isRegularNode]. rewrite Hk.
  unfold msg at 1. unfold bind at 1. norm.
  erewrite pbind_run.
  2:{ apply copyFile_run with (n := pn); wsimpl; try assumption.
      apply (lay_pb _ _ L). }
  assert (Hlen : length ((calls w ++ [SysLstat (pacnewPath r)])
                         ++ copyCalls (pacnewPath r) (backupPath r) pn)
                 = (length (calls w) + 7)%nat).
  { rewrite !List.length_app. unfold copyCalls. cbn [length]. lia. }
  destruct (fault (env w) (length (calls w) + 7) (SysRemove (pacnewPath r)))
    as [e|] eqn:Hf.
  - erewrite bind_run.
    2:{ apply Remove_fault with (e := e). unfold clock. wsimpl.
        rewrite Hlen. exact Hf. }
    norm. unfold ret. f_equal. f_equal. cbn [app]. now rewrite <- !app_assoc.
  - erewrite bind_run.
    2:{ apply Remove_run with (n := pn); wsimpl.
        - unfold clock. wsimpl. rewrite Hlen. exact Hf.
        - rewrite lookup_insert_ne; [exact Hp | intros E; apply (lay_pb _ _ L); now symmetry].
        - exact Hk. }
    norm. unfold ret. f_equal. f_equal. cbn [app]. now rewrite <- !app_assoc.
Qed.

Lemma isNewerThan_run (p1 p2 : string) (w : World) (n1 n2 : Node) :
  calm (env w) ->
  fs w !! p1 = Some n1 -> kind n1 = Regular ->
  fs w !! p2 = Some n2 -> kind n2 = Regular ->
  isNewerThan p1 p2 w
  = (inr (After (mtime n1) (mtime n2)),
     tick (SysStat p2) (tick (SysStat p1) w)).
Proof.
  intros Hc H1 K1 H2 K2. unfold isNewerThan.
  erewrite bind_run.
  2:{ apply Stat_run with (n := n1); try assumption.
      apply regular_notLink. unfold isRegularNode. now rewrite H1, K1. }
  norm. erewrite bind_run.
  2:{ apply Stat_run with (n := n2); wsimpl; try assumption.
      apply regular_notLink. unfold isRegularNode. now rewrite H2, K2. }
  reflexivity.
Qed.

Lemma step3_first (w : World) :
  step3 repoPath r true w
  = applicationStrategy r repoPath (backupPath r) (targetPath r)
      (print (installingLine (targetPath r)) w).
Proof. reflexivity. Qed.

Lemma step3_checked (w : World) (tn rn : Node) :
  calm (env w) ->
  fs w !! targetPath r = Some tn -> kind tn = Regular ->
  fs w !! repoPath = Some rn -> kind rn = Regular ->
  step3 repoPath r false w
  = if After (mtime tn) (mtime rn)
    then (inl (skippingText (targetPath r)),
          tick (SysStat repoPath) (tick (SysStat (targetPath r)) w))
    else applicationStrategy r repoPath (backupPath r) (targetPath r)
           (print (installingLine (targetPath r))
              (tick (SysStat repoPath) (tick (SysStat (targetPath r)) w))).
Proof.
  intros Hc Ht Kt Hr Kr. unfold step3. cbn [negb].
  erewrite pbind_run by (eapply isNewerThan_run; eassumption).
  now destruct (After (mtime tn) (mtime rn)).
Qed.

End Steps.

(* ===================================================================== *)
(** * Runs of [walkRepo] *)
(* ===================================================================== *)

Lemma regular_node (f : gmap string Node) (p : string) (n : Node) :
  f !! p = Some n -> kind n = Regular -> isRegularNode (f !! p) = true.
Proof. intros H K. unfold isRegularNode. now rewrite H, K. Qed.

Lemma entry_related (repoPath rel : string) :
  Entry repoPath rel -> related repoPath = relatedOf repoPath rel.
Proof.
  intros [rel' H Hs | base H]; unfold relatedOf, strategyOf.
  - rewrite Hs. now apply related_copy.
  - rewrite <- (app_assoc_s "/holo/repo/" base ".holoscript") at 2.
    rewrite HasSuffix_app. now apply related_program.
Qed.

Lemma entry_layout (repoPath rel : string) :
  Entry repoPath rel -> Layout repoPath (relatedOf repoPath rel).
Proof.
  intros [rel' H Hs | base H].
  - destruct (layout_copy _ H). now split.
  - destruct (layout_program _ H). now split.
Qed.

Lemma walkRepo_panic (repoPath : string) (info : FileInfo) (w w1 : World)
    (message : string) :
  IsRegular (Mode info) = true ->
  walkRepoBody repoPath w = (inl message, w1) ->
  walkRepo repoPath info None w = (None, print (msgLine msgError message) w1).
Proof.
  intros Hi Hb. unfold walkRepo. rewrite Hi. cbn [negb].
  now erewrite bind_run by exact Hb.
Qed.

Lemma walkRepo_done (repoPath : string) (info : FileInfo) (w w1 : World) :
  IsRegular (Mode info) = true ->
  walkRepoBody repoPath w = (inr tt, w1) ->
  walkRepo repoPath info None w = (None, w1).
Proof.
  intros Hi Hb. unfold walkRepo. rewrite Hi. cbn [negb].
  now erewrite bind_run by exact Hb.
Qed.

(** The last step. *)
Lemma strategy_run (repoPath rel : string) (w : World) (tn rn : Node) :
  Entry repoPath rel -> calm (env w) ->
  fs w !! repoPath = Some rn -> kind rn = Regular ->
  fs w !! targetOf rel = Some tn -> kind tn = Regular ->
  strategyOf repoPath repoPath (backupOf rel) (targetOf rel) w
  = (inr tt,
     {| fs := installed repoPath rel rn (fs w);
        calls := calls w ++ installCalls repoPath rel rn;
        out := out w; env := env w |}).
Proof.
  intros E Hc Hr Kr Ht Kt. pose proof (entry_layout _ _ E) as L.
  unfold strategyOf, installed, installCalls.
  destruct (HasSuffix repoPath ".holoscript").
  - unfold applyProgram, ret. rewrite app_nil_r. now destruct w.
  - unfold applyCopy. apply copyFile_run; try assumption.
    + right. unfold isRegularNode. now rewrite Ht, Kt.
    + apply (lay_rt _ _ L).
Qed.

Lemma regular_inv (f : gmap string Node) (p : string) :
  isRegularNode (f !! p) = true ->
  exists n, f !! p = Some n /\ kind n = Regular.
Proof.
  unfold isRegularNode. destruct (f !! p) as [n|]; [|discriminate].
  destruct (kind n) eqn:K; try discriminate. eauto.
Qed.

(** Steps 1 to 2.5 for a tracked target: the run arrives at step 3, with
    the integrity check ahead, in a world where the target and the
    repository file are as they were; the content of the target has not
    been read. *)
Lemma tracked_prefix (repoPath rel : string) (w : World) (tn bn rn : Node) :
  Entry repoPath rel -> calm (env w) ->
  fs w !! targetOf rel = Some tn -> kind tn = Regular ->
  fs w !! backupOf rel = Some bn -> kind bn = Regular ->
  fs w !! repoPath = Some rn -> kind rn = Regular ->
  exists W cs ls,
    walkRepoSteps repoPath (relatedOf repoPath rel) w
    = step3 repoPath (relatedOf repoPath rel) false W
    /\ env W = env w
    /\ calls W = (calls w ++ cs)%list
    /\ out W = (out w ++ ls)%list
    /\ fs W !! targetOf rel = Some tn
    /\ fs W !! repoPath = Some rn
    /\ ~ In (SysReadFile (targetOf rel)) cs
    /\ (forall p, ~ In (SysStat p) cs \/ p = pacnewOf rel).
Proof.
  intros E Hc Ht Kt Hb Kb Hr Kr.
  pose proof (entry_layout _ _ E) as L.
  pose proof (lay_tb _ _ L) as Ltb. pose proof (lay_pb _ _ L) as Lpb.
  pose proof (lay_rb _ _ L) as Lrb. pose proof (lay_tp _ _ L) as Ltp.
  pose proof (lay_rp _ _ L) as Lrp.
  cbn [targetPath backupPath pacnewPath relatedOf] in Ltb, Lpb, Lrb, Ltp, Lrp.
  unfold walkRepoSteps.
  erewrite pbind_run.
  2:{ apply step1_run; [exact Hc | now apply regular_node with tn]. }
  erewrite pbind_run.
  2:{ apply step2_tracked; [exact Hc | now apply regular_node with bn]. }
  norm. cbn [targetPath backupPath pacnewPath relatedOf].
  destruct (isRegularNode (fs w !! pacnewOf rel)) eqn:Hp.
  - apply regular_inv in Hp as [pn [Hp Kp]].
    erewrite pbind_run.
    2:{ eapply (step2_5_absorb _ _ L) with (pn := pn); norm;
          cbn [targetPath backupPath pacnewPath relatedOf]; try assumption.
        right. now apply regular_node with bn. }
    norm. cbn [targetPath backupPath pacnewPath relatedOf].
    eexists. eexists. eexists.
    split; [reflexivity|]. wsimpl.
    split; [reflexivity|].
    split; [rewrite <- ?app_assoc; reflexivity|].
    split; [rewrite <- ?app_assoc; reflexivity|].
    split.
    { destruct (fault _ _ _);
        rewrite ?lookup_delete_ne, lookup_insert_ne by congruence; exact Ht. }
    split.
    { destruct (fault _ _ _);
        rewrite ?lookup_delete_ne, lookup_insert_ne by congruence; exact Hr. }
    split.
    { unfold copyCalls. cbn [app In]. intros H.
      repeat destruct H as [H|H]; try discriminate H; try contradiction.
      congruence. }
    intros p. unfold copyCalls. cbn [app In].
    destruct (decide (p = pacnewOf rel)) as [->|Hne]; [now right|left].
    intros H. repeat destruct H as [H|H]; try discriminate H; try contradiction.
    congruence.
  - erewrite pbind_run.
    2:{ apply step2_5_none; norm;
          cbn [targetPath backupPath pacnewPath relatedOf]; assumption. }
    norm. cbn [targetPath backupPath pacnewPath relatedOf].
    eexists. eexists. eexists.
    split; [reflexivity|]. wsimpl.
    split; [reflexivity|].
    split; [rewrite <- ?app_assoc; reflexivity|].
    split; [symmetry; apply app_nil_r|].
    split; [exact Ht|]. split; [exact Hr|].
    split.
    { cbn [app In]. intros H.
      repeat destruct H as [H|H]; try discriminate H; try contradiction. }
    intros p. left. cbn [app In]. intros H.
    repeat destruct H as [H|H]; try discriminate H; try contradiction.
Qed.

(** Step 3 with the integrity check, and the strategy after it. *)
Lemma step3_total (repoPath rel : string) (W : World) (tn rn : Node) :
  Entry repoPath rel -> calm (env W) ->
  fs W !! targetOf rel = Some tn -> kind tn = Regular ->
  fs W !! repoPath = Some rn -> kind rn = Regular ->
  step3 repoPath (relatedOf repoPath rel) false W
  = if After (mtime tn) (mtime rn)
    then (inl (skippingText (targetOf rel)),
          {| fs := fs W;
             calls := calls W ++ [SysStat (targetOf rel); SysStat repoPath];
             out := out W; env := env W |})
    else (inr tt,
          {| fs := installed repoPath rel rn (fs W);
             calls := calls W ++ [SysStat (targetOf rel); SysStat repoPath]
                      ++ installCalls repoPath rel rn;
             out := out W ++ [installingLine (targetOf rel)];
             env := env W |}).
Proof.
  intros E Hc Ht Kt Hr Kr.
  erewrite step3_checked with (tn := tn) (rn := rn); try eassumption.
  cbn [targetPath backupPath pacnewPath relatedOf applicationStrategy].
  destruct (After (mtime tn) (mtime rn)).
  - norm. now rewrite <- !app_assoc.
  - erewrite strategy_run with (tn := tn) (rn := rn); norm; try eassumption.
    now rewrite <- !app_assoc.
Qed.


(* ===================================================================== *)
(** * fileio.go, whatever fails *)
(* ===================================================================== *)

Lemma bind_inv {A B} (m : IO A) (k : A -> IO B) (w : World) (r : B * World) :
  bind m k w = r -> exists a w1, m w = (a, w1) /\ k a w1 = r.
Proof. unfold bind. destruct (m w) as [a w1]. eauto. Qed.

Lemma ret_inv {A} (a b : A) (w w' : World) :
  ret a w = (b, w') -> a = b /\ w = w'.
Proof. unfold ret. intros H. now injection H. Qed.



(** [ApplyFilePermissions] onto a symlink: at most the two [os.Lstat]
    calls are issued, and the file system is left as it was. *)
Lemma ApplyFilePermissions_symlink
    (fromPath toPath : string) (w : World) (m : Node) :
  fs w !! toPath = Some m -> kind m = Symlink ->
  exists r cs,
    Fileio.ApplyFilePermissions fromPath toPath w
    = (r, {| fs := fs w; calls := calls w ++ cs;
             out := out w; env := env w |})
    /\ (cs = [SysLstat fromPath]
        \/ cs = [SysLstat fromPath; SysLstat toPath])
    /\ (calm (env w) -> is_Some (fs w !! fromPath) -> r = None).
Proof.
  intros Hm Km. unfold Fileio.ApplyFilePermissions, bind.
  destruct (Lstat_cases fromPath w) as [[e He]|[s [Hs He]]].
  - rewrite He. eexists. exists [SysLstat fromPath].
    split; [reflexivity|]. split; [now left|].
    intros Hc [s Hs]. rewrite (Lstat_run _ _ Hc), Hs in He. discriminate He.
  - rewrite He.
    destruct (Lstat_cases toPath (tick (SysLstat fromPath) w))
      as [[e He2]|[m' [Hm' He2]]]; rewrite He2.
    + eexists. exists [SysLstat fromPath; SysLstat toPath].
      split; [unfold ret, tick; cbn [fs calls out env];
              now rewrite <- app_assoc|].
      split; [now right|].
      intros Hc _.
      rewrite (Lstat_run toPath (tick (SysLstat fromPath) w) Hc) in He2.
      cbn [fs tick] in He2.
      rewrite Hm in He2. discriminate He2.
    + cbn [fs tick] in Hm'. assert (m' = m) as -> by congruence.
      rewrite IsSymlink_infoOf. unfold isSymlinkNode. rewrite Km.
      cbn [negb]. exists None, [SysLstat fromPath; SysLstat toPath].
      split; [unfold ret, tick; cbn [fs calls out env];
              now rewrite <- app_assoc|].
      split; [now right|]. reflexivity.
Qed.

Lemma IsManageableFile_cases (p : string) (w : World) :
  (Fileio.IsManageableFile p w = (false, tick (SysLstat p) w))
  \/ (exists m, fs w !! p = Some m
                /\ (kind m = Regular \/ kind m = Symlink)
                /\ Fileio.IsManageableFile p w = (true, tick (SysLstat p) w)).
Proof.
  unfold Fileio.IsManageableFile, bind.
  destruct (Lstat_cases p w) as [[e ->]|[m [Hm ->]]]; [now left|].
  rewrite IsRegular_infoOf, IsSymlink_infoOf.
  unfold isRegularNode, isSymlinkNode, ret.
  destruct (kind m) eqn:K; cbn [orb]; first [now left | right; eauto].
Qed.

(** Every run of [copySymlinkImpl] from a symlink: the calls it issues
    are a prefix of read the link, test the destination, remove it, make
    the link; when it returns no error, the destination is a link just
    made by [os.Symlink] to the same place. *)
Lemma copySymlinkImpl_cases
    (fromPath toPath : string) (w w' : World) (n : Node)
    (r : option string) :
  fs w !! fromPath = Some n -> kind n = Symlink ->
  Fileio.copySymlinkImpl fromPath toPath w = (r, w') ->
  exists cs,
    calls w' = (calls w ++ cs)%list
    /\ out w' = out w /\ env w' = env w
    /\ (forall c, In c cs -> isMetadataCall c = false)
    /\ (r = None ->
        (exists t, fs w' = <[toPath := newLink (env w) t (data n)]> (fs w))
        /\ (cs = [SysReadlink fromPath; SysLstat toPath; SysRemove toPath;
                  SysSymlink (data n) toPath]
            \/ (cs = [SysReadlink fromPath; SysLstat toPath;
                      SysSymlink (data n) toPath]
                /\ fs w !! toPath = None))).
Proof.
  intros Hn Kn H. unfold Fileio.copySymlinkImpl in H.
  apply bind_inv in H as (r1 & w1 & H1 & H).
  destruct (Readlink_cases fromPath w) as [[e He]|[n' [Hn' [_ He]]]];
    rewrite He in H1; injection H1 as <- <-.
  { apply ret_inv in H as [<- <-]. exists [SysReadlink fromPath].
    repeat split; try discriminate.
    intros c [<-|[]]. reflexivity. }
  assert (n' = n) as -> by congruence.
  apply bind_inv in H as (b & w2 & H2 & H).
  apply bind_inv in H as (rm & w3 & H3 & H).
  destruct (IsManageableFile_cases toPath (tick (SysReadlink fromPath) w))
    as [Hf|[m [Hm [Km Ht]]]].
  - (* not manageable, or the test failed: no removal *)
    rewrite Hf in H2. injection H2 as <- <-.
    apply ret_inv in H3 as [<- <-].
    apply bind_inv in H as (r4 & w4 & H4 & H).
    destruct (MkSymlink_cases (data n) toPath
                (tick (SysLstat toPath) (tick (SysReadlink fromPath) w)))
      as [[e He4]|[Hnone He4]]; rewrite He4 in H4; injection H4 as <- <-;
      apply ret_inv in H as [<- <-]; cbn [fs tick setFs calls out env].
    + exists [SysReadlink fromPath; SysLstat toPath;
              SysSymlink (data n) toPath].
      split; [now rewrite <- !app_assoc|].
      repeat split; try discriminate.
      intros c Hc. cbn [In] in Hc.
      repeat destruct Hc as [<-|Hc]; try reflexivity; contradiction.
    + exists [SysReadlink fromPath; SysLstat toPath;
              SysSymlink (data n) toPath].
      split; [now rewrite <- !app_assoc|].
      split; [reflexivity|]. split; [reflexivity|].
      split.
      { intros c Hc. cbn [In] in Hc.
        repeat destruct Hc as [<-|Hc]; try reflexivity; contradiction. }
      intros _. split; [now eexists|]. right. split; [reflexivity|].
      exact Hnone.
  - (* manageable: remove, then link *)
    rewrite Ht in H2. injection H2 as <- <-.
    apply bind_inv in H3 as (r5 & w5 & H5 & H3).
    destruct (Remove_cases toPath
                (tick (SysLstat toPath) (tick (SysReadlink fromPath) w)))
      as [[e He5]|[m' [_ He5]]]; rewrite He5 in H5; injection H5 as <- <-;
      apply ret_inv in H3 as [<- <-].
    + apply ret_inv in H as [<- <-]. cbn [fs tick setFs calls out env].
      exists [SysReadlink fromPath; SysLstat toPath; SysRemove toPath].
      split; [now rewrite <- !app_assoc|].
      repeat split; try discriminate.
      intros c Hc. cbn [In] in Hc.
      repeat destruct Hc as [<-|Hc]; try reflexivity; contradiction.
    + apply bind_inv in H as (r6 & w6 & H6 & H).
      match type of H6 with MkSymlink _ _ ?W = _ =>
        destruct (MkSymlink_cases (data n) toPath W)
          as [[e He6]|[_ He6]] end;
        rewrite He6 in H6; injection H6 as <- <-;
        apply ret_inv in H as [<- <-]; cbn [fs tick setFs calls out env].
      * exists [SysReadlink fromPath; SysLstat toPath; SysRemove toPath;
                SysSymlink (data n) toPath].
        split; [now rewrite <- !app_assoc|].
        repeat split; try discriminate.
        intros c Hc. cbn [In] in Hc.
        repeat destruct Hc as [<-|Hc]; try reflexivity; contradiction.
      * exists [SysReadlink fromPath; SysLstat toPath; SysRemove toPath;
                SysSymlink (data n) toPath].
        split; [now rewrite <- !app_assoc|].
        split; [reflexivity|]. split; [reflexivity|].
        split.
        { intros c Hc. cbn [In] in Hc.
          repeat destruct Hc as [<-|Hc]; try reflexivity; contradiction. }
        intros _. split; [|now left].
        eexists. now rewrite insert_delete_eq.
Qed.

(* ===================================================================== *)
(** * What a failing run leaves behind *)
(* ===================================================================== *)

Lemma hoare_pbind {A B} (P : World -> Prop) (R : string + A -> World -> Prop)
    (Q : string + B -> World -> Prop)
    (m : IO (string + A)) (k : A -> IO (string + B)) :
  hoare P m R ->
  (forall message W, R (inl message) W -> Q (inl message) W) ->
  (forall a, hoare (R (inr a)) (k a) Q) ->
  hoare P (pbind m k) Q.
Proof.
  intros Hm Hpanic Hk. unfold pbind. eapply hoare_bind; [exact Hm|].
  intros [message|a].
  - apply hoare_ret. apply Hpanic.
  - apply Hk.
Qed.

Section Frame.

Context (t b : string) (o : option Node).
Context (Htb : t <> b).

Lemma kept_tick (c : Syscall) (W : World) :
  kept t b o W -> kept t b o (tick c W).
Proof. exact (fun H => H). Qed.

Lemma kept_print (line : string) (W : World) :
  kept t b o W -> kept t b o (print line W).
Proof. exact (fun H => H). Qed.

Lemma kept_insert_b (c : Syscall) (W : World) (n : Node) :
  kept t b o W -> kind n <> Symlink ->
  kept t b o (tick c (setFs (<[b := n]> (fs W)) W)).
Proof.
  intros [Ht Hb] Hk. split; cbn [fs tick setFs].
  - rewrite lookup_insert_ne by congruence. exact Ht.
  - now apply notLink_at_insert.
Qed.

Lemma kept_insert_new (c : Syscall) (W : World) (q : string) (n : Node) :
  kept t b o W -> is_Some o -> fs W !! q = None -> kind n <> Symlink ->
  kept t b o (tick c (setFs (<[q := n]> (fs W)) W)).
Proof.
  intros [Ht Hb] [tn Ho] Hq Hk. split; cbn [fs tick setFs].
  - rewrite lookup_insert_ne by congruence. exact Ht.
  - now apply notLink_insert.
Qed.

Lemma kept_delete (c : Syscall) (W : World) (p : string) :
  kept t b o W -> t <> p ->
  kept t b o (tick c (setFs (delete p (fs W)) W)).
Proof.
  intros [Ht Hb] Hp. split; cbn [fs tick setFs].
  - rewrite lookup_delete_ne by congruence. exact Ht.
  - unfold notLink in *. destruct (decide (p = b)) as [->|Hne].
    + now rewrite lookup_delete_eq.
    + now rewrite lookup_delete_ne.
Qed.

Lemma frame_Lstat (p : string) :
  hoare (kept t b o) (Lstat p) (fun _ => kept t b o).
Proof.
  intros W HW. destruct (Lstat_cases p W) as [[e ->]|[n [_ ->]]];
    now apply kept_tick.
Qed.

Lemma frame_isRegularFile (p : string) :
  hoare (kept t b o) (isRegularFile p)
    (fun r W => kept t b o W
                /\ (r = true -> isRegularNode (fs W !! p) = true)).
Proof.
  intros W HW. unfold isRegularFile, bind.
  destruct (Lstat_cases p W) as [[e ->]|[n [Hn ->]]]; cbn [fst snd ret].
  - split; [now apply kept_tick | discriminate].
  - split; [now apply kept_tick|]. cbn [fs tick].
    rewrite IsRegular_infoOf, Hn. tauto.
Qed.

Lemma frame_isRegularFile' (p : string) :
  hoare (kept t b o) (isRegularFile p) (fun _ => kept t b o).
Proof.
  eapply hoare_weaken; [apply (frame_isRegularFile p) | auto |].
  now intros a W [HW _].
Qed.

Lemma frame_Stat (p : string) :
  hoare (kept t b o) (Stat p) (fun _ => kept t b o).
Proof.
  intros W HW. destruct (Stat_cases p W) as [[e ->]|[q [n [_ [_ ->]]]]];
    now apply kept_tick.
Qed.

Lemma frame_ReadFile (p : string) :
  hoare (kept t b o) (ReadFile p) (fun _ => kept t b o).
Proof.
  intros W HW. destruct (ReadFile_cases p W) as [[e ->]|[q [n [_ [_ ->]]]]];
    now apply kept_tick.
Qed.

Lemma frame_WriteFile (content : string) (m : Z) :
  hoare (kept t b o) (WriteFile b content m) (fun _ => kept t b o).
Proof.
  intros W HW. destruct (WriteFile_cases b content m W)
    as [[e ->]|[q [f' [Hq [-> Hf']]]]]; [now apply kept_tick|].
  rewrite (follow_notLink _ _ (proj2 HW)) in Hq. injection Hq as <-.
  cbn [fst snd].
  destruct Hf' as [[_ ->]|[[n [_ [K ->]]]|[n [_ [_ ->]]]]].
  - apply kept_insert_b; [exact HW | discriminate].
  - apply kept_insert_b; [exact HW | cbn; congruence].
  - rewrite setFs_id. now apply kept_tick.
Qed.

Lemma frame_update (c : Syscall) (op : string) (g : Node -> Node) :
  (forall n, kind (g n) = kind n) ->
  hoare (kept t b o) (syscall c op b (fun _ _ => updateNode g b))
    (fun _ => kept t b o).
Proof.
  intros Hg W HW. destruct (update_cases c op b g W)
    as [[e ->]|[q [n [Hq [Hn ->]]]]]; [now apply kept_tick|].
  pose proof (proj2 HW) as Hl.
  rewrite (follow_notLink _ _ Hl) in Hq. injection Hq as <-.
  cbn [fst snd]. apply kept_insert_b; [exact HW|].
  rewrite Hg. unfold notLink, isSymlinkNode in Hl. rewrite Hn in Hl.
  destruct (kind n); congruence.
Qed.

Lemma frame_MkdirAll (d : string) (m : Z) :
  is_Some o -> hoare (kept t b o) (MkdirAll d m) (fun _ => kept t b o).
Proof.
  intros Ho W HW. destruct (MkdirAll_cases d m W) as [[r ->]|[q [Hq ->]]].
  - now apply kept_tick.
  - cbn [fst snd]. apply kept_insert_new; try assumption. discriminate.
Qed.

Lemma frame_Remove (p : string) :
  t <> p -> hoare (kept t b o) (Remove p) (fun _ => kept t b o).
Proof.
  intros Hp W HW. destruct (Remove_cases p W) as [[e ->]|[n [_ ->]]].
  - now apply kept_tick.
  - cbn [fst snd]. now apply kept_delete.
Qed.

Lemma frame_msg (color message : string) :
  hoare (kept t b o) (msg color message) (fun _ => kept t b o).
Proof. intros W HW. now apply kept_print. Qed.

Lemma frame_copyFileImpl (fromPath : string) :
  hoare (kept t b o) (HoloApply.copyFileImpl fromPath b)
    (fun _ => kept t b o).
Proof.
  unfold HoloApply.copyFileImpl.
  eapply hoare_bind; [apply frame_ReadFile|].
  intros [err|content]; [now apply hoare_ret|].
  eapply hoare_bind; [apply frame_WriteFile|].
  intros [err|[]]; [now apply hoare_ret|].
  eapply hoare_bind; [apply frame_Stat|].
  intros [err|info]; [now apply hoare_ret|].
  eapply hoare_bind; [now apply frame_update|].
  intros [err|[]]; [now apply hoare_ret|].
  eapply hoare_bind; [now apply frame_update|].
  intros [err|[]]; [now apply hoare_ret|].
  eapply hoare_bind; [now apply frame_update|].
  intros [err|[]]; now apply hoare_ret.
Qed.

Lemma frame_copyFile (fromPath : string) :
  hoare (kept t b o) (copyFile fromPath b) (fun _ => kept t b o).
Proof.
  unfold copyFile. eapply hoare_bind; [apply frame_copyFileImpl|].
  intros [err|]; now apply hoare_ret.
Qed.

Lemma frame_isNewerThan (p1 p2 : string) :
  hoare (kept t b o) (isNewerThan p1 p2) (fun _ => kept t b o).
Proof.
  unfold isNewerThan. eapply hoare_bind; [apply frame_Stat|].
  intros [err|info1]; [now apply hoare_ret|].
  eapply hoare_bind; [apply frame_Stat|].
  intros [err|info2]; now apply hoare_ret.
Qed.

Context (repoPath : string) (r : Related).
Context (Ht : targetPath r = t) (Hb : backupPath r = b).
Context (Htp : t <> pacnewPath r).

Lemma frame_step1 :
  hoare (kept t b o) (step1 r)
    (fun res W => kept t b o W /\ (forall u, res = inr u -> is_Some o)).
Proof.
  unfold step1. rewrite Ht.
  eapply hoare_bind; [apply frame_isRegularFile|].
  intros [|]; cbn [negb]; apply hoare_ret.
  - intros W [HW Hreg]. split; [exact HW|]. intros _ _.
    specialize (Hreg eq_refl). destruct HW as [HtW _]. rewrite HtW in Hreg.
    destruct o; [eauto | discriminate].
  - intros W [HW _]. split; [exact HW | discriminate].
Qed.

Lemma frame_step2 :
  is_Some o -> hoare (kept t b o) (step2 r) (fun _ => kept t b o).
Proof.
  intros Ho. unfold step2. rewrite Ht, Hb.
  eapply hoare_bind; [apply frame_isRegularFile'|].
  intros isBackup. destruct isBackup; cbn [negb]; [now apply hoare_ret|].
  eapply hoare_bind; [apply frame_msg|]. intros ?.
  eapply hoare_bind; [now apply frame_MkdirAll|].
  intros [err|[]]; [now apply hoare_ret|].
  eapply hoare_pbind; [apply frame_copyFile | now intros | ].
  intros ?. now apply hoare_ret.
Qed.

Lemma frame_step2_5 :
  hoare (kept t b o) (step2_5 r) (fun _ => kept t b o).
Proof.
  unfold step2_5. rewrite Hb.
  eapply hoare_bind; [apply frame_isRegularFile'|].
  intros isPacnew. destruct isPacnew; [|now apply hoare_ret].
  eapply hoare_bind; [apply frame_msg|]. intros ?.
  eapply hoare_pbind; [apply frame_copyFile | now intros | ].
  intros ?. eapply hoare_bind; [now apply frame_Remove|].
  intros ?. now apply hoare_ret.
Qed.

Lemma frame_step3 (skipIntegrityCheck : bool) :
  applicationStrategy r = applyCopy \/ applicationStrategy r = applyProgram ->
  hoare (kept t b o) (step3 repoPath r skipIntegrityCheck)
    (targetKept repoPath t o).
Proof.
  intros Hs. unfold step3. rewrite Ht, Hb.
  eapply hoare_pbind with (R := fun _ => kept t b o).
  - destruct skipIntegrityCheck; cbn [negb];
      [now apply hoare_ret | apply frame_isNewerThan].
  - intros message W [HW _] _. exact HW.
  - intros modified. destruct modified.
    + apply hoare_ret. intros W [HW _] _. exact HW.
    + eapply hoare_bind; [apply frame_msg|]. intros ? W _.
      destruct Hs as [-> | ->].
      * unfold applyCopy, targetKept.
        destruct (copyFile repoPath t W) as [[message|u] W'] eqn:Hcopy;
          cbn [fst snd]; [|exact I].
        intros Hnot. exfalso.
        destruct (copyFile_panic repoPath t message W) as [err ->];
          [now rewrite Hcopy|]. now apply (Hnot err).
      * exact I.
Qed.

Lemma frame_steps :
  applicationStrategy r = applyCopy \/ applicationStrategy r = applyProgram ->
  hoare (kept t b o) (walkRepoSteps repoPath r) (targetKept repoPath t o).
Proof.
  intros Hs. unfold walkRepoSteps.
  eapply hoare_pbind; [apply frame_step1 | |].
  { intros message W [[HW _] _] _. exact HW. }
  intros u.
  eapply hoare_pbind
    with (R := fun _ W => kept t b o W /\ is_Some o).
  - intros W [HW Ho]. specialize (Ho u eq_refl).
    split; [now apply frame_step2 | exact Ho].
  - intros message W [[HW _] _] _. exact HW.
  - intros skip.
    eapply hoare_pbind with (R := fun _ => kept t b o).
    + intros W [HW _]. now apply frame_step2_5.
    + intros message W [HW _] _. exact HW.
    + intros ?. now apply frame_step3.
Qed.

End Frame.

(* ===================================================================== *)
(** * Drift blocks the overwrite *)
(* ===================================================================== *)

(** C1, as amended. A tracked target (regular file, backup present) with
    no side-car artifact pending, whose mtime is newer than the mtime of
    the repository file (the stamp the last write of the engine left on
    the target), is left alone by [walkRepo]: five metadata reads are
    issued, the file system is unchanged (target, its metadata and the
    backup included), nothing is written, and the only line printed
    reports the target as modified by the user. *)
Theorem user_modified_target_is_kept
    (repoPath rel : string) (repoInfo : FileInfo) (w : World)
    (tn bn rn : Node) :
  Entry repoPath rel ->
  IsRegular (Mode repoInfo) = true ->
  calm (env w) ->
  fs w !! targetOf rel = Some tn -> kind tn = Regular ->
  fs w !! backupOf rel = Some bn -> kind bn = Regular ->
  fs w !! repoPath = Some rn -> kind rn = Regular ->
  isRegularNode (fs w !! pacnewOf rel) = false ->
  After (mtime tn) (mtime rn) = true ->
  walkRepo repoPath repoInfo None w
  = (None,
     {| fs := fs w;
        calls := calls w
                 ++ [SysLstat (targetOf rel); SysLstat (backupOf rel);
                     SysLstat (pacnewOf rel); SysStat (targetOf rel);
                     SysStat repoPath];
        out := out w ++ [msgLine msgError (skippingText (targetOf rel))];
        env := env w |}).
Proof.
  intros E Hi Hc Ht Kt Hb Kb Hr Kr Hp Hnew.
  pose proof (entry_layout _ _ E) as L.
  erewrite walkRepo_panic; [ | exact Hi | ].
  2:{ unfold walkRepoBody. rewrite (entry_related _ _ E).
      unfold walkRepoSteps.
      erewrite pbind_run.
      2:{ apply step1_run; [exact Hc | now apply regular_node with tn]. }
      erewrite pbind_run.
      2:{ apply step2_tracked; [exact Hc | now apply regular_node with bn]. }
      erewrite pbind_run.
      2:{ apply step2_5_none; [exact Hc | exact Hp]. }
      erewrite step3_checked with (tn := tn) (rn := rn); try eassumption.
      rewrite Hnew. reflexivity. }
  unfold print, tick. wsimpl. cbn [targetPath backupPath pacnewPath relatedOf].
  now rewrite <- !app_assoc.
Qed.

Lemma calm_quietEnv : calm quietEnv.
Proof. intros k c _. reflexivity. Qed.

Lemma entry_foo : Entry fooRepo fooRel.
Proof. now apply (EntryCopy fooRel). Qed.

Lemma user_modified_target_is_kept_witness :
  walkRepo fooRepo fooInfo None driftWorld
  = (None,
     {| fs := fs driftWorld;
        calls := [SysLstat "/etc/foo.conf"; SysLstat "/holo/backup/etc/foo.conf";
                  SysLstat "/etc/foo.conf.pacnew"; SysStat "/etc/foo.conf";
                  SysStat "/holo/repo/etc/foo.conf"];
        out := [msgLine msgError
                  "Skipping /etc/foo.conf: has been modified by user"];
        env := quietEnv |}).
Proof.
  apply (user_modified_target_is_kept fooRepo fooRel fooInfo driftWorld
           (file "C" 30) (file "A" 10) (file "B" 20)).
  - exact entry_foo.
  - reflexivity.
  - exact calm_quietEnv.
  - reflexivity.
  - reflexivity.
  - reflexivity.
  - reflexivity.
  - reflexivity.
  - reflexivity.
  - reflexivity.
  - reflexivity.
Defined.

(** C1, as stated, fails when a side-car artifact is pending: the target
    of [driftSidecarWorld] is tracked and newer than the repository file
    and than its backup, it is kept and reported, but its backup "A" is
    replaced by the new default "D". *)
Lemma sidecar_drift_rewrites_backup :
  ~ (forall (repoPath rel : string) (repoInfo : FileInfo) (w : World)
            (tn bn rn : Node),
        Entry repoPath rel ->
        IsRegular (Mode repoInfo) = true ->
        calm (env w) ->
        fs w !! targetOf rel = Some tn -> kind tn = Regular ->
        fs w !! backupOf rel = Some bn -> kind bn = Regular ->
        fs w !! repoPath = Some rn -> kind rn = Regular ->
        After (mtime tn) (mtime rn) = true ->
        After (mtime tn) (mtime bn) = true ->
        let w' := snd (walkRepo repoPath repoInfo None w) in
        fs w' !! targetOf rel = Some tn
        /\ fs w' !! backupOf rel = Some bn
        /\ In (msgLine msgError (skippingText (targetOf rel))) (out w')).
Proof.
  intros H.
  specialize (H fooRepo fooRel fooInfo driftSidecarWorld
                (file "C" 30) (file "A" 10) (file "B" 20)
                entry_foo eq_refl calm_quietEnv eq_refl eq_refl eq_refl
                eq_refl eq_refl eq_refl eq_refl eq_refl).
  destruct H as [_ [Hb _]]. vm_compute in Hb. discriminate Hb.
Qed.

(** Two runs over one repository file. The first run meets the target
    "A" for the first time, saves it and installs "B"; the target is then
    rewritten as "C"; the second run reports it, and leaves "C" and the
    backup "A" in place. *)
Example drift_scenario :
  let w1 := snd (walkRepo fooRepo fooInfo None freshWorld) in
  let w2 := edited "/etc/foo.conf" "C" 2000 w1 in
  let w3 := snd (walkRepo fooRepo fooInfo None w2) in
  (data <$> fs w1 !! "/etc/foo.conf") = Some "B"
  /\ (data <$> fs w1 !! "/holo/backup/etc/foo.conf") = Some "A"
  /\ (mtime <$> fs w1 !! "/etc/foo.conf") = Some (mkTime 20 0)
  /\ fs w3 !! "/etc/foo.conf" = fs w2 !! "/etc/foo.conf"
  /\ (data <$> fs w3 !! "/etc/foo.conf") = Some "C"
  /\ (data <$> fs w3 !! "/holo/backup/etc/foo.conf") = Some "A"
  /\ List.last (out w3) ""
     = msgLine msgError "Skipping /etc/foo.conf: has been modified by user".
Proof. vm_compute. repeat split. Qed.

(* ===================================================================== *)
(** * The first encounter *)
(* ===================================================================== *)

Lemma installed_other (repoPath rel q : string) (rn : Node)
    (f : gmap string Node) :
  q <> targetOf rel -> installed repoPath rel rn f !! q = f !! q.
Proof.
  intros Hq. unfold installed. destruct (HasSuffix repoPath ".holoscript");
    [reflexivity|]. now rewrite lookup_insert_ne.
Qed.

Lemma installed_target (repoPath rel : string) (rn : Node)
    (f : gmap string Node) :
  HasSuffix repoPath ".holoscript" = false ->
  installed repoPath rel rn f !! targetOf rel = Some (copyOf rn).
Proof. intros H. unfold installed. rewrite H. apply lookup_insert_eq. Qed.


Lemma dirOk_fresh : dirOk (fs freshWorld) (Dir (backupOf fooRel)).
Proof. exact I. Qed.



(* ===================================================================== *)
(** * The integrity check *)
(* ===================================================================== *)

Lemma info_line_not_error (a b : string) :
  msgLine msgInfo a <> msgLine msgError b.
Proof. unfold msgLine, msgInfo, msgError, esc. cbn. discriminate. Qed.

(** C4, as amended. For a tracked target, [walkRepo] decides by comparing
    the mtime of the target with the mtime of the repository file, both
    read with [os.Stat]: the run ends with the line that reports a user
    modification exactly when the target is newer than the repository
    file. The mtime of the backup plays no part, and the content of the
    target is never read. A target judged modified is kept; any other is
    installed, and under the copy strategy ends as a copy of the
    repository file. *)
Theorem modification_is_judged_against_repository_file
    (repoPath rel : string) (repoInfo : FileInfo) (w : World)
    (tn bn rn : Node) :
  Entry repoPath rel ->
  IsRegular (Mode repoInfo) = true ->
  calm (env w) ->
  fs w !! targetOf rel = Some tn -> kind tn = Regular ->
  fs w !! backupOf rel = Some bn -> kind bn = Regular ->
  fs w !! repoPath = Some rn -> kind rn = Regular ->
  exists w' cs,
    walkRepo repoPath repoInfo None w = (None, w')
    /\ calls w' = (calls w ++ cs)%list
    /\ In (SysStat (targetOf rel)) cs /\ In (SysStat repoPath) cs
    /\ ~ In (SysReadFile (targetOf rel)) cs
    /\ (List.last (out w') "" = msgLine msgError (skippingText (targetOf rel))
        <-> After (mtime tn) (mtime rn) = true)
    /\ (After (mtime tn) (mtime rn) = true ->
        fs w' !! targetOf rel = Some tn)
    /\ (After (mtime tn) (mtime rn) = false ->
        List.last (out w') "" = installingLine (targetOf rel)
        /\ (HasSuffix repoPath ".holoscript" = false ->
            fs w' !! targetOf rel = Some (copyOf rn))).
Proof.
  intros E Hi Hc Ht Kt Hb Kb Hr Kr.
  pose proof (entry_layout _ _ E) as L.
  pose proof (lay_rt _ _ L) as Lrt.
  cbn [targetPath backupPath pacnewPath relatedOf] in Lrt.
  destruct (tracked_prefix repoPath rel w tn bn rn E Hc Ht Kt Hb Kb Hr Kr)
    as (W & cs & ls & Hsteps & HeW & HcW & HoW & HtW & HrW & Hread & _).
  assert (HcalmW : calm (env W)) by now rewrite HeW.
  pose proof (step3_total repoPath rel W tn rn E HcalmW HtW Kt HrW Kr) as H3.
  destruct (After (mtime tn) (mtime rn)) eqn:Hnew.
  - eexists. eexists. split.
    { eapply walkRepo_panic; [exact Hi|]. unfold walkRepoBody.
      rewrite (entry_related _ _ E), Hsteps. exact H3. }
    unfold print. wsimpl. rewrite HcW, HoW.
    split; [rewrite <- !app_assoc; reflexivity|].
    split; [apply in_or_app; right; now left|].
    split; [apply in_or_app; right; right; now left|].
    split.
    { intros [H|H]%in_app_or; [now apply Hread|].
      cbn [In] in H. repeat destruct H as [H|H]; try discriminate H;
        try contradiction. }
    split; [now rewrite last_last|].
    split; [intros _; exact HtW|]. discriminate.
  - eexists. eexists. split.
    { eapply walkRepo_done; [exact Hi|]. unfold walkRepoBody.
      rewrite (entry_related _ _ E), Hsteps. exact H3. }
    wsimpl. rewrite HcW, HoW.
    split; [rewrite <- !app_assoc; reflexivity|].
    split; [apply in_or_app; right; now left|].
    split; [apply in_or_app; right; right; now left|].
    split.
    { intros [H|H]%in_app_or; [now apply Hread|].
      unfold installCalls, copyCalls in H.
      destruct (HasSuffix repoPath ".holoscript"); cbn [In app] in H;
        repeat destruct H as [H|H]; try discriminate H; try contradiction.
      congruence. }
    rewrite last_last. split.
    { split; [|discriminate]. intros H.
      now apply info_line_not_error in H. }
    split; [discriminate|]. intros _. split; [reflexivity|].
    intros Hs. now apply installed_target.
Qed.

Lemma modification_is_judged_against_repository_file_witness :
  exists w' cs,
    walkRepo fooRepo fooInfo None touchedRepoWorld = (None, w')
    /\ calls w' = (calls touchedRepoWorld ++ cs)%list
    /\ In (SysStat (targetOf fooRel)) cs /\ In (SysStat fooRepo) cs
    /\ ~ In (SysReadFile (targetOf fooRel)) cs
    /\ (List.last (out w') ""
        = msgLine msgError (skippingText (targetOf fooRel))
        <-> After (mtime (file "C" 30)) (mtime (file "B2" 40)) = true)
    /\ (After (mtime (file "C" 30)) (mtime (file "B2" 40)) = true ->
        fs w' !! targetOf fooRel = Some (file "C" 30))
    /\ (After (mtime (file "C" 30)) (mtime (file "B2" 40)) = false ->
        List.last (out w') "" = installingLine (targetOf fooRel)
        /\ (HasSuffix fooRepo ".holoscript" = false ->
            fs w' !! targetOf fooRel = Some (copyOf (file "B2" 40)))).
Proof.
  apply (modification_is_judged_against_repository_file fooRepo fooRel
           fooInfo touchedRepoWorld (file "C" 30) (file "A" 10)
           (file "B2" 40)).
  - exact entry_foo.
  - reflexivity.
  - exact calm_quietEnv.
  - reflexivity.
  - reflexivity.
  - reflexivity.
  - reflexivity.
  - reflexivity.
  - reflexivity.
Defined.

(** C4, as stated, fails: in [touchedRepoWorld] the target (second 30) is
    newer than its backup (second 10), yet it is not judged modified,
    because the repository file is newer still (second 40): the run ends
    with the installing line and the user's "C" is overwritten. *)
Lemma newer_than_backup_is_not_the_test :
  ~ (forall (repoPath rel : string) (repoInfo : FileInfo) (w : World)
            (tn bn rn : Node),
        Entry repoPath rel ->
        IsRegular (Mode repoInfo) = true ->
        calm (env w) ->
        fs w !! targetOf rel = Some tn -> kind tn = Regular ->
        fs w !! backupOf rel = Some bn -> kind bn = Regular ->
        fs w !! repoPath = Some rn -> kind rn = Regular ->
        (List.last (out (snd (walkRepo repoPath repoInfo None w))) ""
         = msgLine msgError (skippingText (targetOf rel))
         <-> After (mtime tn) (mtime bn) = true)).
Proof.
  intros H.
  specialize (H fooRepo fooRel fooInfo touchedRepoWorld
                (file "C" 30) (file "A" 10) (file "B2" 40)
                entry_foo eq_refl calm_quietEnv eq_refl eq_refl eq_refl
                eq_refl eq_refl eq_refl).
  destruct H as [_ H]. specialize (H eq_refl).
  vm_compute in H. discriminate H.
Qed.

(* ===================================================================== *)
(** * Absorption of the side-car artifact *)
(* ===================================================================== *)


Lemma calm_stickyEnv : calm stickyEnv.
Proof.
  intros k c H. destruct c; try reflexivity. now destruct (H path).
Qed.



(* ===================================================================== *)
(** * [IsNewerThan] *)
(* ===================================================================== *)

(** C8. When the first path is a symlink, [IsNewerThan] answers false
    whatever the mtimes are and whatever fails; when both [os.Lstat] calls
    succeed (the second path exists and the environment is calm) the
    answer comes with no error, after two metadata reads that leave the
    file system as it was. *)
Theorem symlink_is_never_newer
    (path1 path2 : string) (w : World) (n1 : Node) :
  fs w !! path1 = Some n1 -> kind n1 = Symlink ->
  fst (fst (Fileio.IsNewerThan path1 path2 w)) = false
  /\ (forall n2,
        calm (env w) -> fs w !! path2 = Some n2 ->
        Fileio.IsNewerThan path1 path2 w
        = ((false, None),
           {| fs := fs w;
              calls := calls w ++ [SysLstat path1; SysLstat path2];
              out := out w; env := env w |})).
Proof.
  intros H1 K1. split.
  - unfold Fileio.IsNewerThan, bind.
    destruct (Lstat_cases path1 w) as [[e ->]|[n [Hn ->]]]; [reflexivity|].
    assert (n = n1) as -> by congruence.
    destruct (Lstat_cases path2 (tick (SysLstat path1) w))
      as [[e ->]|[n2 [_ ->]]]; [reflexivity|].
    rewrite IsSymlink_infoOf. unfold isSymlinkNode. now rewrite K1.
  - intros n2 Hc H2. unfold Fileio.IsNewerThan.
    erewrite bind_run by (now apply Lstat_run). rewrite H1.
    erewrite bind_run by (now apply Lstat_run). wsimpl. rewrite H2.
    rewrite IsSymlink_infoOf. unfold isSymlinkNode. rewrite K1.
    unfold ret, tick. wsimpl. now rewrite <- app_assoc.
Qed.

Lemma symlink_is_never_newer_witness :
  fst (fst (Fileio.IsNewerThan "/etc/localtime" "/holo/backup/etc/localtime"
              linkWorld)) = false
  /\ Fileio.IsNewerThan "/etc/localtime" "/holo/backup/etc/localtime"
       linkWorld
     = ((false, None),
        {| fs := fs linkWorld;
           calls := [SysLstat "/etc/localtime";
                     SysLstat "/holo/backup/etc/localtime"];
           out := []; env := quietEnv |}).
Proof.
  destruct (symlink_is_never_newer "/etc/localtime"
              "/holo/backup/etc/localtime" linkWorld
              (link "/usr/share/zoneinfo/UTC" 50) eq_refl eq_refl)
    as [H1 H2].
  split; [exact H1|].
  exact (H2 (file "A" 10) calm_quietEnv eq_refl).
Defined.

(** C9. For two existing regular files in a calm environment,
    [IsNewerThan] of fileio.go and [isNewerThan] of the early tool both
    answer [After] of the two mtimes, and [After] is a strict order: it
    holds exactly when the second mtime is strictly before the first, so
    it is false for equal mtimes and for an older first file. A tracked
    target whose mtime is not after the mtime of the repository file is
    therefore treated as unmodified: [walkRepo] prints the installing line
    and, under the copy strategy, overwrites the target with a copy of the
    repository file. *)
Theorem newer_than_is_strict :
  (forall (a b : string) (w : World) (na nb : Node),
      calm (env w) ->
      fs w !! a = Some na -> kind na = Regular ->
      fs w !! b = Some nb -> kind nb = Regular ->
      Fileio.IsNewerThan a b w
      = ((After (mtime na) (mtime nb), None),
         tick (SysLstat b) (tick (SysLstat a) w))
      /\ isNewerThan a b w
         = (inr (After (mtime na) (mtime nb)),
            tick (SysStat b) (tick (SysStat a) w))
      /\ (After (mtime na) (mtime nb) = true
          <-> before (mtime nb) (mtime na))
      /\ (mtime na = mtime nb -> After (mtime na) (mtime nb) = false)
      /\ (before (mtime na) (mtime nb) -> After (mtime na) (mtime nb) = false))
  /\ (forall (repoPath rel : string) (repoInfo : FileInfo) (w : World)
             (tn bn rn : Node),
        Entry repoPath rel ->
        IsRegular (Mode repoInfo) = true ->
        calm (env w) ->
        fs w !! targetOf rel = Some tn -> kind tn = Regular ->
        fs w !! backupOf rel = Some bn -> kind bn = Regular ->
        fs w !! repoPath = Some rn -> kind rn = Regular ->
        After (mtime tn) (mtime rn) = false ->
        exists w',
          walkRepo repoPath repoInfo None w = (None, w')
          /\ List.last (out w') "" = installingLine (targetOf rel)
          /\ (HasSuffix repoPath ".holoscript" = false ->
              fs w' !! targetOf rel = Some (copyOf rn))).
Proof.
  split.
  - intros a b w na nb Hc Ha Ka Hb Kb. split; [|split; [|split; [|split]]].
    + unfold Fileio.IsNewerThan.
      erewrite bind_run by (now apply Lstat_run). rewrite Ha.
      erewrite bind_run by (now apply Lstat_run). wsimpl. rewrite Hb.
      rewrite IsSymlink_infoOf. unfold isSymlinkNode. now rewrite Ka.
    + now apply isNewerThan_run.
    + apply After_before.
    + intros ->. apply After_irrefl.
    + intros H. apply After_asym. now apply After_before.
  - intros repoPath rel repoInfo w tn bn rn E Hi Hc Ht Kt Hb Kb Hr Kr Hold.
    destruct (tracked_prefix repoPath rel w tn bn rn E Hc Ht Kt Hb Kb Hr Kr)
      as (W & cs & ls & Hsteps & HeW & HcW & HoW & HtW & HrW & _).
    assert (HcalmW : calm (env W)) by now rewrite HeW.
    pose proof (step3_total repoPath rel W tn rn E HcalmW HtW Kt HrW Kr) as H3.
    rewrite Hold in H3. eexists. split.
    { eapply walkRepo_done; [exact Hi|]. unfold walkRepoBody.
      rewrite (entry_related _ _ E), Hsteps. exact H3. }
    wsimpl. split; [now rewrite last_last|].
    intros Hs. now apply installed_target.
Qed.

Lemma newer_than_is_strict_witness :
  (Fileio.IsNewerThan "/etc/foo.conf" fooRepo cleanWorld
   = ((false, None),
      tick (SysLstat fooRepo) (tick (SysLstat "/etc/foo.conf") cleanWorld)))
  /\ exists w',
       walkRepo fooRepo fooInfo None cleanWorld = (None, w')
       /\ List.last (out w') "" = installingLine (targetOf fooRel)
       /\ (HasSuffix fooRepo ".holoscript" = false ->
           fs w' !! targetOf fooRel = Some (copyOf (file "B'" 20))).
Proof.
  split.
  - apply (proj1 newer_than_is_strict "/etc/foo.conf" fooRepo cleanWorld
             (file "B" 20) (file "B'" 20)).
    + exact calm_quietEnv.
    + reflexivity.
    + reflexivity.
    + reflexivity.
    + reflexivity.
  - apply (proj2 newer_than_is_strict fooRepo fooRel fooInfo cleanWorld
             (file "B" 20) (file "A" 10) (file "B'" 20)).
    + exact entry_foo.
    + reflexivity.
    + exact calm_quietEnv.
    + reflexivity.
    + reflexivity.
    + reflexivity.
    + reflexivity.
    + reflexivity.
    + reflexivity.
    + reflexivity.
Defined.

(* ===================================================================== *)
(** * The metadata copier *)
(* ===================================================================== *)




(* ===================================================================== *)
(** * Symlinks and the metadata copier *)
(* ===================================================================== *)

(** [copySymlinkImpl] and [CopyFile] of a symlink when no call fails,
    the removal included: the destination, a regular file or a symlink,
    is removed, and the link is made anew. *)
Lemma CopyFile_link_run_replace
    (fromPath toPath : string) (w : World) (n m : Node) :
  calm (env w) ->
  (forall k, fault (env w) k (SysRemove toPath) = None) ->
  fs w !! fromPath = Some n -> kind n = Symlink ->
  fs w !! toPath = Some m -> kind m = Regular \/ kind m = Symlink ->
  Fileio.CopyFile fromPath toPath w
  = (None,
     {| fs := <[toPath := newLink (env w)
                            (now (env w) (length (calls w) + 4))
                            (data n)]> (delete toPath (fs w));
        calls := calls w ++ [SysLstat fromPath; SysReadlink fromPath;
                             SysLstat toPath; SysRemove toPath;
                             SysSymlink (data n) toPath];
        out := out w; env := env w |}).
Proof.
  intros Hc Hrm Hn Kn Hm Km. unfold Fileio.CopyFile.
  erewrite bind_run by (apply Lstat_run; exact Hc).
  rewrite Hn. cbv beta iota. rewrite IsRegular_infoOf.
  unfold isRegularNode. rewrite Kn.
  unfold Fileio.copySymlinkImpl, Readlink.
  erewrite bind_run.
  2:{ apply syscall_run with (a := data n) (f' := fs (tick (SysLstat fromPath) w)).
      - apply Hc. discriminate.
      - cbn [fs tick]. now rewrite Hn, Kn. }
  norm. unfold Fileio.IsManageableFile.
  erewrite bind_run.
  2:{ erewrite bind_run by (apply Lstat_run; exact Hc).
      norm. rewrite Hm. cbv beta iota.
      rewrite IsRegular_infoOf, IsSymlink_infoOf.
      unfold isRegularNode, isSymlinkNode.
      assert (match kind m with Regular => true | _ => false end
              || match kind m with Symlink => true | _ => false end = true)
        as -> by (destruct Km as [-> | ->]; reflexivity).
      reflexivity. }
  norm. unfold Remove.
  erewrite bind_run.
  2:{ erewrite bind_run.
      2:{ apply syscall_run with (a := tt) (f' := delete toPath (fs w)).
          - apply Hrm.
          - cbn [fs]. rewrite Hm.
            destruct Km as [-> | ->]; reflexivity. }
      reflexivity. }
  norm. unfold MkSymlink.
  erewrite bind_run.
  2:{ apply syscall_run with (a := tt).
      - apply Hc. discriminate.
      - cbn [fs env]. rewrite lookup_delete_eq. reflexivity. }
  norm. unfold ret. f_equal. f_equal.
  - unfold clock. cbn [calls].
    replace (length ((((calls w ++ [SysLstat fromPath])
                       ++ [SysReadlink fromPath]) ++ [SysLstat toPath])
                     ++ [SysRemove toPath]))
      with (length (calls w) + 4)%nat
      by (rewrite !List.length_app; cbn; lia).
    reflexivity.
  - now rewrite <- !app_assoc.
Qed.

(** The same onto a path where nothing is: nothing is removed. *)
Lemma CopyFile_link_run_new
    (fromPath toPath : string) (w : World) (n : Node) :
  calm (env w) ->
  fs w !! fromPath = Some n -> kind n = Symlink ->
  fs w !! toPath = None ->
  Fileio.CopyFile fromPath toPath w
  = (None,
     {| fs := <[toPath := newLink (env w)
                            (now (env w) (length (calls w) + 3))
                            (data n)]> (fs w);
        calls := calls w ++ [SysLstat fromPath; SysReadlink fromPath;
                             SysLstat toPath; SysSymlink (data n) toPath];
        out := out w; env := env w |}).
Proof.
  intros Hc Hn Kn Hm. unfold Fileio.CopyFile.
  erewrite bind_run by (apply Lstat_run; exact Hc).
  rewrite Hn. cbv beta iota. rewrite IsRegular_infoOf.
  unfold isRegularNode. rewrite Kn.
  unfold Fileio.copySymlinkImpl, Readlink.
  erewrite bind_run.
  2:{ apply syscall_run with (a := data n) (f' := fs (tick (SysLstat fromPath) w)).
      - apply Hc. discriminate.
      - cbn [fs tick]. now rewrite Hn, Kn. }
  norm. unfold Fileio.IsManageableFile.
  erewrite bind_run.
  2:{ erewrite bind_run by (apply Lstat_run; exact Hc).
      norm. rewrite Hm. reflexivity. }
  norm. erewrite bind_run by reflexivity.
  norm. unfold MkSymlink.
  erewrite bind_run.
  2:{ apply syscall_run with (a := tt).
      - apply Hc. discriminate.
      - cbn [fs env]. rewrite Hm. reflexivity. }
  norm. unfold ret. f_equal. f_equal.
  - unfold clock. cbn [calls].
    replace (length (((calls w ++ [SysLstat fromPath])
                      ++ [SysReadlink fromPath]) ++ [SysLstat toPath]))
      with (length (calls w) + 3)%nat
      by (rewrite !List.length_app; cbn; lia).
    reflexivity.
  - now rewrite <- !app_assoc.
Qed.

(** When the removal fails, the copy stops before the link is made. *)
Lemma CopyFile_link_run_stuck
    (fromPath toPath : string) (w : World) (n m : Node) (e : Errno) :
  calm (env w) ->
  fault (env w) (length (calls w) + 3) (SysRemove toPath) = Some e ->
  fs w !! fromPath = Some n -> kind n = Symlink ->
  fs w !! toPath = Some m -> kind m = Regular \/ kind m = Symlink ->
  Fileio.CopyFile fromPath toPath w
  = (Some (PathError "remove" toPath e),
     {| fs := fs w;
        calls := calls w ++ [SysLstat fromPath; SysReadlink fromPath;
                             SysLstat toPath; SysRemove toPath];
        out := out w; env := env w |}).
Proof.
  intros Hc Hrm Hn Kn Hm Km. unfold Fileio.CopyFile.
  erewrite bind_run by (apply Lstat_run; exact Hc).
  rewrite Hn. cbv beta iota. rewrite IsRegular_infoOf.
  unfold isRegularNode. rewrite Kn.
  unfold Fileio.copySymlinkImpl, Readlink.
  erewrite bind_run.
  2:{ apply syscall_run with (a := data n) (f' := fs (tick (SysLstat fromPath) w)).
      - apply Hc. discriminate.
      - cbn [fs tick]. now rewrite Hn, Kn. }
  norm. unfold Fileio.IsManageableFile.
  erewrite bind_run.
  2:{ erewrite bind_run by (apply Lstat_run; exact Hc).
      norm. rewrite Hm. cbv beta iota.
      rewrite IsRegular_infoOf, IsSymlink_infoOf.
      unfold isRegularNode, isSymlinkNode.
      assert (match kind m with Regular => true | _ => false end
              || match kind m with Symlink => true | _ => false end = true)
        as -> by (destruct Km as [-> | ->]; reflexivity).
      reflexivity. }
  norm.
  erewrite bind_run.
  2:{ erewrite bind_run.
      2:{ apply Remove_fault with (e := e). unfold clock. cbn [env calls].
          replace (length (((calls w ++ [SysLstat fromPath])
                            ++ [SysReadlink fromPath]) ++ [SysLstat toPath]))
            with (length (calls w) + 3)%nat
            by (rewrite !List.length_app; cbn; lia).
          exact Hrm. }
      reflexivity. }
  norm. unfold ret. f_equal. f_equal. now rewrite <- !app_assoc.
Qed.

(** C10. A [CopyFile] whose source is a symlink never issues a chmod,
    chown or chtimes, whatever fails; when it returns no error, the
    destination is a link just made by [os.Symlink] to the place the
    source leads to, with the metadata the kernel gives a new link, and
    the calls were: test the source, read the link, test the destination,
    remove the destination, make the link (the removal is left out only
    when nothing was at the destination). And [ApplyFilePermissions] onto a
    destination that is a symlink issues at most its two [os.Lstat] calls
    and leaves the file system as it was.

    The copy does happen: when no call fails, a regular file or a symlink
    at the destination is removed, then the link is made, and [CopyFile]
    returns no error after exactly these five calls; the node at the
    destination is the new link, with the mode, the owner and the time
    of its making and nothing of the node that was there or of the
    source but the place it leads to. Onto a path where nothing is, the
    link is made without a removal. When the removal fails, [CopyFile]
    returns its error and no link is made: the removal comes first. *)
Theorem symlinks_are_copied_without_metadata :
  (forall (fromPath toPath : string) (w w' : World) (n : Node)
          (r : option string),
      fs w !! fromPath = Some n -> kind n = Symlink ->
      Fileio.CopyFile fromPath toPath w = (r, w') ->
      exists cs,
        calls w' = (calls w ++ cs)%list
        /\ (forall c, In c cs -> isMetadataCall c = false)
        /\ (r = None ->
            (exists t,
                fs w' = <[toPath := newLink (env w) t (data n)]> (fs w))
            /\ (cs = [SysLstat fromPath; SysReadlink fromPath;
                      SysLstat toPath; SysRemove toPath;
                      SysSymlink (data n) toPath]
                \/ (cs = [SysLstat fromPath; SysReadlink fromPath;
                          SysLstat toPath; SysSymlink (data n) toPath]
                    /\ fs w !! toPath = None))))
  /\ (forall (fromPath toPath : string) (w : World) (m : Node),
        fs w !! toPath = Some m -> kind m = Symlink ->
        exists r cs,
          Fileio.ApplyFilePermissions fromPath toPath w
          = (r, {| fs := fs w; calls := calls w ++ cs;
                   out := out w; env := env w |})
          /\ (cs = [SysLstat fromPath]
              \/ cs = [SysLstat fromPath; SysLstat toPath])
          /\ (calm (env w) -> is_Some (fs w !! fromPath) -> r = None))
  /\ (forall (fromPath toPath : string) (w : World) (n m : Node),
        calm (env w) ->
        (forall k, fault (env w) k (SysRemove toPath) = None) ->
        fs w !! fromPath = Some n -> kind n = Symlink ->
        fs w !! toPath = Some m -> kind m = Regular \/ kind m = Symlink ->
        Fileio.CopyFile fromPath toPath w
        = (None,
           {| fs := <[toPath := newLink (env w)
                                  (now (env w) (length (calls w) + 4))
                                  (data n)]> (delete toPath (fs w));
              calls := calls w ++ [SysLstat fromPath; SysReadlink fromPath;
                                   SysLstat toPath; SysRemove toPath;
                                   SysSymlink (data n) toPath];
              out := out w; env := env w |}))
  /\ (forall (fromPath toPath : string) (w : World) (n : Node),
        calm (env w) ->
        fs w !! fromPath = Some n -> kind n = Symlink ->
        fs w !! toPath = None ->
        Fileio.CopyFile fromPath toPath w
        = (None,
           {| fs := <[toPath := newLink (env w)
                                  (now (env w) (length (calls w) + 3))
                                  (data n)]> (fs w);
              calls := calls w ++ [SysLstat fromPath; SysReadlink fromPath;
                                   SysLstat toPath;
                                   SysSymlink (data n) toPath];
              out := out w; env := env w |}))
  /\ (forall (fromPath toPath : string) (w : World) (n m : Node)
             (e : Errno),
        calm (env w) ->
        fault (env w) (length (calls w) + 3) (SysRemove toPath) = Some e ->
        fs w !! fromPath = Some n -> kind n = Symlink ->
        fs w !! toPath = Some m -> kind m = Regular \/ kind m = Symlink ->
        Fileio.CopyFile fromPath toPath w
        = (Some (PathError "remove" toPath e),
           {| fs := fs w;
              calls := calls w ++ [SysLstat fromPath; SysReadlink fromPath;
                                   SysLstat toPath; SysRemove toPath];
              out := out w; env := env w |})).
Proof.
  split; [|split; [|split; [|split]]].
  - intros fromPath toPath w w' n r Hn Kn H. unfold Fileio.CopyFile in H.
    apply bind_inv in H as (r1 & w1 & H1 & H).
    destruct (Lstat_cases fromPath w) as [[e He]|[n' [Hn' He]]];
      rewrite He in H1; injection H1 as <- <-.
    { apply ret_inv in H as [<- <-]. exists [SysLstat fromPath].
      repeat split; try discriminate.
      intros c [<-|[]]. reflexivity. }
    assert (n' = n) as -> by congruence.
    rewrite IsRegular_infoOf in H. unfold isRegularNode in H.
    rewrite Kn in H.
    destruct (copySymlinkImpl_cases fromPath toPath
                (tick (SysLstat fromPath) w) w' n r Hn Kn H)
      as (cs & Hcs & _ & _ & Hmeta & Hok).
    cbn [calls tick fs env] in Hcs, Hok.
    exists (SysLstat fromPath :: cs). split.
    { rewrite Hcs, <- app_assoc. reflexivity. }
    split.
    { intros c [<-|Hc]; [reflexivity | now apply Hmeta]. }
    intros Hr. destruct (Hok Hr) as [Hfs Hshape]. split; [exact Hfs|].
    destruct Hshape as [->|[-> Hnone]]; [now left | now right].
  - intros fromPath toPath w m Hm Km.
    now apply ApplyFilePermissions_symlink with m.
  - exact CopyFile_link_run_replace.
  - exact CopyFile_link_run_new.
  - exact CopyFile_link_run_stuck.
Qed.

Lemma symlinks_are_copied_without_metadata_witness :
  (Fileio.CopyFile "/holo/repo/etc/localtime" "/etc/localtime"
     linkSourceWorld
   = (None,
      {| fs := <["/etc/localtime" :=
                  newLink quietEnv (now quietEnv 4)
                    "/usr/share/zoneinfo/UTC"]>
                 (delete "/etc/localtime" (fs linkSourceWorld));
         calls := [SysLstat "/holo/repo/etc/localtime";
                   SysReadlink "/holo/repo/etc/localtime";
                   SysLstat "/etc/localtime"; SysRemove "/etc/localtime";
                   SysSymlink "/usr/share/zoneinfo/UTC" "/etc/localtime"];
         out := []; env := quietEnv |}))
  /\ (Fileio.CopyFile "/holo/repo/etc/localtime" "/etc/localtime.new"
        linkSourceWorld
      = (None,
         {| fs := <["/etc/localtime.new" :=
                     newLink quietEnv (now quietEnv 3)
                       "/usr/share/zoneinfo/UTC"]>
                    (fs linkSourceWorld);
            calls := [SysLstat "/holo/repo/etc/localtime";
                      SysReadlink "/holo/repo/etc/localtime";
                      SysLstat "/etc/localtime.new";
                      SysSymlink "/usr/share/zoneinfo/UTC"
                        "/etc/localtime.new"];
            out := []; env := quietEnv |}))
  /\ (let stuck :=
         {| fs := fs linkSourceWorld; calls := []; out := [];
            env := stickyEnv |} in
       Fileio.CopyFile "/holo/repo/etc/localtime" "/etc/localtime" stuck
       = (Some (PathError "remove" "/etc/localtime" EPERM),
          {| fs := fs linkSourceWorld;
             calls := [SysLstat "/holo/repo/etc/localtime";
                       SysReadlink "/holo/repo/etc/localtime";
                       SysLstat "/etc/localtime";
                       SysRemove "/etc/localtime"];
             out := []; env := stickyEnv |}))
  /\ (let run := Fileio.CopyFile "/holo/repo/etc/localtime" "/etc/localtime"
                   linkSourceWorld in
      exists cs,
        calls (snd run) = (calls linkSourceWorld ++ cs)%list
        /\ (forall c, In c cs -> isMetadataCall c = false)
        /\ (exists t,
               fs (snd run)
               = <["/etc/localtime" :=
                     newLink quietEnv t "/usr/share/zoneinfo/UTC"]>
                   (fs linkSourceWorld))
        /\ (cs = [SysLstat "/holo/repo/etc/localtime";
                  SysReadlink "/holo/repo/etc/localtime";
                  SysLstat "/etc/localtime"; SysRemove "/etc/localtime";
                  SysSymlink "/usr/share/zoneinfo/UTC" "/etc/localtime"]
            \/ (cs = [SysLstat "/holo/repo/etc/localtime";
                      SysReadlink "/holo/repo/etc/localtime";
                      SysLstat "/etc/localtime";
                      SysSymlink "/usr/share/zoneinfo/UTC" "/etc/localtime"]
                /\ fs linkSourceWorld !! "/etc/localtime" = None)))
  /\ exists r cs,
       Fileio.ApplyFilePermissions "/holo/backup/etc/localtime"
         "/etc/localtime" linkWorld
       = (r, {| fs := fs linkWorld; calls := calls linkWorld ++ cs;
                out := out linkWorld; env := env linkWorld |})
       /\ (cs = [SysLstat "/holo/backup/etc/localtime"]
           \/ cs = [SysLstat "/holo/backup/etc/localtime";
                    SysLstat "/etc/localtime"])
       /\ (calm (env linkWorld) ->
           is_Some (fs linkWorld !! "/holo/backup/etc/localtime") ->
           r = None).
Proof.
  destruct symlinks_are_copied_without_metadata
    as (Hany & Hperm & Hreplace & Hnew & Hstuck).
  assert (Fileio.CopyFile "/holo/repo/etc/localtime" "/etc/localtime"
            linkSourceWorld
          = (None,
             {| fs := <["/etc/localtime" :=
                         newLink quietEnv (now quietEnv 4)
                           "/usr/share/zoneinfo/UTC"]>
                        (delete "/etc/localtime" (fs linkSourceWorld));
                calls := [SysLstat "/holo/repo/etc/localtime";
                          SysReadlink "/holo/repo/etc/localtime";
                          SysLstat "/etc/localtime";
                          SysRemove "/etc/localtime";
                          SysSymlink "/usr/share/zoneinfo/UTC"
                            "/etc/localtime"];
                out := []; env := quietEnv |})) as Hrun.
  { apply (Hreplace "/holo/repo/etc/localtime" "/etc/localtime"
             linkSourceWorld (link "/usr/share/zoneinfo/UTC" 20)
             (file "old" 10)).
    - exact calm_quietEnv.
    - intros k. reflexivity.
    - reflexivity.
    - reflexivity.
    - reflexivity.
    - left. reflexivity. }
  split; [exact Hrun|]. split; [|split; [|split]].
  - apply (Hnew "/holo/repo/etc/localtime" "/etc/localtime.new"
             linkSourceWorld (link "/usr/share/zoneinfo/UTC" 20)).
    + exact calm_quietEnv.
    + reflexivity.
    + reflexivity.
    + reflexivity.
  - apply (Hstuck "/holo/repo/etc/localtime" "/etc/localtime"
             {| fs := fs linkSourceWorld; calls := []; out := [];
                env := stickyEnv |}
             (link "/usr/share/zoneinfo/UTC" 20) (file "old" 10) EPERM).
    + exact calm_stickyEnv.
    + reflexivity.
    + reflexivity.
    + reflexivity.
    + reflexivity.
    + left. reflexivity.
  - destruct (Hany "/holo/repo/etc/localtime" "/etc/localtime"
                linkSourceWorld
                (snd (Fileio.CopyFile "/holo/repo/etc/localtime"
                        "/etc/localtime" linkSourceWorld))
                (link "/usr/share/zoneinfo/UTC" 20)
                (fst (Fileio.CopyFile "/holo/repo/etc/localtime"
                        "/etc/localtime" linkSourceWorld)))
      as (cs & Hcs & Hmeta & Hok).
    + reflexivity.
    + reflexivity.
    + now destruct (Fileio.CopyFile "/holo/repo/etc/localtime"
                      "/etc/localtime" linkSourceWorld).
    + exists cs. split; [exact Hcs|]. split; [exact Hmeta|].
      apply Hok. now rewrite Hrun.
  - apply (Hperm "/holo/backup/etc/localtime" "/etc/localtime" linkWorld
             (link "/usr/share/zoneinfo/UTC" 50)).
    + reflexivity.
    + reflexivity.
Defined.

(* ===================================================================== *)
(** * Failures stay with their entry *)
(* ===================================================================== *)

Lemma strategyOf_cases (repoPath : string) :
  strategyOf repoPath = applyCopy \/ strategyOf repoPath = applyProgram.
Proof.
  unfold strategyOf. destruct (HasSuffix repoPath ".holoscript"); auto.
Qed.

Lemma walkRepo_returns_nil (repoPath : string) (repoInfo : FileInfo)
    (w : World) :
  fst (walkRepo repoPath repoInfo None w) = None.
Proof.
  unfold walkRepo. destruct (negb (IsRegular (Mode repoInfo))); [reflexivity|].
  unfold bind. destruct (walkRepoBody repoPath w) as [[message|u] w1];
    reflexivity.
Qed.

(** C6, as amended. No failure of the pipeline of an entry leaves
    [walkRepo]: it returns nil whatever the world and whatever fails, so
    that the walk visits every entry it is given and returns nil itself;
    a panic of the pipeline is printed as one error line. When the backup
    path is not a symlink, the target of the failed entry is as it was
    found, unless the panic is the one of the last copy, the one onto the
    target; in particular it is as found when the target is not a regular
    file and when the target is skipped as modified by the user. *)
Theorem failures_stay_with_their_entry :
  (forall (repoPath : string) (repoInfo : FileInfo) (w : World),
      fst (walkRepo repoPath repoInfo None w) = None)
  /\ (forall (visits : list (string * FileInfo * option string)) (w : World),
        Forall (fun v => snd v = None) visits ->
        fst (Walk visits walkRepo w) = None
        /\ snd (Walk visits walkRepo w)
           = fold_left
               (fun W v => snd (walkRepo (fst (fst v)) (snd (fst v)) None W))
               visits w)
  /\ (forall (repoPath rel : string) (repoInfo : FileInfo) (w w1 : World)
             (message : string),
        Entry repoPath rel ->
        IsRegular (Mode repoInfo) = true ->
        notLink (fs w) (backupOf rel) ->
        walkRepoBody repoPath w = (inl message, w1) ->
        walkRepo repoPath repoInfo None w
        = (None, print (msgLine msgError message) w1)
        /\ ((forall err,
                message <> cannotCopy repoPath (targetOf rel) err) ->
            fs w1 !! targetOf rel = fs w !! targetOf rel)
        /\ (message = notRegularText (targetOf rel)
            \/ message = skippingText (targetOf rel) ->
            fs w1 !! targetOf rel = fs w !! targetOf rel)).
Proof.
  split; [exact walkRepo_returns_nil|]. split.
  - intros visits. induction visits as [|[[path info] err] rest IH];
      intros w Hall; [now split|].
    inversion Hall as [|v vs Hv Hrest]; subst. cbn [snd] in Hv. subst err.
    cbn [Walk fold_left fst snd]. unfold bind.
    pose proof (walkRepo_returns_nil path info w) as Hnil.
    destruct (walkRepo path info None w) as [res w1]. cbn [fst] in Hnil.
    subst res. cbn [snd]. now apply IH.
  - intros repoPath rel repoInfo w w1 message E Hi Hl Hbody.
    pose proof (entry_layout _ _ E) as L.
    assert (Hkept : (forall err,
                        message <> cannotCopy repoPath (targetOf rel) err) ->
                    fs w1 !! targetOf rel = fs w !! targetOf rel).
    { pose proof (frame_steps (targetOf rel) (backupOf rel)
                    (fs w !! targetOf rel) (lay_tb _ _ L) repoPath
                    (relatedOf repoPath rel) eq_refl eq_refl (lay_tp _ _ L)
                    (strategyOf_cases repoPath) w) as Hf.
      unfold walkRepoBody in Hbody. rewrite (entry_related _ _ E) in Hbody.
      rewrite Hbody in Hf. apply Hf. now split. }
    split; [now apply walkRepo_panic|]. split; [exact Hkept|].
    intros [-> | ->]; apply Hkept; intros err;
      unfold notRegularText, skippingText, cannotCopy, targetOf;
      discriminate.
Qed.

Lemma failures_stay_with_their_entry_witness :
  walkRepo fooRepo fooInfo None driftWorld
  = (None,
     print (msgLine msgError (skippingText (targetOf fooRel)))
       (snd (walkRepoBody fooRepo driftWorld)))
  /\ fs (snd (walkRepoBody fooRepo driftWorld)) !! targetOf fooRel
     = fs driftWorld !! targetOf fooRel.
Proof.
  destruct (proj2 (proj2 failures_stay_with_their_entry)
              fooRepo fooRel fooInfo driftWorld
              (snd (walkRepoBody fooRepo driftWorld))
              (skippingText (targetOf fooRel)))
    as [H1 [_ H3]].
  - exact entry_foo.
  - reflexivity.
  - reflexivity.
  - vm_compute. reflexivity.
  - split; [exact H1|]. apply H3. now right.
Defined.

(** C6, as stated, fails for a failure inside the last copy: in
    [cleanWorld] with the owner of the target out of reach, the copy of
    the repository file onto the target writes the content and the mode
    and then fails in chown; the pipeline panics, the panic is printed,
    and the target is left with the new content. *)
Lemma failed_install_leaves_target_rewritten :
  ~ (forall (repoPath rel : string) (w w1 : World) (message : string),
        Entry repoPath rel ->
        notLink (fs w) (backupOf rel) ->
        walkRepoBody repoPath w = (inl message, w1) ->
        fs w1 !! targetOf rel = fs w !! targetOf rel).
Proof.
  intros H.
  specialize (H fooRepo fooRel
                {| fs := fs cleanWorld; calls := []; out := [];
                   env := chownFailsEnv |}
                (snd (walkRepoBody fooRepo
                        {| fs := fs cleanWorld; calls := []; out := [];
                           env := chownFailsEnv |}))
                (cannotCopy fooRepo (targetOf fooRel)
                   (PathError "chown" (targetOf fooRel) EPERM))
                entry_foo eq_refl).
  vm_compute in H. specialize (H eq_refl). discriminate H.
Qed.

(* ===================================================================== *)
(** * Strategy and target of a repository file *)
(* ===================================================================== *)



Example related_samples :
  map (fun p => (targetPath (related p), backupPath (related p)))
      ["/holo/repo/etc/foo.conf"; "/holo/repo/etc/foo.conf.holoscript";
       "/holo/repo/etc/.holoscript"; "/holo/repo/...holoscript"]
  = [("/etc/foo.conf", "/holo/backup/etc/foo.conf");
     ("/etc/foo.conf", "/holo/backup/etc/foo.conf");
     ("/etc", "/holo/backup/etc");
     ("/", "/holo")].
Proof. reflexivity. Qed.
(* ===================================================================== *)
(** * The integrity test and the copy of fileio.go, whatever fails *)
(* ===================================================================== *)

(** Every run of [IsNewerThan]. *)
Lemma IsNewerThan_cases (path1 path2 : string) (w : World) :
  (exists e, Fileio.IsNewerThan path1 path2 w
             = ((false, Some e), tick (SysLstat path1) w))
  \/ (exists n1 e,
         fs w !! path1 = Some n1
         /\ Fileio.IsNewerThan path1 path2 w
            = ((false, Some e), tick (SysLstat path2) (tick (SysLstat path1) w)))
  \/ (exists n1 n2,
         fs w !! path1 = Some n1 /\ fs w !! path2 = Some n2
         /\ Fileio.IsNewerThan path1 path2 w
            = ((if isSymlinkNode (Some n1) then false
                else After (mtime n1) (mtime n2), None),
               tick (SysLstat path2) (tick (SysLstat path1) w))).
Proof.
  unfold Fileio.IsNewerThan, bind.
  destruct (Lstat_cases path1 w) as [[e ->]|[n1 [H1 ->]]]; [left; eauto|].
  destruct (Lstat_cases path2 (tick (SysLstat path1) w))
    as [[e ->]|[n2 [H2 ->]]]; [right; left; eauto|].
  right; right. exists n1, n2. cbn [fs tick] in H2.
  split; [exact H1|]. split; [exact H2|].
  rewrite IsSymlink_infoOf. now destruct (isSymlinkNode (Some n1)).
Qed.

Lemma tick2 (c1 c2 : Syscall) (w : World) :
  tick c2 (tick c1 w)
  = {| fs := fs w; calls := calls w ++ [c1; c2]; out := out w; env := env w |}.
Proof. unfold tick. cbn. now rewrite <- app_assoc. Qed.


(** X2. The errors of [IsNewerThan], when nothing fails but for the files
    that are not there: a missing first file is reported and the second
    is not looked at; a missing second file is reported even when the
    first is a symlink, whose mtime would not count. *)
Theorem IsNewerThan_reports_the_missing_file
    (path1 path2 : string) (w : World) :
  calm (env w) ->
  (fs w !! path1 = None ->
   Fileio.IsNewerThan path1 path2 w
   = ((false, Some (PathError "lstat" path1 ENOENT)),
      tick (SysLstat path1) w))
  /\ (is_Some (fs w !! path1) -> fs w !! path2 = None ->
      Fileio.IsNewerThan path1 path2 w
      = ((false, Some (PathError "lstat" path2 ENOENT)),
         tick (SysLstat path2) (tick (SysLstat path1) w))).
Proof.
  intros Hc. unfold Fileio.IsNewerThan. split.
  - intros H1. erewrite bind_run by (apply Lstat_run; exact Hc).
    now rewrite H1.
  - intros [n1 H1] H2. erewrite bind_run by (apply Lstat_run; exact Hc).
    rewrite H1. cbv beta iota.
    erewrite bind_run by (apply Lstat_run; exact Hc).
    cbn [fs tick]. now rewrite H2.
Qed.

(** X3. [IsNewerThan] cannot hold in both directions: when the first file
    is newer than the second, the second is not newer than the first,
    whatever happens during the second test. *)
Theorem IsNewerThan_is_asymmetric (a b : string) (w w2 : World) :
  fst (fst (Fileio.IsNewerThan a b w)) = true ->
  fs w2 = fs w ->
  fst (fst (Fileio.IsNewerThan b a w2)) = false.
Proof.
  intros H Hfs.
  destruct (IsNewerThan_cases a b w)
    as [[e He]|[(n1 & e & H1 & He)|(na & nb & Ha & Hb & He)]];
    rewrite He in H; cbn [fst] in H; try discriminate.
  destruct (IsNewerThan_cases b a w2)
    as [[e ->]|[(n1 & e & H1 & ->)|(nb' & na' & Hb' & Ha' & ->)]];
    cbn [fst]; try reflexivity.
  rewrite Hfs in Ha', Hb'.
  assert (na' = na) as -> by congruence.
  assert (nb' = nb) as -> by congruence.
  destruct (isSymlinkNode (Some nb)); [reflexivity|].
  destruct (isSymlinkNode (Some na)); [discriminate|].
  now apply After_asym.
Qed.

Lemma notLink_kind (f : gmap string Node) (p : string) (m : Node) :
  f !! p = Some m -> kind m <> Symlink -> notLink f p.
Proof.
  intros H K. unfold notLink, isSymlinkNode. rewrite H.
  now destruct (kind m).
Qed.

(** Every run of [ApplyFilePermissions]: the output and the environment
    stay; either the file system stays as well, or the node at [toPath],
    which is not a symlink, has changed metadata, its mode being the
    mode of the source; without an error, the destination is a symlink
    or carries the metadata of the source. *)
Lemma ApplyFilePermissions_cases (fromPath toPath : string) (w : World) :
  let r := fst (Fileio.ApplyFilePermissions fromPath toPath w) in
  let w' := snd (Fileio.ApplyFilePermissions fromPath toPath w) in
  out w' = out w /\ env w' = env w
  /\ ((fs w' = fs w /\ (r = None -> isSymlinkNode (fs w !! toPath) = true))
      \/ exists s m m',
           fs w !! fromPath = Some s /\ fs w !! toPath = Some m
           /\ kind m <> Symlink
           /\ fs w' = <[toPath := m']> (fs w)
           /\ kind m' = kind m /\ data m' = data m
           /\ perm m' = Z.land (Mode (infoOf s)) chmodBits
           /\ (r = None -> m' = withMetadataOf s m)).
Proof.
  unfold Fileio.ApplyFilePermissions, bind.
  destruct (Lstat_cases fromPath w) as [[e ->]|[s [Hs ->]]].
  { cbn. split; [reflexivity|]. split; [reflexivity|]. left.
    split; [reflexivity|discriminate]. }
  destruct (Lstat_cases toPath (tick (SysLstat fromPath) w))
    as [[e ->]|[m [Hm ->]]].
  { cbn. split; [reflexivity|]. split; [reflexivity|]. left.
    split; [reflexivity|discriminate]. }
  cbn [fs tick] in Hm. rewrite IsSymlink_infoOf.
  destruct (isSymlinkNode (Some m)) eqn:Km; cbn [negb].
  { cbn. split; [reflexivity|]. split; [reflexivity|]. left.
    split; [reflexivity|]. intros _. now rewrite Hm. }
  assert (kind m <> Symlink) as Kne
    by (intros K; unfold isSymlinkNode in Km; rewrite K in Km; discriminate).
  unfold Chmod, Chown, Chtimes.
  match goal with |- context [syscall ?c ?op ?p (fun _ _ => updateNode ?g _) ?W] =>
    destruct (update_cases c op p g W) as [[e ->]|[q [n [Hq [Hn ->]]]]] end.
  { cbn. split; [reflexivity|]. split; [reflexivity|]. left.
    split; [reflexivity|discriminate]. }
  cbn [fs tick] in Hq, Hn.
  rewrite (follow_notLink _ _ (notLink_kind _ _ _ Hm Kne)) in Hq.
  injection Hq as <-. assert (n = m) as -> by congruence. clear Hn.
  match goal with |- context [syscall ?c ?op ?p (fun _ _ => updateNode ?g _) ?W] =>
    destruct (update_cases c op p g W) as [[e ->]|[q [n [Hq [Hn ->]]]]] end.
  { cbn. split; [reflexivity|]. split; [reflexivity|]. right.
    exists s, m, (setPerm (Mode (infoOf s)) m).
    repeat (split; [first [assumption|reflexivity]|]). discriminate. }
  cbn [fs tick setFs] in Hq, Hn.
  rewrite follow_notLink in Hq by (apply notLink_at_insert; exact Kne).
  injection Hq as <-. rewrite lookup_insert_eq in Hn. injection Hn as <-.
  match goal with |- context [syscall ?c ?op ?p (fun _ _ => updateNode ?g _) ?W] =>
    destruct (update_cases c op p g W) as [[e ->]|[q [n [Hq [Hn ->]]]]] end.
  { cbn. split; [reflexivity|]. split; [reflexivity|]. right.
    exists s, m, (setOwner (Uid (infoOf s)) (Gid (infoOf s))
                    (setPerm (Mode (infoOf s)) m)).
    split; [assumption|]. split; [assumption|]. split; [assumption|].
    split; [now rewrite insert_insert_eq|].
    split; [reflexivity|]. split; [reflexivity|].
    split; [reflexivity|]. discriminate. }
  cbn [fs tick setFs] in Hq, Hn.
  rewrite follow_notLink in Hq by (apply notLink_at_insert; exact Kne).
  injection Hq as <-. rewrite lookup_insert_eq in Hn. injection Hn as <-.
  cbn. split; [reflexivity|]. split; [reflexivity|]. right.
  exists s, m, (withMetadataOf s m).
  split; [assumption|]. split; [assumption|]. split; [assumption|].
  split; [now rewrite !insert_insert_eq|].
  split; [reflexivity|]. split; [reflexivity|].
  split; [reflexivity|]. reflexivity.
Qed.

(** [copyFileImpl] up to its last step: the read or the write fails and
    nothing has changed, or the content has been written where [toPath]
    leads and [ApplyFilePermissions] runs. *)
Lemma copyFileImpl_steps (fromPath toPath : string) (w : World) :
  (fst (Fileio.copyFileImpl fromPath toPath w) <> None
   /\ fs (snd (Fileio.copyFileImpl fromPath toPath w)) = fs w
   /\ out (snd (Fileio.copyFileImpl fromPath toPath w)) = out w
   /\ env (snd (Fileio.copyFileImpl fromPath toPath w)) = env w)
  \/ exists q W1,
       follow (fs w) toPath = inr q
       /\ (fs W1 = fs w
           \/ exists m1, kind m1 = Regular /\ fs W1 = <[q := m1]> (fs w))
       /\ out W1 = out w /\ env W1 = env w
       /\ Fileio.copyFileImpl fromPath toPath w
          = Fileio.ApplyFilePermissions fromPath toPath W1.
Proof.
  unfold Fileio.copyFileImpl, bind.
  destruct (ReadFile_cases fromPath w) as [[e ->]|(q0 & n0 & _ & _ & ->)].
  { left. cbn. repeat split. discriminate. }
  destruct (WriteFile_cases toPath (data n0) 384 (tick (SysReadFile fromPath) w))
    as [[e ->]|(q & f' & Hq & -> & Hf)].
  { left. cbn. repeat split. discriminate. }
  right. cbn [fs tick] in Hq, Hf. exists q. eexists.
  split; [exact Hq|]. split; [|split; [|split; [|reflexivity]]];
    cbn [fs out env tick setFs]; try reflexivity.
  destruct Hf as [[_ ->]|[(n & _ & K & ->)|(n & _ & _ & ->)]].
  - right. eexists. split; [|reflexivity]. reflexivity.
  - right. eexists. split; [|reflexivity]. exact K.
  - now left.
Qed.

(** [copySymlinkImpl] changes nothing but the destination, whatever
    happens. *)
Lemma copySymlinkImpl_frame (fromPath toPath : string) (w : World) :
  let w' := snd (Fileio.copySymlinkImpl fromPath toPath w) in
  out w' = out w /\ env w' = env w
  /\ forall q, q <> toPath -> fs w' !! q = fs w !! q.
Proof.
  unfold Fileio.copySymlinkImpl, bind.
  destruct (Readlink_cases fromPath w) as [[e ->]|(n & _ & _ & ->)].
  { cbn. auto. }
  destruct (IsManageableFile_cases toPath (tick (SysReadlink fromPath) w))
    as [->|(m & _ & _ & ->)].
  - cbn [ret].
    match goal with |- context [MkSymlink ?o ?p ?W] =>
      destruct (MkSymlink_cases o p W) as [[e ->]|[_ ->]] end;
      cbn [fst snd ret fs out env tick setFs]; repeat split; try reflexivity.
    intros q Hq. now rewrite lookup_insert_ne.
  - match goal with |- context [Remove ?p ?W] =>
      destruct (Remove_cases p W) as [[e ->]|(m' & _ & ->)] end.
    { cbn. auto. }
    cbn [ret].
    match goal with |- context [MkSymlink ?o ?p ?W] =>
      destruct (MkSymlink_cases o p W) as [[e ->]|[_ ->]] end;
      cbn [fst snd ret fs out env tick setFs]; repeat split; try reflexivity.
    + intros q Hq. now rewrite lookup_delete_ne.
    + intros q Hq. rewrite lookup_insert_ne by congruence.
      now rewrite lookup_delete_ne.
Qed.

(** A [copySymlinkImpl] that returns no error has read a symlink. *)
Lemma copySymlinkImpl_source (fromPath toPath : string) (w : World) :
  fst (Fileio.copySymlinkImpl fromPath toPath w) = None ->
  exists n, fs w !! fromPath = Some n /\ kind n = Symlink.
Proof.
  unfold Fileio.copySymlinkImpl, bind.
  destruct (Readlink_cases fromPath w) as [[e ->]|(n & Hn & K & ->)].
  - discriminate.
  - eauto.
Qed.

(** X4. Whatever happens, [CopyFile] prints nothing and changes no path but
    [toPath], provided that [toPath] is not a symlink or that the source
    is one. In particular it never changes its source. *)
Theorem CopyFile_changes_only_the_destination
    (fromPath toPath : string) (w : World) :
  notLink (fs w) toPath \/ isSymlinkNode (fs w !! fromPath) = true ->
  let w' := snd (Fileio.CopyFile fromPath toPath w) in
  out w' = out w /\ env w' = env w
  /\ forall q, q <> toPath -> fs w' !! q = fs w !! q.
Proof.
  intros H. unfold Fileio.CopyFile, bind.
  destruct (Lstat_cases fromPath w) as [[e ->]|[n [Hn ->]]].
  { cbn. auto. }
  rewrite IsRegular_infoOf.
  destruct (isRegularNode (Some n)) eqn:Kn.
  - (* a regular file: the destination is not a symlink *)
    destruct H as [Hto|Hl];
      [|rewrite Hn in Hl; unfold isRegularNode, isSymlinkNode in *;
        destruct (kind n); discriminate].
    destruct (copyFileImpl_steps fromPath toPath (tick (SysLstat fromPath) w))
      as [(_ & Hf & Ho & He)|(q & W1 & Hq & Hf & Ho & He & ->)].
    { cbn zeta. rewrite Hf, Ho, He. cbn. auto. }
    cbn [fs tick] in Hq, Hf. cbn [out env tick] in Ho, He.
    rewrite (follow_notLink _ _ Hto) in Hq. injection Hq as <-.
    destruct (ApplyFilePermissions_cases fromPath toPath W1)
      as (Ho' & He' & Hfs). cbn zeta in *.
    rewrite Ho', He', Ho, He. split; [reflexivity|]. split; [reflexivity|].
    intros x Hx.
    assert (fs W1 !! x = fs w !! x) as Hx1.
    { destruct Hf as [->|(m1 & _ & ->)]; [reflexivity|].
      now rewrite lookup_insert_ne. }
    destruct Hfs as [[-> _]|(s & m & m' & _ & _ & _ & -> & _)];
      [exact Hx1|].
    now rewrite lookup_insert_ne.
  - (* anything else goes to [copySymlinkImpl] *)
    destruct (copySymlinkImpl_frame fromPath toPath (tick (SysLstat fromPath) w))
      as (Ho & He & Hf).
    cbn zeta in *. rewrite Ho, He. cbn [out env tick fs] in *.
    split; [reflexivity|]. split; [reflexivity|]. exact Hf.
Qed.

(** After a [CopyFile] that returned no error, the destination is a
    symlink, or it has the mtime of the source. *)
Lemma CopyFile_success_shape (fromPath toPath : string) (w w' : World) :
  Fileio.CopyFile fromPath toPath w = (None, w') ->
  isSymlinkNode (fs w' !! toPath) = true
  \/ exists d s, fs w' !! toPath = Some d /\ fs w' !! fromPath = Some s
                 /\ mtime d = mtime s.
Proof.
  unfold Fileio.CopyFile, bind.
  destruct (Lstat_cases fromPath w) as [[e ->]|[n [Hn ->]]]; [discriminate|].
  destruct (IsRegular (Mode (infoOf n))).
  - intros H.
    destruct (copyFileImpl_steps fromPath toPath (tick (SysLstat fromPath) w))
      as [(Hr & _)|(q & W1 & _ & _ & _ & _ & E)].
    { rewrite H in Hr. now contradiction Hr. }
    rewrite E in H.
    destruct (ApplyFilePermissions_cases fromPath toPath W1)
      as (_ & _ & Hfs). rewrite H in Hfs. cbn [fst snd] in Hfs.
    destruct Hfs
      as [[-> Hl]|(s & m & m' & Hs & Hm & _ & -> & _ & _ & _ & Hm')].
    + left. now apply Hl.
    + right. rewrite (Hm' eq_refl). rewrite lookup_insert_eq.
      destruct (decide (fromPath = toPath)) as [->|Hne].
      * rewrite lookup_insert_eq. eauto.
      * rewrite lookup_insert_ne by congruence. eauto.
  - intros H.
    destruct (copySymlinkImpl_source fromPath toPath (tick (SysLstat fromPath) w))
      as (n' & Hn' & K); [now rewrite H|].
    destruct (copySymlinkImpl_cases _ _ _ _ _ _ Hn' K H)
      as (cs & _ & _ & _ & _ & Hok).
    destruct (Hok eq_refl) as [[t ->] _].
    left. now rewrite lookup_insert_eq.
Qed.

(** X5. The copy resets the test: after any [CopyFile] that returned no
    error, whatever the source and the destination were, [IsNewerThan]
    does not find the destination newer than the source. *)
Theorem copy_is_not_newer_than_its_source
    (fromPath toPath : string) (w w' w2 : World) :
  Fileio.CopyFile fromPath toPath w = (None, w') ->
  fs w2 = fs w' ->
  fst (fst (Fileio.IsNewerThan toPath fromPath w2)) = false.
Proof.
  intros H Hfs.
  destruct (IsNewerThan_cases toPath fromPath w2)
    as [[e ->]|[(n1 & e & H1 & ->)|(d & s & Hd & Hs & ->)]];
    cbn [fst]; try reflexivity.
  rewrite Hfs in Hd, Hs.
  destruct (CopyFile_success_shape _ _ _ _ H)
    as [Hl|(d' & s' & Hd' & Hs' & Hm)].
  - rewrite Hd in Hl. now rewrite Hl.
  - assert (d' = d) as -> by congruence.
    assert (s' = s) as -> by congruence.
    destruct (isSymlinkNode (Some d)); [reflexivity|].
    rewrite Hm. apply After_irrefl.
Qed.

(** X6. [CopyFile] copies regular files and symlinks only: for a source that
    is missing or is something else (a directory, a device, ...) it
    returns an error after one or two reads, and changes nothing. *)
Theorem CopyFile_refuses_other_sources
    (fromPath toPath : string) (w : World) :
  isRegularNode (fs w !! fromPath) = false ->
  isSymlinkNode (fs w !! fromPath) = false ->
  exists err cs,
    Fileio.CopyFile fromPath toPath w
    = (Some err,
       {| fs := fs w; calls := calls w ++ cs; out := out w; env := env w |})
    /\ (cs = [SysLstat fromPath]
        \/ cs = [SysLstat fromPath; SysReadlink fromPath])
    /\ (calm (env w) ->
        match fs w !! fromPath with
        | None => err = PathError "lstat" fromPath ENOENT
                  /\ cs = [SysLstat fromPath]
        | Some _ => err = PathError "readlink" fromPath EINVAL
                    /\ cs = [SysLstat fromPath; SysReadlink fromPath]
        end).
Proof.
  intros Hr Hl. unfold Fileio.CopyFile, bind.
  destruct (Lstat_cases fromPath w) as [[e He]|[n [Hn He]]]; rewrite He.
  - exists e, [SysLstat fromPath]. split; [reflexivity|].
    split; [now left|]. intros Hc.
    rewrite (Lstat_run _ _ Hc) in He.
    destruct (fs w !! fromPath); [discriminate|].
    injection He as <-. now split.
  - rewrite IsRegular_infoOf. rewrite Hn in Hr, Hl. rewrite Hr.
    unfold Fileio.copySymlinkImpl, bind.
    destruct (Readlink_cases fromPath (tick (SysLstat fromPath) w))
      as [[e He2]|(n' & Hn' & K & _)].
    + rewrite He2. exists e, [SysLstat fromPath; SysReadlink fromPath].
      split; [unfold ret; now rewrite tick2|]. split; [now right|].
      intros Hc. rewrite Hn. split; [|reflexivity].
      unfold Readlink in He2.
      unfold syscall in He2. cbn [fs env tick clock calls] in He2.
      rewrite Hc in He2 by discriminate. rewrite Hn in He2.
      unfold isRegularNode, isSymlinkNode in Hr, Hl.
      destruct (kind n); try discriminate; now injection He2 as <-.
    + cbn [fs tick] in Hn'. assert (n' = n) as -> by congruence.
      unfold isSymlinkNode in Hl. rewrite K in Hl. discriminate.
Qed.




(** X8. A symlink is not copied over a directory: [IsManageableFile] finds
    nothing to remove at a destination that is neither a regular file nor
    a symlink, and [os.Symlink] fails with "file exists". Nothing is
    removed and nothing is made. *)
Theorem CopyFile_link_keeps_what_it_cannot_replace
    (fromPath toPath : string) (w : World) (n d : Node) :
  calm (env w) ->
  fs w !! fromPath = Some n -> kind n = Symlink ->
  fs w !! toPath = Some d -> kind d <> Regular -> kind d <> Symlink ->
  Fileio.CopyFile fromPath toPath w
  = (Some (PathError "symlink" (data n +:+ " " +:+ toPath) EEXIST),
     {| fs := fs w;
        calls := calls w ++ [SysLstat fromPath; SysReadlink fromPath;
                             SysLstat toPath; SysSymlink (data n) toPath];
        out := out w; env := env w |}).
Proof.
  intros Hc Hn Kn Hd Kr Kl. unfold Fileio.CopyFile.
  erewrite bind_run by (apply Lstat_run; exact Hc).
  rewrite Hn. cbv beta iota. rewrite IsRegular_infoOf.
  unfold isRegularNode. rewrite Kn.
  unfold Fileio.copySymlinkImpl, Readlink.
  erewrite bind_run.
  2:{ apply syscall_run with (a := data n) (f' := fs (tick (SysLstat fromPath) w)).
      - apply Hc. discriminate.
      - cbn [fs tick]. now rewrite Hn, Kn. }
  norm. unfold Fileio.IsManageableFile.
  erewrite bind_run.
  2:{ erewrite bind_run by (apply Lstat_run; exact Hc).
      norm. rewrite Hd. cbv beta iota.
      rewrite IsRegular_infoOf, IsSymlink_infoOf.
      unfold isRegularNode, isSymlinkNode.
      assert (match kind d with Regular => true | _ => false end
              || match kind d with Symlink => true | _ => false end = false)
        as -> by (destruct (kind d); try reflexivity; contradiction).
      reflexivity. }
  norm. erewrite bind_run by reflexivity.
  norm. unfold MkSymlink, syscall. unfold bind. wsimpl.
  rewrite Hc by discriminate. rewrite Hd.
  unfold ret, tick. wsimpl. rewrite <- !app_assoc. reflexivity.
Qed.

(** X9. [ApplyFilePermissions] touches metadata only: whatever happens, it
    prints nothing, no path but [toPath] changes, and no node appears,
    disappears, or changes its kind or its content. *)
Theorem ApplyFilePermissions_keeps_content
    (fromPath toPath : string) (w : World) :
  let w' := snd (Fileio.ApplyFilePermissions fromPath toPath w) in
  out w' = out w
  /\ (forall q, q <> toPath -> fs w' !! q = fs w !! q)
  /\ (forall q, (kind <$> fs w' !! q) = (kind <$> fs w !! q)
                /\ (data <$> fs w' !! q) = (data <$> fs w !! q)).
Proof.
  destruct (ApplyFilePermissions_cases fromPath toPath w) as (Ho & _ & Hfs).
  cbn zeta in *. split; [exact Ho|].
  destruct Hfs as [[-> _]|(s & m & m' & _ & Hm & _ & -> & K & D & _)].
  - split; [reflexivity|]. now split.
  - split.
    + intros q Hq. now rewrite lookup_insert_ne.
    + intros q. destruct (decide (q = toPath)) as [->|Hq].
      * rewrite lookup_insert_eq, Hm. cbn. now rewrite K, D.
      * now rewrite lookup_insert_ne by congruence.
Qed.


(* ===================================================================== *)
(** * What one entry can change *)
(* ===================================================================== *)

Lemma hoare_conj {A} (P P' : World -> Prop) (Q Q' : A -> World -> Prop)
    (m : IO A) :
  hoare P m Q -> hoare P' m Q' ->
  hoare (fun W => P W /\ P' W) m (fun a W => Q a W /\ Q' a W).
Proof. intros H H' W [HP HP']. split; [now apply H | now apply H']. Qed.

(** The steps before the last keep every node that is there and is not
    at the backup or side-car path. *)
Section FrameAt.

Context (q b : string) (o : option Node).
Context (Hqb : q <> b).
Context (r : Related).
Context (Hb : backupPath r = b).
Context (Hqp : q <> pacnewPath r).

Lemma frame_at_step1 :
  hoare (kept q b o) (step1 r) (fun _ => kept q b o).
Proof.
  unfold step1, panic.
  eapply hoare_bind; [apply frame_isRegularFile'|].
  intros [|]; cbn [negb]; now apply hoare_ret.
Qed.

Lemma frame_at_step2 :
  is_Some o -> hoare (kept q b o) (step2 r) (fun _ => kept q b o).
Proof.
  intros Ho. unfold step2, panic. rewrite Hb.
  eapply hoare_bind; [apply frame_isRegularFile'|].
  intros isBackup. destruct isBackup; cbn [negb]; [now apply hoare_ret|].
  eapply hoare_bind; [apply frame_msg|]. intros ?.
  eapply hoare_bind; [now apply frame_MkdirAll|].
  intros [err|[]]; [now apply hoare_ret|].
  eapply hoare_pbind; [now apply frame_copyFile | now intros | ].
  intros ?. now apply hoare_ret.
Qed.

Lemma frame_at_step2_5 :
  hoare (kept q b o) (step2_5 r) (fun _ => kept q b o).
Proof.
  unfold step2_5. rewrite Hb.
  eapply hoare_bind; [apply frame_isRegularFile'|].
  intros isPacnew. destruct isPacnew; [|now apply hoare_ret].
  eapply hoare_bind; [apply frame_msg|]. intros ?.
  eapply hoare_pbind; [now apply frame_copyFile | now intros | ].
  intros ?. eapply hoare_bind; [now apply frame_Remove|].
  intros ?. now apply hoare_ret.
Qed.

(** The check of the last step reads only. *)
Lemma frame_at_check (repoPath : string) (skipIntegrityCheck : bool) :
  hoare (kept q b o)
    (if negb skipIntegrityCheck
     then isNewerThan (targetPath r) repoPath
     else ret (inr false))
    (fun _ => kept q b o).
Proof.
  destruct skipIntegrityCheck; cbn [negb];
    [now apply hoare_ret | apply frame_isNewerThan].
Qed.

End FrameAt.

(** Step 1 lets only regular targets through. *)
Lemma frame_step1_regular (t b : string) (o : option Node) (r : Related) :
  targetPath r = t ->
  hoare (kept t b o) (step1 r)
    (fun res W => kept t b o W
                  /\ (forall u, res = inr u -> isRegularNode o = true)).
Proof.
  intros Ht. unfold step1, panic. rewrite Ht.
  eapply hoare_bind; [apply frame_isRegularFile|].
  intros [|]; cbn [negb]; apply hoare_ret.
  - intros W [HW Hreg]. split; [exact HW|]. intros _ _.
    specialize (Hreg eq_refl). destruct HW as [HtW _]. now rewrite HtW in Hreg.
  - intros W [HW _]. split; [exact HW | discriminate].
Qed.

(** The file system [walkRepo] leaves is the one its body leaves. *)
Lemma walkRepo_fs (repoPath : string) (repoInfo : FileInfo) (w : World) :
  fs (snd (walkRepo repoPath repoInfo None w))
  = if IsRegular (Mode repoInfo) then fs (snd (walkRepoBody repoPath w))
    else fs w.
Proof.
  unfold walkRepo. destruct (IsRegular (Mode repoInfo)); cbn [negb];
    [|reflexivity].
  unfold bind. destruct (walkRepoBody repoPath w) as [[message|u] w1];
    reflexivity.
Qed.

Lemma frame_steps_at (repoPath : string) (r : Related) (q : string)
    (n : Node) (o : option Node) :
  Layout repoPath r ->
  applicationStrategy r = applyCopy \/ applicationStrategy r = applyProgram ->
  q <> targetPath r -> q <> backupPath r -> q <> pacnewPath r ->
  hoare (keptBoth q (targetPath r) (backupPath r) n o)
    (walkRepoSteps repoPath r)
    (fun _ W => fs W !! q = Some n).
Proof.
  intros L Hs Hqt Hqb Hqp. unfold walkRepoSteps, keptBoth.
  pose proof (lay_tb _ _ L) as Htb. pose proof (lay_tp _ _ L) as Htp.
  set (t := targetPath r) in *. set (b := backupPath r) in *.
  eapply hoare_pbind.
  { apply hoare_conj;
      [now apply frame_at_step1 | now apply frame_step1_regular]. }
  { intros message W [[HW _] _]. exact HW. }
  intros u.
  eapply hoare_pbind
    with (R := fun _ W => (kept q b (Some n) W /\ kept t b o W)
                          /\ isRegularNode o = true).
  { intros W [Hq [Ht Hreg]]. specialize (Hreg u eq_refl).
    split; [|exact Hreg]. split.
    - apply (frame_at_step2 q b (Some n) Hqb r eq_refl); [eauto|exact Hq].
    - apply (frame_at_step2 t b o Htb r eq_refl); [|exact Ht].
      destruct o; [eauto|discriminate]. }
  { intros message W [[[HW _] _] _]. exact HW. }
  intros skip.
  eapply hoare_pbind
    with (R := fun _ W => (kept q b (Some n) W /\ kept t b o W)
                          /\ isRegularNode o = true).
  { intros W [[Hq Ht] Hreg]. split; [|exact Hreg]. split.
    - now apply (frame_at_step2_5 q b (Some n) Hqb r eq_refl Hqp).
    - now apply (frame_at_step2_5 t b o Htb r eq_refl Htp). }
  { intros message W [[[HW _] _] _]. exact HW. }
  intros _. unfold step3, panic.
  eapply hoare_pbind
    with (R := fun _ W => (kept q b (Some n) W /\ kept t b o W)
                          /\ isRegularNode o = true).
  { intros W [[Hq Ht] Hreg]. split; [|exact Hreg]. split.
    - now apply (frame_at_check q b (Some n) r repoPath skip).
    - now apply (frame_at_check t b o r repoPath skip). }
  { intros message W [[[HW _] _] _]. exact HW. }
  intros modified. destruct modified.
  { apply hoare_ret. intros W [[[HW _] _] _]. exact HW. }
  eapply hoare_bind
    with (R := fun _ W => (kept q b (Some n) W /\ kept t b o W)
                          /\ isRegularNode o = true).
  { intros W H. exact H. }
  intros _ W [[[Hq _] [Ht _]] Hreg].
  destruct Hs as [-> | ->]; [|exact Hq].
  unfold applyCopy.
  apply (frame_copyFile q t (Some n) Hqt repoPath W).
  split; [exact Hq|]. fold t. apply regular_notLink. now rewrite Ht.
Qed.

(** X10. One entry changes its own paths only: whatever happens, a node that
    was there before [walkRepo] ran is there afterwards, unchanged,
    unless it sits at the target, backup or side-car path of the entry;
    in particular the repository file itself is never written. The
    backup path must not hold a symlink, which the copy would follow. *)
Theorem entry_changes_only_its_own_paths
    (repoPath rel : string) (repoInfo : FileInfo) (w : World) :
  Entry repoPath rel ->
  notLink (fs w) (backupOf rel) ->
  (forall q n,
      fs w !! q = Some n ->
      q <> targetOf rel -> q <> backupOf rel -> q <> pacnewOf rel ->
      fs (snd (walkRepo repoPath repoInfo None w)) !! q = Some n)
  /\ (forall rn,
        fs w !! repoPath = Some rn ->
        fs (snd (walkRepo repoPath repoInfo None w)) !! repoPath = Some rn).
Proof.
  intros E Hb.
  assert (forall q n,
             fs w !! q = Some n ->
             q <> targetOf rel -> q <> backupOf rel -> q <> pacnewOf rel ->
             fs (snd (walkRepo repoPath repoInfo None w)) !! q = Some n) as H.
  { intros q n Hq Hqt Hqb Hqp. rewrite walkRepo_fs.
    destruct (IsRegular (Mode repoInfo)); [|exact Hq].
    unfold walkRepoBody. rewrite (entry_related _ _ E).
    apply (frame_steps_at repoPath (relatedOf repoPath rel) q n
             (fs w !! targetOf rel)).
    - now apply entry_layout.
    - apply strategyOf_cases.
    - exact Hqt.
    - exact Hqb.
    - exact Hqp.
    - split; split; cbn [targetPath backupPath relatedOf]; auto. }
  split; [exact H|].
  intros rn Hr. pose proof (entry_layout _ _ E) as L.
  apply H; [exact Hr| | |].
  - exact (lay_rt _ _ L).
  - exact (lay_rb _ _ L).
  - exact (lay_rp _ _ L).
Qed.


(* ===================================================================== *)
(** * Entries that are refused *)
(* ===================================================================== *)

(** Step 1, whatever fails: a target that is not a regular file stops
    the entry after one look. *)
Lemma step1_refuses (r : Related) (w : World) :
  isRegularNode (fs w !! targetPath r) = false ->
  step1 r w = (inl (notRegularText (targetPath r)),
               tick (SysLstat (targetPath r)) w).
Proof.
  intros H. unfold step1, isRegularFile, bind.
  destruct (Lstat_cases (targetPath r) w) as [[e ->]|[n [Hn ->]]].
  - reflexivity.
  - rewrite IsRegular_infoOf. rewrite Hn in H. now rewrite H.
Qed.

(** X11. Files from the repository are installed over regular files only:
    when the target is missing, or is a directory, a symlink or anything
    else, [walkRepo] looks at it once, reports that it is not a regular
    file, and changes nothing. No call can fail in a way that changes
    this, and it holds for every path [walkRepo] is called with. *)
Theorem target_must_be_a_regular_file
    (repoPath : string) (repoInfo : FileInfo) (w : World) :
  IsRegular (Mode repoInfo) = true ->
  isRegularNode (fs w !! targetPath (related repoPath)) = false ->
  walkRepo repoPath repoInfo None w
  = (None,
     {| fs := fs w;
        calls := calls w ++ [SysLstat (targetPath (related repoPath))];
        out := out w
               ++ [msgLine msgError
                     (notRegularText (targetPath (related repoPath)))];
        env := env w |}).
Proof.
  intros Hi Ht.
  erewrite walkRepo_panic; [ | exact Hi | ].
  2:{ unfold walkRepoBody, walkRepoSteps.
      erewrite pbind_panic; [reflexivity|].
      now apply step1_refuses. }
  reflexivity.
Qed.

(** [os.MkdirAll] over something that is not a directory. *)
Lemma MkdirAll_blocked (p : string) (m : Z) (w : World) (d : Node) :
  calm (env w) -> fs w !! p = Some d ->
  kind d <> Directory -> kind d <> Symlink ->
  MkdirAll p m w
  = (inl (PathError "mkdir" p ENOTDIR), tick (SysMkdirAll p m) w).
Proof.
  intros Hc Hd Kd Kl. unfold MkdirAll, syscall.
  rewrite Hc by discriminate.
  rewrite (follow_notLink _ _ (notLink_kind _ _ _ Hd Kl)), Hd.
  destruct (kind d); try reflexivity; contradiction.
Qed.

(** X12. A first encounter needs a place for the backup: when something that
    is not a directory sits where the directory of the backup belongs,
    the entry stops there. The save is announced, the failure of
    [os.MkdirAll] is reported, and neither the backup nor the target is
    written. *)
Theorem blocked_backup_directory_stops_the_entry
    (repoPath rel : string) (repoInfo : FileInfo) (w : World)
    (tn d : Node) :
  Entry repoPath rel ->
  IsRegular (Mode repoInfo) = true ->
  calm (env w) ->
  fs w !! targetOf rel = Some tn -> kind tn = Regular ->
  isRegularNode (fs w !! backupOf rel) = false ->
  fs w !! Dir (backupOf rel) = Some d ->
  kind d <> Directory -> kind d <> Symlink ->
  walkRepo repoPath repoInfo None w
  = (None,
     {| fs := fs w;
        calls := calls w
                 ++ [SysLstat (targetOf rel); SysLstat (backupOf rel);
                     SysMkdirAll (Dir (backupOf rel)) 493];
        out := out w
               ++ [savingLine (targetOf rel);
                   msgLine msgError
                     (cannotCreate (Dir (backupOf rel))
                        (PathError "mkdir" (Dir (backupOf rel)) ENOTDIR))];
        env := env w |}).
Proof.
  intros E Hi Hc Ht Kt Hb Hd Kd Kl.
  erewrite walkRepo_panic; [ | exact Hi | ].
  2:{ unfold walkRepoBody. rewrite (entry_related _ _ E).
      unfold walkRepoSteps.
      erewrite pbind_run.
      2:{ apply step1_run; [exact Hc | now apply regular_node with tn]. }
      erewrite pbind_panic; [reflexivity|].
      unfold step2. cbn [targetPath backupPath relatedOf].
      erewrite bind_run by (apply isRegularFile_run; exact Hc).
      norm. rewrite Hb. cbn [negb].
      unfold msg at 1. unfold bind at 1. norm.
      erewrite bind_run.
      2:{ apply MkdirAll_blocked with (d := d); wsimpl; assumption. }
      reflexivity. }
  unfold print, tick, savingLine, cannotCreate. wsimpl.
  now rewrite <- !app_assoc.
Qed.


(* ===================================================================== *)
(** * Runs that install *)
(* ===================================================================== *)

(** The run over a tracked target that is not newer than the repository
    file, with no side-car artifact, when no call fails. *)
Lemma install_run_tracked
    (repoPath rel : string) (repoInfo : FileInfo) (w : World)
    (tn rn : Node) :
  Entry repoPath rel ->
  IsRegular (Mode repoInfo) = true ->
  calm (env w) ->
  fs w !! targetOf rel = Some tn -> kind tn = Regular ->
  isRegularNode (fs w !! backupOf rel) = true ->
  fs w !! repoPath = Some rn -> kind rn = Regular ->
  isRegularNode (fs w !! pacnewOf rel) = false ->
  After (mtime tn) (mtime rn) = false ->
  walkRepo repoPath repoInfo None w
  = (None,
     {| fs := installed repoPath rel rn (fs w);
        calls := calls w ++ checkCalls repoPath rel
                 ++ installCalls repoPath rel rn;
        out := out w ++ [installingLine (targetOf rel)];
        env := env w |}).
Proof.
  intros E Hi Hc Ht Kt Hb Hr Kr Hp Hold.
  eapply walkRepo_done; [exact Hi|].
  unfold walkRepoBody. rewrite (entry_related _ _ E). unfold walkRepoSteps.
  erewrite pbind_run.
  2:{ apply step1_run; [exact Hc | now apply regular_node with tn]. }
  erewrite pbind_run.
  2:{ apply step2_tracked; [exact Hc | exact Hb]. }
  erewrite pbind_run.
  2:{ apply step2_5_none; [exact Hc | exact Hp]. }
  erewrite step3_total with (tn := tn) (rn := rn); try eassumption.
  rewrite Hold. unfold checkCalls. wsimpl. norm.
  now rewrite <- !app_assoc.
Qed.

(** The run over a target met for the first time, with no side-car
    artifact, when no call fails. *)
Lemma install_run_first
    (repoPath rel : string) (repoInfo : FileInfo) (w : World)
    (tn rn : Node) :
  Entry repoPath rel ->
  IsRegular (Mode repoInfo) = true ->
  calm (env w) ->
  fs w !! targetOf rel = Some tn -> kind tn = Regular ->
  fs w !! backupOf rel = None ->
  dirOk (fs w) (Dir (backupOf rel)) ->
  fs w !! repoPath = Some rn -> kind rn = Regular ->
  isRegularNode (fs w !! pacnewOf rel) = false ->
  exists k cs ls,
    walkRepo repoPath repoInfo None w
    = (None,
       {| fs := installed repoPath rel rn
                  (<[backupOf rel := copyOf tn]>
                     (dirMade (Dir (backupOf rel)) k w));
          calls := calls w ++ cs;
          out := out w ++ ls;
          env := env w |}).
Proof.
  intros E Hi Hc Ht Kt Hb Hd Hr Kr Hp.
  pose proof (entry_layout _ _ E) as L.
  pose proof (lay_tb _ _ L) as Ltb. pose proof (lay_pb _ _ L) as Lpb.
  pose proof (lay_rb _ _ L) as Lrb.
  cbn [targetPath backupPath pacnewPath relatedOf] in Ltb, Lpb, Lrb.
  do 3 eexists.
  eapply walkRepo_done; [exact Hi|].
  unfold walkRepoBody. rewrite (entry_related _ _ E). unfold walkRepoSteps.
  erewrite pbind_run.
  2:{ apply step1_run; [exact Hc | now apply regular_node with tn]. }
  erewrite pbind_run.
  2:{ eapply (step2_first _ _ L) with (tn := tn); wsimpl;
        cbn [targetPath backupPath pacnewPath relatedOf]; eassumption. }
  erewrite pbind_run.
  2:{ apply step2_5_none; wsimpl;
        cbn [targetPath backupPath pacnewPath relatedOf]; [exact Hc|].
      rewrite lookup_insert_ne by congruence.
      rewrite dirMade_regular. exact Hp. }
  rewrite step3_first.
  cbn [targetPath backupPath pacnewPath relatedOf applicationStrategy].
  erewrite strategy_run with (tn := tn) (rn := rn); norm; try assumption.
  - rewrite <- !app_assoc. reflexivity.
  - rewrite lookup_insert_ne by congruence. now apply dirMade_lookup.
  - rewrite lookup_insert_ne by congruence. now apply dirMade_lookup.
Qed.

Lemma installed_copy (repoPath rel : string) (rn : Node)
    (f : gmap string Node) :
  HasSuffix repoPath ".holoscript" = false ->
  installed repoPath rel rn f = <[targetOf rel := copyOf rn]> f.
Proof. intros H. unfold installed. now rewrite H. Qed.

(** X13. After a run that installed, the target is not newer than the
    repository file and a second run finds nothing to do: when no call
    fails, a run of the copy strategy over a target met for the first
    time, or over a tracked target that is not newer than the repository
    file, leaves a copy of the repository file at the target; the run
    that follows checks, installs again, and leaves the file system as
    it found it. *)
Theorem second_run_changes_nothing
    (repoPath rel : string) (repoInfo : FileInfo) (w : World)
    (tn rn : Node) :
  Entry repoPath rel ->
  HasSuffix repoPath ".holoscript" = false ->
  IsRegular (Mode repoInfo) = true ->
  calm (env w) ->
  fs w !! targetOf rel = Some tn -> kind tn = Regular ->
  fs w !! repoPath = Some rn -> kind rn = Regular ->
  isRegularNode (fs w !! pacnewOf rel) = false ->
  (isRegularNode (fs w !! backupOf rel) = true
   /\ After (mtime tn) (mtime rn) = false)
  \/ (fs w !! backupOf rel = None /\ dirOk (fs w) (Dir (backupOf rel))) ->
  let w1 := snd (walkRepo repoPath repoInfo None w) in
  fs w1 !! targetOf rel = Some (copyOf rn)
  /\ walkRepo repoPath repoInfo None w1
     = (None,
        {| fs := fs w1;
           calls := calls w1 ++ checkCalls repoPath rel
                    ++ copyCalls repoPath (targetOf rel) rn;
           out := out w1 ++ [installingLine (targetOf rel)];
           env := env w1 |}).
Proof.
  intros E Hs Hi Hc Ht Kt Hr Kr Hp Hcase w1.
  pose proof (entry_layout _ _ E) as L.
  pose proof (lay_tb _ _ L) as Ltb. pose proof (lay_tp _ _ L) as Ltp.
  pose proof (lay_pb _ _ L) as Lpb. pose proof (lay_rt _ _ L) as Lrt.
  pose proof (lay_rb _ _ L) as Lrb.
  cbn [targetPath backupPath pacnewPath relatedOf] in Ltb, Ltp, Lpb, Lrt, Lrb.
  assert (exists g cs ls,
             w1 = {| fs := <[targetOf rel := copyOf rn]> g;
                     calls := calls w ++ cs; out := out w ++ ls;
                     env := env w |}
             /\ isRegularNode (g !! backupOf rel) = true
             /\ isRegularNode (g !! pacnewOf rel) = false
             /\ g !! repoPath = Some rn) as (g & cs & ls & -> & Hgb & Hgp & Hgr).
  { subst w1. destruct Hcase as [[Hb Hold]|[Hb Hd]].
    - rewrite (install_run_tracked repoPath rel repoInfo w tn rn)
        by assumption.
      cbn [snd]. rewrite installed_copy by exact Hs.
      exists (fs w). do 2 eexists. split; [reflexivity|]. auto.
    - destruct (install_run_first repoPath rel repoInfo w tn rn)
        as (k & cs & ls & ->); try assumption.
      cbn [snd]. rewrite installed_copy by exact Hs.
      do 3 eexists. split; [reflexivity|]. split; [|split].
      + now rewrite lookup_insert_eq.
      + rewrite lookup_insert_ne by congruence.
        now rewrite dirMade_regular.
      + rewrite lookup_insert_ne by congruence. now apply dirMade_lookup. }
  cbn [fs]. split; [apply lookup_insert_eq|].
  rewrite (install_run_tracked repoPath rel repoInfo _ (copyOf rn) rn);
    cbn [fs env calls out]; try assumption.
  - rewrite installed_copy by exact Hs. rewrite insert_insert_eq.
    unfold installCalls. now rewrite Hs.
  - apply lookup_insert_eq.
  - reflexivity.
  - now rewrite lookup_insert_ne by congruence.
  - now rewrite lookup_insert_ne by congruence.
  - now rewrite lookup_insert_ne by congruence.
  - apply After_irrefl.
Qed.

(* ===================================================================== *)
(** * The program strategy *)
(* ===================================================================== *)

(** With the program strategy, the steps keep the target. *)
Lemma frame_steps_program (repoPath : string) (r : Related)
    (o : option Node) :
  Layout repoPath r ->
  applicationStrategy r = applyProgram ->
  hoare (kept (targetPath r) (backupPath r) o)
    (walkRepoSteps repoPath r)
    (fun _ => kept (targetPath r) (backupPath r) o).
Proof.
  intros L Hs. unfold walkRepoSteps.
  pose proof (lay_tb _ _ L) as Htb. pose proof (lay_tp _ _ L) as Htp.
  set (t := targetPath r) in *. set (b := backupPath r) in *.
  eapply hoare_pbind; [now apply frame_step1_regular | |].
  { intros message W [HW _]. exact HW. }
  intros u.
  eapply hoare_pbind with (R := fun _ => kept t b o).
  { intros W [HW Hreg]. specialize (Hreg u eq_refl).
    apply (frame_at_step2 t b o Htb r eq_refl); [|exact HW].
    destruct o; [eauto|discriminate]. }
  { now intros. }
  intros skip.
  eapply hoare_pbind;
    [now apply (frame_at_step2_5 t b o Htb r eq_refl Htp) | now intros |].
  intros ?. unfold step3, panic. rewrite Hs.
  eapply hoare_pbind; [apply frame_at_check | now intros |].
  intros modified. destruct modified; [now apply hoare_ret|].
  eapply hoare_bind; [apply frame_msg|]. intros ?.
  unfold applyProgram. now apply hoare_ret.
Qed.

(** X14. The program strategy is a stub: for a repository file that ends in
    ".holoscript", whatever happens, the node at the target after
    [walkRepo] is the node that was there before, for as long as the
    backup path holds no symlink. Yet the target is saved and checked as
    for the copy strategy, and a run over a tracked target that passes
    the check announces the installation and changes nothing. *)
Theorem program_strategy_installs_nothing
    (repoPath rel : string) (repoInfo : FileInfo) (w : World) :
  Entry repoPath rel ->
  HasSuffix repoPath ".holoscript" = true ->
  (notLink (fs w) (backupOf rel) ->
   fs (snd (walkRepo repoPath repoInfo None w)) !! targetOf rel
   = fs w !! targetOf rel)
  /\ (forall tn rn,
        IsRegular (Mode repoInfo) = true ->
        calm (env w) ->
        fs w !! targetOf rel = Some tn -> kind tn = Regular ->
        isRegularNode (fs w !! backupOf rel) = true ->
        fs w !! repoPath = Some rn -> kind rn = Regular ->
        isRegularNode (fs w !! pacnewOf rel) = false ->
        After (mtime tn) (mtime rn) = false ->
        walkRepo repoPath repoInfo None w
        = (None,
           {| fs := fs w;
              calls := calls w ++ checkCalls repoPath rel;
              out := out w ++ [installingLine (targetOf rel)];
              env := env w |})).
Proof.
  intros E Hs. split.
  - intros Hb. rewrite walkRepo_fs.
    destruct (IsRegular (Mode repoInfo)); [|reflexivity].
    unfold walkRepoBody. rewrite (entry_related _ _ E).
    apply (frame_steps_program repoPath (relatedOf repoPath rel)
             (fs w !! targetOf rel)).
    + now apply entry_layout.
    + cbn [applicationStrategy relatedOf]. unfold strategyOf. now rewrite Hs.
    + split; [reflexivity|exact Hb].
  - intros tn rn Hi Hc Ht Kt Hb Hr Kr Hp Hold.
    rewrite (install_run_tracked repoPath rel repoInfo w tn rn)
      by assumption.
    unfold installed, installCalls. rewrite Hs. now rewrite app_nil_r.
Qed.


(* ===================================================================== *)
(** * [copyFile] and [isNewerThan] of the early tool *)
(* ===================================================================== *)

(** X15. The check of step 3 works because [copyFile] copies the mtime: when
    no call fails, after [copyFile] has copied a regular file onto
    nothing or onto a regular file, [isNewerThan] finds neither of the
    two newer than the other. *)
Theorem copyFile_leaves_nothing_newer
    (fromPath toPath : string) (w : World) (n : Node) :
  calm (env w) -> fs w !! fromPath = Some n -> kind n = Regular ->
  plain (fs w) toPath -> fromPath <> toPath ->
  let w1 := snd (copyFile fromPath toPath w) in
  fst (copyFile fromPath toPath w) = inr tt
  /\ fst (isNewerThan toPath fromPath w1) = inr false
  /\ fst (isNewerThan fromPath toPath w1) = inr false.
Proof.
  intros Hc Hn Kn Hp Hne w1. subst w1.
  rewrite (copyFile_run _ _ _ _ Hc Hn Kn Hp Hne). cbn [fst snd].
  split; [reflexivity|]. split.
  - erewrite isNewerThan_run with (n1 := copyOf n) (n2 := n);
      cbn [fs env]; try assumption; try reflexivity.
    + cbn [fst]. change (mtime (copyOf n)) with (mtime n).
      now rewrite After_irrefl.
    + apply lookup_insert_eq.
    + now rewrite lookup_insert_ne by congruence.
  - erewrite isNewerThan_run with (n1 := n) (n2 := copyOf n);
      cbn [fs env]; try assumption; try reflexivity.
    + cbn [fst]. change (mtime (copyOf n)) with (mtime n).
      now rewrite After_irrefl.
    + now rewrite lookup_insert_ne by congruence.
    + apply lookup_insert_eq.
Qed.

(** X16. [copyFile] reads before it writes: for a source that is not there,
    whatever else happens, it panics after the one attempt to read it,
    with the message that names both paths, and the destination is not
    touched. *)
Theorem copyFile_reads_before_it_writes
    (fromPath toPath : string) (w : World) :
  fs w !! fromPath = None ->
  exists err,
    copyFile fromPath toPath w
    = (inl (cannotCopy fromPath toPath err), tick (SysReadFile fromPath) w)
    /\ (calm (env w) -> err = PathError "open" fromPath ENOENT).
Proof.
  intros Hn. unfold copyFile, HoloApply.copyFileImpl, bind.
  destruct (ReadFile_cases fromPath w) as [[e He]|(q & n & Hq & Hqn & _)].
  - rewrite He. exists e. split; [reflexivity|].
    intros Hc. unfold ReadFile, syscall in He.
    rewrite Hc in He by discriminate.
    rewrite follow_notLink in He by (unfold notLink; now rewrite Hn).
    rewrite Hn in He. now injection He as <-.
  - rewrite follow_notLink in Hq by (unfold notLink; now rewrite Hn).
    injection Hq as <-. congruence.
Qed.

(* ===================================================================== *)
(** * [main] and the walk *)
(* ===================================================================== *)

Lemma IsDir_infoOf (n : Node) :
  IsDir (Mode (infoOf n)) = match kind n with Directory => true | _ => false end.
Proof.
  unfold IsDir.
  replace (Z.land (Mode (infoOf n)) ModeDir)
    with (Z.land (kindBits (kind n)) ModeDir).
  - now destruct (kind n).
  - rewrite <- Mode_type, <- Z.land_assoc. reflexivity.
Qed.

(** X17. [main] without a repository: when /holo/repo is missing, or is not a
    directory (a symlink to a directory is not one, the test does not
    follow it), [main] says so in one line and ends; nothing is walked
    and nothing is changed. *)
Theorem main_needs_the_repository_directory
    (visits : list (string * FileInfo * option string)) (w : World) :
  calm (env w) ->
  match fs w !! "/holo/repo" with
  | None =>
      main visits w
      = (tt,
         {| fs := fs w;
            calls := calls w ++ [SysLstat "/holo/repo"];
            out := out w
                   ++ [msgLine msgError
                         ("Cannot open /holo/repo: "
                          +:+ PathError "lstat" "/holo/repo" ENOENT)];
            env := env w |})
  | Some n =>
      kind n <> Directory ->
      main visits w
      = (tt,
         {| fs := fs w;
            calls := calls w ++ [SysLstat "/holo/repo"];
            out := out w
                   ++ [msgLine msgError
                         "Cannot open /holo/repo: not a directory!"];
            env := env w |})
  end.
Proof.
  intros Hc. unfold main.
  erewrite bind_run by (apply Lstat_run; exact Hc).
  destruct (fs w !! "/holo/repo") as [n|]; [|reflexivity].
  intros K. cbv beta iota. rewrite IsDir_infoOf.
  destruct (kind n); try reflexivity. contradiction.
Qed.

(** The walk over entries that come without an error goes through all of
    them. *)
Lemma Walk_app (pre rest : list (string * FileInfo * option string))
    (w : World) :
  Forall (fun v => snd v = None) pre ->
  Walk (pre ++ rest) walkRepo w = Walk rest walkRepo (snd (Walk pre walkRepo w)).
Proof.
  intros H. revert w. induction H as [|[[p i] e] pre He _ IH]; intros w.
  - reflexivity.
  - cbn [snd] in He. subst e. cbn [app Walk]. unfold bind.
    pose proof (walkRepo_returns_nil p i w) as Hnil.
    destruct (walkRepo p i None w) as [r w1]. cbn [fst] in Hnil. subst r.
    apply IH.
Qed.

(** X18. An entry that [filepath.Walk] could not read ends the run: [walkRepo]
    hands the error back, the walk stops there, and [main] drops the
    error. The entries before it are processed as usual; the entries
    after it are not processed, and nothing is printed about any of
    this. *)
Theorem inaccessible_entry_ends_the_walk
    (pre post : list (string * FileInfo * option string))
    (path : string) (info : FileInfo) (e : string) (w : World) :
  Forall (fun v => snd v = None) pre ->
  Walk (pre ++ (path, info, Some e) :: post) walkRepo w
  = (Some e, snd (Walk pre walkRepo w))
  /\ main (pre ++ (path, info, Some e) :: post) w = main pre w.
Proof.
  intros H.
  assert (Walk (pre ++ (path, info, Some e) :: post) walkRepo w
          = (Some e, snd (Walk pre walkRepo w))) as HW.
  { rewrite Walk_app by exact H. reflexivity. }
  split; [exact HW|].
  unfold main, bind. destruct (Lstat "/holo/repo" w) as [[err|repoInfo] w1];
    [reflexivity|].
  destruct (negb (IsDir (Mode repoInfo))); [reflexivity|].
  rewrite Walk_app by exact H. cbn [Walk]. unfold walkRepo at 1.
  unfold ret, bind. now destruct (Walk pre walkRepo w1).
Qed.

Lemma Walk_fold (visits : list (string * FileInfo * option string))
    (w : World) :
  Forall (fun v => snd v = None) visits ->
  Walk visits walkRepo w
  = (None,
     fold_left (fun W v => snd (walkRepo (fst (fst v)) (snd (fst v)) None W))
       visits w).
Proof.
  intros H. revert w. induction H as [|[[p i] e] visits He _ IH]; intros w.
  - reflexivity.
  - cbn [snd] in He. subst e. cbn [Walk fold_left fst snd]. unfold bind.
    pose proof (walkRepo_returns_nil p i w) as Hnil.
    destruct (walkRepo p i None w) as [r w1]. cbn [fst snd] in *. subst r.
    apply IH.
Qed.

(** X19. [main] over a repository: when /holo/repo is a directory and the
    walk could read every entry, [main] looks at /holo/repo once and
    then runs [walkRepo] on every entry, in the order of the walk, each
    on the world the one before it left; what happens to one entry never
    keeps the next from its turn. *)
Theorem main_walks_every_entry
    (visits : list (string * FileInfo * option string)) (w : World)
    (n : Node) :
  calm (env w) ->
  fs w !! "/holo/repo" = Some n -> kind n = Directory ->
  Forall (fun v => snd v = None) visits ->
  main visits w
  = (tt,
     fold_left (fun W v => snd (walkRepo (fst (fst v)) (snd (fst v)) None W))
       visits (tick (SysLstat "/holo/repo") w)).
Proof.
  intros Hc Hn Kn Hv. unfold main.
  erewrite bind_run by (apply Lstat_run; exact Hc).
  rewrite Hn. cbv beta iota. rewrite IsDir_infoOf, Kn. cbn [negb].
  erewrite bind_run by (apply Walk_fold; exact Hv).
  reflexivity.
Qed.


(* ===================================================================== *)
(** * What no call breaks *)
(* ===================================================================== *)

(** Properties of the world that survive the count of a call, a new node
    where there was none, the replacement of a node by one of its kind,
    and the removal of the paths in [D], survive the functions of the
    early tool that only issue calls. A new node is a regular file made
    by [ioutil.WriteFile] or a directory made by [os.MkdirAll]. *)
Section Stable.

Context (P : World -> Prop) (D : string -> Prop).
Context (P_tick : forall c W, P W -> P (tick c W)).
Context (P_newFile : forall c W q n,
            P W -> fs W !! q = None -> kind n = Regular ->
            P (tick c (setFs (<[q := n]> (fs W)) W))).
Context (P_newDir : forall c W q n,
            P W -> fs W !! q = None -> kind n = Directory ->
            P (tick c (setFs (<[q := n]> (fs W)) W))).
Context (P_same : forall c W q n n',
            P W -> fs W !! q = Some n -> kind n' = kind n ->
            P (tick c (setFs (<[q := n']> (fs W)) W))).
Context (P_delete : forall c W p,
            P W -> D p -> P (tick c (setFs (delete p (fs W)) W))).

Lemma stable_Lstat (p : string) : hoare P (Lstat p) (fun _ => P).
Proof.
  intros W H. destruct (Lstat_cases p W) as [[e ->]|[n [_ ->]]];
    now apply P_tick.
Qed.

Lemma stable_Stat (p : string) : hoare P (Stat p) (fun _ => P).
Proof.
  intros W H. destruct (Stat_cases p W) as [[e ->]|(q & n & _ & _ & ->)];
    now apply P_tick.
Qed.

Lemma stable_ReadFile (p : string) : hoare P (ReadFile p) (fun _ => P).
Proof.
  intros W H.
  destruct (ReadFile_cases p W) as [[e ->]|(q & n & _ & _ & ->)];
    now apply P_tick.
Qed.

Lemma stable_WriteFile (p content : string) (m : Z) :
  hoare P (WriteFile p content m) (fun _ => P).
Proof.
  intros W H.
  destruct (WriteFile_cases p content m W)
    as [[e ->]|(q & f' & _ & -> & Hf)]; cbn [snd]; [now apply P_tick|].
  destruct Hf as [[Hq ->]|[(n & Hq & K & ->)|(n & _ & _ & ->)]].
  - now apply P_newFile.
  - now apply P_same with n.
  - rewrite setFs_id. now apply P_tick.
Qed.

Lemma stable_update (c : Syscall) (op p : string) (g : Node -> Node) :
  (forall n, kind (g n) = kind n) ->
  hoare P (syscall c op p (fun _ _ => updateNode g p)) (fun _ => P).
Proof.
  intros Hg W H.
  destruct (update_cases c op p g W) as [[e ->]|(q & n & _ & Hq & ->)];
    cbn [snd]; [now apply P_tick|].
  now apply P_same with n.
Qed.

Lemma stable_MkdirAll (p : string) (m : Z) :
  hoare P (MkdirAll p m) (fun _ => P).
Proof.
  intros W H.
  destruct (MkdirAll_cases p m W) as [[r ->]|(q & Hq & ->)]; cbn [snd].
  - now apply P_tick.
  - now apply P_newDir.
Qed.

Lemma stable_Remove (p : string) :
  D p -> hoare P (Remove p) (fun _ => P).
Proof.
  intros Hp W H.
  destruct (Remove_cases p W) as [[e ->]|(n & _ & ->)]; cbn [snd].
  - now apply P_tick.
  - now apply P_delete.
Qed.

Lemma stable_isRegularFile (p : string) :
  hoare P (isRegularFile p) (fun _ => P).
Proof.
  unfold isRegularFile. eapply hoare_bind; [apply stable_Lstat|].
  intros [e|info]; now apply hoare_ret.
Qed.

Lemma stable_isNewerThan (p1 p2 : string) :
  hoare P (isNewerThan p1 p2) (fun _ => P).
Proof.
  unfold isNewerThan, panic. eapply hoare_bind; [apply stable_Stat|].
  intros [e|info1]; [now apply hoare_ret|].
  eapply hoare_bind; [apply stable_Stat|].
  intros [e|info2]; now apply hoare_ret.
Qed.

Lemma stable_copyFileImpl (fromPath toPath : string) :
  hoare P (HoloApply.copyFileImpl fromPath toPath) (fun _ => P).
Proof.
  unfold HoloApply.copyFileImpl, Chmod, Chown, Chtimes.
  eapply hoare_bind; [apply stable_ReadFile|].
  intros [e|content]; [now apply hoare_ret|].
  eapply hoare_bind; [apply stable_WriteFile|].
  intros [e|u]; [now apply hoare_ret|].
  eapply hoare_bind; [apply stable_Stat|].
  intros [e|info]; [now apply hoare_ret|].
  eapply hoare_bind; [now apply stable_update|].
  intros [e|u1]; [now apply hoare_ret|].
  eapply hoare_bind; [now apply stable_update|].
  intros [e|u2]; [now apply hoare_ret|].
  eapply hoare_bind; [now apply stable_update|].
  intros [e|u3]; now apply hoare_ret.
Qed.

Lemma stable_copyFile (fromPath toPath : string) :
  hoare P (copyFile fromPath toPath) (fun _ => P).
Proof.
  unfold copyFile, panic. eapply hoare_bind; [apply stable_copyFileImpl|].
  intros [e|]; now apply hoare_ret.
Qed.

(** With the lines that [msg] prints, the steps of [walkRepo]. *)
Context (P_print : forall line W, P W -> P (print line W)).

Lemma stable_msg (color message : string) :
  hoare P (msg color message) (fun _ => P).
Proof. intros W H. now apply P_print. Qed.

Lemma stable_steps (repoPath : string) (r : Related) :
  D (pacnewPath r) ->
  applicationStrategy r = applyCopy \/ applicationStrategy r = applyProgram ->
  hoare P (walkRepoSteps repoPath r) (fun _ => P).
Proof.
  intros Hp Hs. unfold walkRepoSteps.
  eapply hoare_pbind with (R := fun _ => P); [|now intros|].
  { unfold step1, panic. eapply hoare_bind; [apply stable_isRegularFile|].
    intros [|]; now apply hoare_ret. }
  intros ?.
  eapply hoare_pbind with (R := fun _ => P); [|now intros|].
  { unfold step2, panic. eapply hoare_bind; [apply stable_isRegularFile|].
    intros [|]; cbn [negb]; [now apply hoare_ret|].
    eapply hoare_bind; [apply stable_msg|]. intros ?.
    eapply hoare_bind; [apply stable_MkdirAll|].
    intros [e|u]; [now apply hoare_ret|].
    eapply hoare_pbind with (R := fun _ => P);
      [apply stable_copyFile | now intros |].
    intros ?. now apply hoare_ret. }
  intros skip.
  eapply hoare_pbind with (R := fun _ => P); [|now intros|].
  { unfold step2_5. eapply hoare_bind; [apply stable_isRegularFile|].
    intros [|]; [|now apply hoare_ret].
    eapply hoare_bind; [apply stable_msg|]. intros ?.
    eapply hoare_pbind with (R := fun _ => P);
      [apply stable_copyFile | now intros |].
    intros ?. eapply hoare_bind; [now apply stable_Remove|].
    intros ?. now apply hoare_ret. }
  intros ?. unfold step3, panic.
  eapply hoare_pbind with (R := fun _ => P); [|now intros|].
  { destruct skip; cbn [negb];
      [now apply hoare_ret | apply stable_isNewerThan]. }
  intros [|]; [now apply hoare_ret|].
  eapply hoare_bind; [apply stable_msg|]. intros ?.
  destruct Hs as [-> | ->].
  - apply stable_copyFile.
  - unfold applyProgram. now apply hoare_ret.
Qed.

Lemma stable_walkRepo (repoPath : string) (repoInfo : FileInfo)
    (err : option string) :
  D (pacnewPath (related repoPath)) ->
  hoare P (walkRepo repoPath repoInfo err) (fun _ => P).
Proof.
  intros Hp. unfold walkRepo. destruct err as [e|]; [now apply hoare_ret|].
  destruct (IsRegular (Mode repoInfo)); cbn [negb]; [|now apply hoare_ret].
  eapply hoare_bind.
  - apply stable_steps; [exact Hp|].
    unfold related. destruct (HasSuffix repoPath ".holoscript"); cbn; auto.
  - intros [message|u]; [|now apply hoare_ret].
    eapply hoare_bind; [apply stable_msg|]. intros ?. now apply hoare_ret.
Qed.

End Stable.

(** X20. [walkRepo] takes nothing away: whatever the entry, the world and the
    failures, every node that is there before the run is there after it
    and is of the same kind, but for the side-car artifact that step 2.5
    removes. *)
Theorem walkRepo_removes_nothing_but_the_sidecar
    (repoPath : string) (repoInfo : FileInfo) (err : option string)
    (w : World) (x : string) (n : Node) :
  fs w !! x = Some n ->
  x <> pacnewPath (related repoPath) ->
  exists n',
    fs (snd (walkRepo repoPath repoInfo err w)) !! x = Some n'
    /\ kind n' = kind n.
Proof.
  intros Hx Hp.
  assert (stays x (kind n) (snd (walkRepo repoPath repoInfo err w))) as H.
  { apply (stable_walkRepo (stays x (kind n)) (fun p => p <> x)).
    - intros c W H. exact H.
    - intros c W q m H Hq _. unfold stays in *. cbn [fs tick setFs].
      rewrite lookup_insert_ne; [exact H|].
      intros ->. rewrite Hq in H. discriminate.
    - intros c W q m H Hq _. unfold stays in *. cbn [fs tick setFs].
      rewrite lookup_insert_ne; [exact H|].
      intros ->. rewrite Hq in H. discriminate.
    - intros c W q m m' H Hq K. unfold stays in *. cbn [fs tick setFs].
      destruct (decide (q = x)) as [->|Hne].
      + rewrite lookup_insert_eq. rewrite Hq in H. cbn in *. congruence.
      + now rewrite lookup_insert_ne.
    - intros c W p H Hne. unfold stays in *. cbn [fs tick setFs].
      now rewrite lookup_delete_ne.
    - intros line W H. exact H.
    - congruence.
    - unfold stays. now rewrite Hx. }
  unfold stays in H.
  destruct (fs (snd (walkRepo repoPath repoInfo err w)) !! x) as [n'|];
    [|discriminate].
  exists n'. split; [reflexivity|]. cbn in H. congruence.
Qed.


(* ===================================================================== *)
(** * What the output says *)
(* ===================================================================== *)

Lemma related_strategy (repoPath : string) :
  applicationStrategy (related repoPath) = applyCopy
  \/ applicationStrategy (related repoPath) = applyProgram.
Proof.
  unfold related. destruct (HasSuffix repoPath ".holoscript"); cbn; auto.
Qed.

(** When the steps end without a panic, the last line printed is the
    announcement of the installation. *)
Lemma steps_end_with_installing (repoPath : string) (r : Related) :
  applicationStrategy r = applyCopy \/ applicationStrategy r = applyProgram ->
  hoare (fun _ => True) (walkRepoSteps repoPath r)
    (fun res W => forall u, res = inr u ->
                  lastLine (installingLine (targetPath r)) W).
Proof.
  intros Hs. unfold walkRepoSteps.
  eapply hoare_pbind with (R := fun _ _ => True);
    [now intros | discriminate |].
  intros ?.
  eapply hoare_pbind with (R := fun _ _ => True);
    [now intros | discriminate |].
  intros skip.
  eapply hoare_pbind with (R := fun _ _ => True);
    [now intros | discriminate |].
  intros ?. unfold step3, panic.
  eapply hoare_pbind with (R := fun _ _ => True);
    [now intros | discriminate |].
  intros [|]; [apply hoare_ret; discriminate|].
  eapply hoare_bind
    with (R := fun _ => lastLine (installingLine (targetPath r))).
  { intros W _. unfold lastLine, msg, print. cbn [snd out].
    apply last_last. }
  intros ?.
  eapply hoare_weaken
    with (Q' := fun _ => lastLine (installingLine (targetPath r)));
    [ | intros W H; exact H | now intros ].
  destruct Hs as [-> | ->].
  - apply stable_copyFile; now intros.
  - unfold applyProgram. now apply hoare_ret.
Qed.

(** X21. The last line tells the outcome: for every regular file of the
    repository, whatever happens, [walkRepo] only adds to the output,
    and the last line is the announcement "Installing <target>" when the
    steps went through, and the message of the panic, as an error line,
    when they did not. *)
Theorem last_line_tells_the_outcome
    (repoPath : string) (repoInfo : FileInfo) (w : World) :
  IsRegular (Mode repoInfo) = true ->
  let w' := snd (walkRepo repoPath repoInfo None w) in
  (exists ls, out w' = (out w ++ ls)%list)
  /\ List.last (out w') ""
     = match fst (walkRepoBody repoPath w) with
       | inl message => msgLine msgError message
       | inr _ => installingLine (targetPath (related repoPath))
       end.
Proof.
  intros Hi w'. split.
  - apply (stable_walkRepo (extends (out w)) (fun _ => True)).
    + now intros.
    + now intros.
    + now intros.
    + now intros.
    + now intros.
    + intros line W [ls H]. exists (ls ++ [line])%list.
      unfold print. cbn [out]. now rewrite H, app_assoc.
    + exact I.
    + exists []. now rewrite app_nil_r.
  - subst w'. unfold walkRepo. rewrite Hi. cbn [negb]. unfold bind.
    pose proof (steps_end_with_installing repoPath (related repoPath)
                  (related_strategy repoPath) w I) as H.
    unfold walkRepoBody in *.
    destruct (walkRepoSteps repoPath (related repoPath) w)
      as [[message|u] w1]; cbn [fst snd] in *.
    + unfold msg, print, ret. cbn [snd out]. apply last_last.
    + unfold ret. cbn [snd]. exact (H u eq_refl).
Qed.


(* ===================================================================== *)
(** * The side-car artifact is not lost *)
(* ===================================================================== *)












(* ===================================================================== *)
(** * A copy onto a symlink *)
(* ===================================================================== *)

Lemma follow_link (f : gmap string Node) (p x : string) (l : Node) :
  f !! p = Some l -> kind l = Symlink -> linkDest p (data l) = x ->
  notLink f x -> follow f p = inr x.
Proof.
  intros Hl Kl Hx Hn. unfold follow, maxSymlinks.
  rewrite resolve_eq, Hl, Kl, Hx, resolve_eq.
  unfold notLink, isSymlinkNode in Hn.
  destruct (f !! x) as [n|]; [|reflexivity].
  destruct (kind n); try reflexivity. discriminate.
Qed.

(** X23. [CopyFile] of a regular file onto a symlink writes through the
    link and copies no metadata: when no call fails and the link leads
    to nothing or to a regular file, the content is written where the
    link leads, [ApplyFilePermissions] finds a symlink at the destination
    and stops after its two [os.Lstat] calls, and [CopyFile] returns no
    error. The link stays; the file behind it has the content of the
    source, and the mode and owner it had, or those of a file the process
    has just made with mode 0600. *)
Theorem CopyFile_writes_through_a_symlink
    (fromPath toPath x : string) (w : World) (n l : Node) :
  calm (env w) ->
  fs w !! fromPath = Some n -> kind n = Regular ->
  fs w !! toPath = Some l -> kind l = Symlink ->
  linkDest toPath (data l) = x -> plain (fs w) x ->
  Fileio.CopyFile fromPath toPath w
  = (None,
     {| fs := <[x := written (env w) (now (env w) (length (calls w) + 2))
                       (data n) 384 (fs w !! x)]> (fs w);
        calls := calls w
                 ++ [SysLstat fromPath; SysReadFile fromPath;
                     SysWriteFile toPath (data n) 384;
                     SysLstat fromPath; SysLstat toPath];
        out := out w; env := env w |}).
Proof.
  intros Hc Hn Kn Hl Kl Hx Hp.
  assert (toPath <> x) as Hne.
  { intros <-. destruct Hp as [Hp|Hp]; [congruence|].
    unfold isRegularNode in Hp. rewrite Hl, Kl in Hp. discriminate. }
  unfold Fileio.CopyFile.
  erewrite bind_run by (apply Lstat_run; exact Hc).
  rewrite Hn. cbv beta iota. rewrite IsRegular_infoOf.
  unfold isRegularNode. rewrite Kn.
  unfold Fileio.copyFileImpl.
  erewrite bind_run by (apply ReadFile_run; eassumption).
  norm. unfold WriteFile.
  erewrite bind_run.
  2:{ apply syscall_run
        with (a := tt)
             (f' := <[x := written (env w) (now (env w) (length (calls w) + 2))
                              (data n) 384 (fs w !! x)]> (fs w)).
      - apply Hc. discriminate.
      - unfold clock. cbn [fs env calls].
        rewrite (follow_link _ _ x l Hl Kl Hx (plain_notLink _ _ Hp)).
        replace (length ((calls w ++ [SysLstat fromPath])
                         ++ [SysReadFile fromPath]))
          with (length (calls w) + 2)%nat
          by (rewrite !List.length_app; cbn; lia).
        destruct Hp as [Hp|Hp].
        + now rewrite Hp.
        + unfold isRegularNode in Hp. destruct (fs w !! x) as [xn|];
            [|discriminate].
          destruct (kind xn); try discriminate. reflexivity. }
  norm. unfold Fileio.ApplyFilePermissions.
  erewrite bind_run by (apply Lstat_run; exact Hc).
  norm.
  assert (is_Some (<[x := written (env w) (now (env w) (length (calls w) + 2))
                            (data n) 384 (fs w !! x)]> (fs w) !! fromPath))
    as [s ->].
  { destruct (decide (x = fromPath)) as [->|Hxf].
    - rewrite lookup_insert_eq. eauto.
    - rewrite lookup_insert_ne by exact Hxf. eauto. }
  cbv beta iota.
  erewrite bind_run by (apply Lstat_run; exact Hc).
  norm. rewrite lookup_insert_ne by congruence. rewrite Hl.
  cbv beta iota. rewrite IsSymlink_infoOf. unfold isSymlinkNode.
  rewrite Kl. cbn [negb]. unfold ret. f_equal. f_equal.
  now rewrite <- !app_assoc.
Qed.

(* ===================================================================== *)
(** * The paths of an entry and its backup *)
(* ===================================================================== *)

(** X24. The paths of an entry do not collide: for every file below the
    repository, the repository path, the target path, the backup path
    and the side-car path are four different paths, and the directory of
    the backup is not the backup; no copy of [walkRepo] has the same
    source and destination. *)
Theorem entry_paths_are_distinct (repoPath rel : string) :
  Entry repoPath rel ->
  List.NoDup [repoPath; targetPath (related repoPath);
         backupPath (related repoPath); pacnewPath (related repoPath)]
  /\ Dir (backupPath (related repoPath)) <> backupPath (related repoPath).
Proof.
  intros E. rewrite (entry_related _ _ E).
  destruct (entry_layout _ _ E) as [Ltb Ltp Lpb Lrt Lrb Lrp Ldb].
  split; [|exact Ldb].
  repeat (apply List.NoDup_cons; [cbn [In]; intuition congruence|]).
  apply List.NoDup_nil.
Qed.

(** The run over a tracked target with no side-car artifact, when no call
    fails: the check decides. *)
Lemma tracked_run
    (repoPath rel : string) (repoInfo : FileInfo) (w : World)
    (tn rn : Node) :
  Entry repoPath rel ->
  IsRegular (Mode repoInfo) = true ->
  calm (env w) ->
  fs w !! targetOf rel = Some tn -> kind tn = Regular ->
  isRegularNode (fs w !! backupOf rel) = true ->
  fs w !! repoPath = Some rn -> kind rn = Regular ->
  isRegularNode (fs w !! pacnewOf rel) = false ->
  fs (snd (walkRepo repoPath repoInfo None w))
  = if After (mtime tn) (mtime rn) then fs w
    else installed repoPath rel rn (fs w).
Proof.
  intros E Hi Hc Ht Kt Hb Hr Kr Hp.
  destruct (After (mtime tn) (mtime rn)) eqn:Hnew.
  - rewrite walkRepo_fs, Hi. unfold walkRepoBody.
    rewrite (entry_related _ _ E). unfold walkRepoSteps.
    erewrite pbind_run.
    2:{ apply step1_run; [exact Hc | now apply regular_node with tn]. }
    erewrite pbind_run.
    2:{ apply step2_tracked; [exact Hc | exact Hb]. }
    erewrite pbind_run.
    2:{ apply step2_5_none; [exact Hc | exact Hp]. }
    erewrite step3_total with (tn := tn) (rn := rn); try eassumption.
    now rewrite Hnew.
  - now rewrite (install_run_tracked repoPath rel repoInfo w tn rn)
      by assumption.
Qed.

(** X25. A backup, once taken, stays: when no call fails, a run over a
    tracked target with no side-car artifact leaves the backup as it
    was, whether the target is reported as modified or overwritten; the
    target is left as it was when it is newer than the repository file,
    and replaced by the copy of the repository file (copy strategy)
    when it is not. *)
Theorem backup_is_taken_once
    (repoPath rel : string) (repoInfo : FileInfo) (w : World)
    (tn bn rn : Node) :
  Entry repoPath rel ->
  IsRegular (Mode repoInfo) = true ->
  calm (env w) ->
  fs w !! targetOf rel = Some tn -> kind tn = Regular ->
  fs w !! backupOf rel = Some bn -> kind bn = Regular ->
  fs w !! repoPath = Some rn -> kind rn = Regular ->
  isRegularNode (fs w !! pacnewOf rel) = false ->
  let w' := snd (walkRepo repoPath repoInfo None w) in
  fs w' !! backupOf rel = Some bn
  /\ fs w' !! targetOf rel
     = if After (mtime tn) (mtime rn) then Some tn
       else if HasSuffix repoPath ".holoscript" then Some tn
       else Some (copyOf rn).
Proof.
  intros E Hi Hc Ht Kt Hb Kb Hr Kr Hp w'. subst w'.
  pose proof (entry_layout _ _ E) as L.
  pose proof (lay_tb _ _ L) as Ltb.
  cbn [targetPath backupPath relatedOf] in Ltb.
  rewrite (tracked_run repoPath rel repoInfo w tn rn) by
    (try assumption; now apply regular_node with bn).
  destruct (After (mtime tn) (mtime rn)); [now split|].
  split.
  - rewrite installed_other by congruence. exact Hb.
  - unfold installed. destruct (HasSuffix repoPath ".holoscript");
      [exact Ht|]. apply lookup_insert_eq.
Qed.

(* ===================================================================== *)
(** * The mode of a new copy *)
(* ===================================================================== *)


(* ===================================================================== *)
(** * The calls of an entry *)
(* ===================================================================== *)

Lemma syscall_calls {A} (c : Syscall) (op path : string)
    (body : Env -> Time -> gmap string Node -> Errno + (A * gmap string Node))
    (W : World) :
  calls (snd (syscall c op path body W)) = (calls W ++ [c])%list.
Proof.
  unfold syscall. destruct (fault (env W) (clock W) c); [reflexivity|].
  destruct (body (env W) (now (env W) (clock W)) (fs W)) as [e|[a f']];
    reflexivity.
Qed.

(** A call that is in [ok] keeps the calls in [ok]. *)
Lemma since_syscall {A} (w : World) (ok : Syscall -> Prop) (c : Syscall)
    (op path : string)
    (body : Env -> Time -> gmap string Node -> Errno + (A * gmap string Node)) :
  ok c -> hoare (since w ok) (syscall c op path body) (fun _ => since w ok).
Proof.
  intros Hc W (cs & H & Hok). exists (cs ++ [c])%list. split.
  - now rewrite syscall_calls, H, app_assoc.
  - apply Forall_app. split; [exact Hok|]. now constructor.
Qed.

Section Calls.

Context (w : World) (ok : Syscall -> Prop).

Lemma since_isRegularFile (p : string) :
  ok (SysLstat p) ->
  hoare (since w ok) (isRegularFile p) (fun _ => since w ok).
Proof.
  intros H. unfold isRegularFile, Lstat.
  eapply hoare_bind; [now apply since_syscall|].
  intros [e|info]; now apply hoare_ret.
Qed.

Lemma since_isNewerThan (p1 p2 : string) :
  ok (SysStat p1) -> ok (SysStat p2) ->
  hoare (since w ok) (isNewerThan p1 p2) (fun _ => since w ok).
Proof.
  intros H1 H2. unfold isNewerThan, panic, Stat.
  eapply hoare_bind; [now apply since_syscall|].
  intros [e|info1]; [now apply hoare_ret|].
  eapply hoare_bind; [now apply since_syscall|].
  intros [e|info2]; now apply hoare_ret.
Qed.

Lemma since_copyFile (fromPath toPath : string) :
  ok (SysReadFile fromPath) -> ok (SysStat fromPath) ->
  (forall content, ok (SysWriteFile toPath content 384)) ->
  (forall m, ok (SysChmod toPath m)) ->
  (forall u g, ok (SysChown toPath u g)) ->
  (forall a m, ok (SysChtimes toPath a m)) ->
  hoare (since w ok) (copyFile fromPath toPath) (fun _ => since w ok).
Proof.
  intros Hr Hs Hw Hm Ho Ht.
  unfold copyFile, panic, HoloApply.copyFileImpl,
    ReadFile, WriteFile, Stat, Chmod, Chown, Chtimes.
  eapply hoare_bind with (R := fun _ => since w ok);
    [|intros [e|]; now apply hoare_ret].
  eapply hoare_bind; [now apply since_syscall|].
  intros [e|content]; [now apply hoare_ret|].
  eapply hoare_bind; [now apply since_syscall|].
  intros [e|u]; [now apply hoare_ret|].
  eapply hoare_bind; [now apply since_syscall|].
  intros [e|info]; [now apply hoare_ret|].
  eapply hoare_bind; [now apply since_syscall|].
  intros [e|u1]; [now apply hoare_ret|].
  eapply hoare_bind; [now apply since_syscall|].
  intros [e|u2]; [now apply hoare_ret|].
  eapply hoare_bind; [now apply since_syscall|].
  intros [e|u3]; now apply hoare_ret.
Qed.

End Calls.

Lemma since_print (w : World) (ok : Syscall -> Prop) (line : string)
    (W : World) :
  since w ok W -> since w ok (print line W).
Proof. exact (fun H => H). Qed.

(** The calls of the steps are the calls of the entry. *)
Lemma steps_calls (repoPath : string) (r : Related) (w : World) :
  applicationStrategy r = applyCopy \/ applicationStrategy r = applyProgram ->
  hoare (since w (entryCall repoPath r)) (walkRepoSteps repoPath r)
    (fun _ => since w (entryCall repoPath r)).
Proof.
  intros Hs. unfold walkRepoSteps.
  eapply hoare_pbind with (R := fun _ => since w (entryCall repoPath r));
    [|now intros|].
  { unfold step1, panic.
    eapply hoare_bind; [apply since_isRegularFile; cbn; auto|].
    intros [|]; now apply hoare_ret. }
  intros ?.
  eapply hoare_pbind with (R := fun _ => since w (entryCall repoPath r));
    [|now intros|].
  { unfold step2, panic.
    eapply hoare_bind; [apply since_isRegularFile; cbn; auto|].
    intros [|]; cbn [negb]; [now apply hoare_ret|].
    eapply hoare_bind with (R := fun _ => since w (entryCall repoPath r));
      [intros W H; now apply since_print|].
    intros ?. unfold MkdirAll.
    eapply hoare_bind; [apply since_syscall; cbn; auto|].
    intros [e|u]; [now apply hoare_ret|].
    eapply hoare_pbind with (R := fun _ => since w (entryCall repoPath r));
      [apply since_copyFile; cbn; auto | now intros |].
    intros ?. now apply hoare_ret. }
  intros skip.
  eapply hoare_pbind with (R := fun _ => since w (entryCall repoPath r));
    [|now intros|].
  { unfold step2_5.
    eapply hoare_bind; [apply since_isRegularFile; cbn; auto|].
    intros [|]; [|now apply hoare_ret].
    eapply hoare_bind with (R := fun _ => since w (entryCall repoPath r));
      [intros W H; now apply since_print|].
    intros ?.
    eapply hoare_pbind with (R := fun _ => since w (entryCall repoPath r));
      [apply since_copyFile; cbn; auto | now intros |].
    intros ?. unfold Remove.
    eapply hoare_bind; [apply since_syscall; cbn; auto|].
    intros ?. now apply hoare_ret. }
  intros ?. unfold step3, panic.
  eapply hoare_pbind with (R := fun _ => since w (entryCall repoPath r));
    [|now intros|].
  { destruct skip; cbn [negb];
      [now apply hoare_ret | apply since_isNewerThan; cbn; auto]. }
  intros [|]; [now apply hoare_ret|].
  eapply hoare_bind with (R := fun _ => since w (entryCall repoPath r));
    [intros W H; now apply since_print|].
  intros ?. destruct Hs as [-> | ->].
  - unfold applyCopy. apply since_copyFile; cbn; auto.
  - unfold applyProgram. now apply hoare_ret.
Qed.

(** X27. [walkRepo] asks the system to change four paths and no other:
    whatever the path it is called with, the world and the failures,
    every call it issues is a read of the repository file, the target,
    the backup or the side-car artifact, a write with mode 0600 or a
    change of mode, owner or times at the target or at the backup, the
    making of the directory of the backup with mode 0755, or the removal
    of the side-car artifact. *)
Theorem walkRepo_calls_name_the_paths_of_the_entry
    (repoPath : string) (repoInfo : FileInfo) (err : option string)
    (w : World) :
  exists cs,
    calls (snd (walkRepo repoPath repoInfo err w)) = (calls w ++ cs)%list
    /\ Forall (entryCall repoPath (related repoPath)) cs
    /\ forall c p,
         In c cs -> changedPath c = Some p ->
         In p [targetPath (related repoPath); backupPath (related repoPath);
               Dir (backupPath (related repoPath));
               pacnewPath (related repoPath)].
Proof.
  assert (since w (entryCall repoPath (related repoPath))
            (snd (walkRepo repoPath repoInfo err w))) as (cs & H & Hok).
  { assert (since w (entryCall repoPath (related repoPath)) w) as H0
      by (exists []; split; [now rewrite app_nil_r | constructor]).
    unfold walkRepo. destruct err as [e|]; [exact H0|].
    destruct (IsRegular (Mode repoInfo)); cbn [negb]; [|exact H0].
    unfold bind, walkRepoBody.
    pose proof (steps_calls repoPath (related repoPath) w
                  (related_strategy repoPath) w H0) as H1.
    destruct (walkRepoSteps repoPath (related repoPath) w)
      as [[message|u] w1]; cbn [fst snd] in *; exact H1. }
  exists cs. split; [exact H|]. split; [exact Hok|].
  intros c p Hc Hp. rewrite List.Forall_forall in Hok.
  specialize (Hok c Hc). cbn [In].
  destruct c; cbn in Hp, Hok; try discriminate; injection Hp as <-;
    intuition auto.
Qed.


(* ===================================================================== *)
(** * The properties above on the sample worlds *)
(* ===================================================================== *)

Lemma IsNewerThan_reports_the_missing_file_witness :
  Fileio.IsNewerThan "/etc/localtime" "/etc/missing" linkWorld
  = ((false, Some (PathError "lstat" "/etc/missing" ENOENT)),
     tick (SysLstat "/etc/missing") (tick (SysLstat "/etc/localtime") linkWorld)).
Proof.
  destruct (IsNewerThan_reports_the_missing_file
              "/etc/localtime" "/etc/missing" linkWorld calm_quietEnv)
    as [_ H].
  apply H; [eexists|]; reflexivity.
Defined.

Lemma IsNewerThan_is_asymmetric_witness :
  fst (fst (Fileio.IsNewerThan fooRepo "/etc/foo.conf" driftWorld)) = false.
Proof.
  apply (IsNewerThan_is_asymmetric "/etc/foo.conf" fooRepo
           driftWorld driftWorld).
  - reflexivity.
  - reflexivity.
Defined.

Lemma CopyFile_changes_only_the_destination_witness :
  out (snd (Fileio.CopyFile fooRepo "/etc/foo.conf" cleanWorld)) = []
  /\ env (snd (Fileio.CopyFile fooRepo "/etc/foo.conf" cleanWorld)) = quietEnv
  /\ forall q, q <> "/etc/foo.conf" ->
       fs (snd (Fileio.CopyFile fooRepo "/etc/foo.conf" cleanWorld)) !! q
       = fs cleanWorld !! q.
Proof.
  apply (CopyFile_changes_only_the_destination fooRepo "/etc/foo.conf"
           cleanWorld).
  left. reflexivity.
Defined.

Lemma copy_is_not_newer_than_its_source_witness :
  fst (fst (Fileio.IsNewerThan "/etc/foo.conf" fooRepo
              (snd (Fileio.CopyFile fooRepo "/etc/foo.conf" linkedDestWorld))))
  = false.
Proof.
  apply (copy_is_not_newer_than_its_source fooRepo "/etc/foo.conf"
           linkedDestWorld
           (snd (Fileio.CopyFile fooRepo "/etc/foo.conf" linkedDestWorld))).
  - vm_compute. reflexivity.
  - reflexivity.
Defined.

Lemma CopyFile_refuses_other_sources_witness :
  exists err cs,
    Fileio.CopyFile "/etc/missing" "/etc/foo.conf" cleanWorld
    = (Some err,
       {| fs := fs cleanWorld; calls := calls cleanWorld ++ cs;
          out := out cleanWorld; env := env cleanWorld |})
    /\ (cs = [SysLstat "/etc/missing"]
        \/ cs = [SysLstat "/etc/missing"; SysReadlink "/etc/missing"])
    /\ (calm (env cleanWorld) ->
        match fs cleanWorld !! "/etc/missing" with
        | None => err = PathError "lstat" "/etc/missing" ENOENT
                  /\ cs = [SysLstat "/etc/missing"]
        | Some _ => err = PathError "readlink" "/etc/missing" EINVAL
                    /\ cs = [SysLstat "/etc/missing";
                             SysReadlink "/etc/missing"]
        end).
Proof.
  apply (CopyFile_refuses_other_sources "/etc/missing" "/etc/foo.conf"
           cleanWorld).
  - reflexivity.
  - reflexivity.
Defined.


Lemma CopyFile_link_keeps_what_it_cannot_replace_witness :
  Fileio.CopyFile "/holo/repo/etc/localtime" "/etc/localtime" linkOntoDirWorld
  = (Some (PathError "symlink" "/usr/share/zoneinfo/UTC /etc/localtime" EEXIST),
     {| fs := fs linkOntoDirWorld;
        calls := [SysLstat "/holo/repo/etc/localtime";
                  SysReadlink "/holo/repo/etc/localtime";
                  SysLstat "/etc/localtime";
                  SysSymlink "/usr/share/zoneinfo/UTC" "/etc/localtime"];
        out := []; env := quietEnv |}).
Proof.
  apply (CopyFile_link_keeps_what_it_cannot_replace
           "/holo/repo/etc/localtime" "/etc/localtime" linkOntoDirWorld
           (link "/usr/share/zoneinfo/UTC" 20) (folder 10)).
  - exact calm_quietEnv.
  - reflexivity.
  - reflexivity.
  - reflexivity.
  - discriminate.
  - discriminate.
Defined.

Lemma entry_changes_only_its_own_paths_witness :
  fs (snd (walkRepo fooRepo fooInfo None driftSidecarWorld)) !! fooRepo
  = Some (file "B" 20).
Proof.
  destruct (entry_changes_only_its_own_paths fooRepo fooRel fooInfo
              driftSidecarWorld entry_foo eq_refl) as [_ H].
  apply H. reflexivity.
Defined.

Lemma target_must_be_a_regular_file_witness :
  walkRepo "/holo/repo/etc/localtime" fooInfo None linkWorld
  = (None,
     {| fs := fs linkWorld;
        calls := [SysLstat "/etc/localtime"];
        out := [msgLine msgError "/etc/localtime is not a regular file"];
        env := quietEnv |}).
Proof.
  apply (target_must_be_a_regular_file "/holo/repo/etc/localtime" fooInfo
           linkWorld).
  - reflexivity.
  - reflexivity.
Defined.

Lemma blocked_backup_directory_stops_the_entry_witness :
  walkRepo fooRepo fooInfo None blockedWorld
  = (None,
     {| fs := fs blockedWorld;
        calls := [SysLstat "/etc/foo.conf"; SysLstat "/holo/backup/etc/foo.conf";
                  SysMkdirAll "/holo/backup/etc" 493];
        out := [savingLine "/etc/foo.conf";
                msgLine msgError
                  "Cannot create directory /holo/backup/etc: mkdir /holo/backup/etc: not a directory"];
        env := quietEnv |}).
Proof.
  apply (blocked_backup_directory_stops_the_entry fooRepo fooRel fooInfo
           blockedWorld (file "A" 10) (file "x" 5)).
  - exact entry_foo.
  - reflexivity.
  - exact calm_quietEnv.
  - reflexivity.
  - reflexivity.
  - reflexivity.
  - reflexivity.
  - discriminate.
  - discriminate.
Defined.

Lemma second_run_changes_nothing_witness :
  let w1 := snd (walkRepo fooRepo fooInfo None freshWorld) in
  fs w1 !! targetOf fooRel = Some (copyOf (file "B" 20))
  /\ walkRepo fooRepo fooInfo None w1
     = (None,
        {| fs := fs w1;
           calls := calls w1 ++ checkCalls fooRepo fooRel
                    ++ copyCalls fooRepo (targetOf fooRel) (file "B" 20);
           out := out w1 ++ [installingLine (targetOf fooRel)];
           env := env w1 |}).
Proof.
  apply (second_run_changes_nothing fooRepo fooRel fooInfo freshWorld
           (file "A" 30) (file "B" 20)).
  - exact entry_foo.
  - reflexivity.
  - reflexivity.
  - exact calm_quietEnv.
  - reflexivity.
  - reflexivity.
  - reflexivity.
  - reflexivity.
  - reflexivity.
  - right. split; [reflexivity|exact dirOk_fresh].
Defined.

Lemma entry_script : Entry scriptRepo "etc/foo.conf".
Proof. now apply (EntryProgram "etc/foo.conf"). Qed.

Lemma program_strategy_installs_nothing_witness :
  walkRepo scriptRepo fooInfo None scriptWorld
  = (None,
     {| fs := fs scriptWorld;
        calls := [SysLstat "/etc/foo.conf"; SysLstat "/holo/backup/etc/foo.conf";
                  SysLstat "/etc/foo.conf.pacnew"; SysStat "/etc/foo.conf";
                  SysStat scriptRepo];
        out := [installingLine "/etc/foo.conf"];
        env := quietEnv |}).
Proof.
  destruct (program_strategy_installs_nothing scriptRepo "etc/foo.conf"
              fooInfo scriptWorld entry_script eq_refl) as [_ H].
  apply (H (file "A" 10) (file "#!/bin/sh" 20)).
  - reflexivity.
  - exact calm_quietEnv.
  - reflexivity.
  - reflexivity.
  - reflexivity.
  - reflexivity.
  - reflexivity.
  - reflexivity.
  - reflexivity.
Defined.

Lemma copyFile_leaves_nothing_newer_witness :
  let w1 := snd (copyFile fooRepo "/etc/foo.conf" cleanWorld) in
  fst (copyFile fooRepo "/etc/foo.conf" cleanWorld) = inr tt
  /\ fst (isNewerThan "/etc/foo.conf" fooRepo w1) = inr false
  /\ fst (isNewerThan fooRepo "/etc/foo.conf" w1) = inr false.
Proof.
  apply (copyFile_leaves_nothing_newer fooRepo "/etc/foo.conf" cleanWorld
           (file "B'" 20)).
  - exact calm_quietEnv.
  - reflexivity.
  - reflexivity.
  - right. reflexivity.
  - discriminate.
Defined.

Lemma copyFile_reads_before_it_writes_witness :
  exists err,
    copyFile "/etc/missing" "/etc/foo.conf" cleanWorld
    = (inl (cannotCopy "/etc/missing" "/etc/foo.conf" err),
       tick (SysReadFile "/etc/missing") cleanWorld)
    /\ (calm (env cleanWorld) -> err = PathError "open" "/etc/missing" ENOENT).
Proof.
  apply (copyFile_reads_before_it_writes "/etc/missing" "/etc/foo.conf"
           cleanWorld).
  reflexivity.
Defined.

Lemma main_needs_the_repository_directory_witness :
  main [] linkedRepoWorld
  = (tt,
     {| fs := fs linkedRepoWorld;
        calls := [SysLstat "/holo/repo"];
        out := [msgLine msgError "Cannot open /holo/repo: not a directory!"];
        env := quietEnv |}).
Proof.
  pose proof (main_needs_the_repository_directory [] linkedRepoWorld
                calm_quietEnv) as H.
  assert (fs linkedRepoWorld !! "/holo/repo" = Some (link "/srv/holo" 5))
    as Hl by reflexivity.
  rewrite Hl in H. apply H. discriminate.
Defined.

Lemma inaccessible_entry_ends_the_walk_witness :
  Walk ([(fooRepo, fooInfo, None)]
        ++ ("/holo/repo/private", fooInfo,
            Some "open /holo/repo/private: permission denied")
           :: [("/holo/repo/zzz.conf", fooInfo, None)])
       walkRepo driftWorld
  = (Some "open /holo/repo/private: permission denied",
     snd (Walk [(fooRepo, fooInfo, None)] walkRepo driftWorld))
  /\ main ([(fooRepo, fooInfo, None)]
           ++ ("/holo/repo/private", fooInfo,
               Some "open /holo/repo/private: permission denied")
              :: [("/holo/repo/zzz.conf", fooInfo, None)])
          driftWorld
     = main [(fooRepo, fooInfo, None)] driftWorld.
Proof.
  apply (inaccessible_entry_ends_the_walk
           [(fooRepo, fooInfo, None)] [("/holo/repo/zzz.conf", fooInfo, None)]
           "/holo/repo/private" fooInfo
           "open /holo/repo/private: permission denied" driftWorld).
  repeat constructor.
Defined.

Lemma walkRepo_removes_nothing_but_the_sidecar_witness :
  exists n',
    fs (snd (walkRepo fooRepo fooInfo None driftSidecarWorld))
      !! "/holo/backup/etc/foo.conf" = Some n'
    /\ kind n' = kind (file "A" 10).
Proof.
  apply (walkRepo_removes_nothing_but_the_sidecar fooRepo fooInfo None
           driftSidecarWorld "/holo/backup/etc/foo.conf" (file "A" 10)).
  - reflexivity.
  - intros H. vm_compute in H. discriminate H.
Defined.

Lemma last_line_tells_the_outcome_witness :
  let w' := snd (walkRepo fooRepo fooInfo None driftWorld) in
  (exists ls, out w' = (out driftWorld ++ ls)%list)
  /\ List.last (out w') ""
     = match fst (walkRepoBody fooRepo driftWorld) with
       | inl message => msgLine msgError message
       | inr _ => installingLine (targetPath (related fooRepo))
       end.
Proof.
  apply (last_line_tells_the_outcome fooRepo fooInfo driftWorld).
  reflexivity.
Defined.


Lemma main_walks_every_entry_witness :
  main repoVisits repoWorld
  = (tt,
     fold_left (fun W v => snd (walkRepo (fst (fst v)) (snd (fst v)) None W))
       repoVisits (tick (SysLstat "/holo/repo") repoWorld)).
Proof.
  apply (main_walks_every_entry repoVisits repoWorld (folder 5)).
  - exact calm_quietEnv.
  - reflexivity.
  - reflexivity.
  - repeat constructor.
Defined.

Lemma CopyFile_writes_through_a_symlink_witness :
  Fileio.CopyFile fooRepo "/etc/foo.conf" linkedDestWorld
  = (None,
     {| fs := <["/etc/foo.real" :=
                 written quietEnv (now quietEnv 2) "B" 384
                   (fs linkedDestWorld !! "/etc/foo.real")]>
                (fs linkedDestWorld);
        calls := [SysLstat fooRepo; SysReadFile fooRepo;
                  SysWriteFile "/etc/foo.conf" "B" 384;
                  SysLstat fooRepo; SysLstat "/etc/foo.conf"];
        out := []; env := quietEnv |}).
Proof.
  apply (CopyFile_writes_through_a_symlink fooRepo "/etc/foo.conf"
           "/etc/foo.real" linkedDestWorld (file "B" 20)
           (link "/etc/foo.real" 5)).
  - exact calm_quietEnv.
  - reflexivity.
  - reflexivity.
  - reflexivity.
  - reflexivity.
  - reflexivity.
  - right. reflexivity.
Defined.

Lemma entry_paths_are_distinct_witness :
  List.NoDup [fooRepo; targetPath (related fooRepo);
         backupPath (related fooRepo); pacnewPath (related fooRepo)]
  /\ Dir (backupPath (related fooRepo)) <> backupPath (related fooRepo).
Proof.
  apply (entry_paths_are_distinct fooRepo fooRel).
  exact entry_foo.
Defined.

Lemma backup_is_taken_once_witness :
  let w' := snd (walkRepo fooRepo fooInfo None cleanWorld) in
  fs w' !! backupOf fooRel = Some (file "A" 10)
  /\ fs w' !! targetOf fooRel
     = if After (mtime (file "B" 20)) (mtime (file "B'" 20))
       then Some (file "B" 20)
       else if HasSuffix fooRepo ".holoscript" then Some (file "B" 20)
       else Some (copyOf (file "B'" 20)).
Proof.
  apply (backup_is_taken_once fooRepo fooRel fooInfo cleanWorld
           (file "B" 20) (file "A" 10) (file "B'" 20)).
  - exact entry_foo.
  - reflexivity.
  - exact calm_quietEnv.
  - reflexivity.
  - reflexivity.
  - reflexivity.
  - reflexivity.
  - reflexivity.
  - reflexivity.
  - reflexivity.
Defined.

